(** * FortuneBlock: block-template assembly and coinbase composition

    A shallow embedding of the block assembler ([BlockAssembler] in
    miner.cpp) and of the lucky-payment layer ([FortunePayment] in
    fortune_payment.cpp), with the properties of the selection loop and of
    the coinbase composer stated and proved over it.

    Conventions.
    - Amounts ([CAmount], a signed 64-bit integer) are [Z].  Signed overflow
      is undefined in C++, so the model is exact whenever the intermediate
      values fit in 64 bits.
    - Unsigned machine integers are [Z] with the wrap-around written out
      ([wrap64], [wrap32]).
    - A mempool iterator ([CTxMemPool::txiter]) is a handle of type [nat];
      [CTxMemPool::setEntries] is a [gset nat]; the modified-package index
      [mapModifiedTx] is a [gmap] from handles to modified entries. *)

From stdpp Require Import gmap list strings fin_sets sorting.
From Stdlib Require Import ZArith QArith Lia.

Open Scope Z_scope.

(** ** Machine integers *)

Definition wrap64 (z : Z) : Z := z mod 2 ^ 64.
Definition wrap32 (z : Z) : Z := z mod 2 ^ 32.

(** [static_cast<int>] of an unsigned value: two's complement, 32 bits. *)
Definition to_int32 (z : Z) : Z := (z + 2 ^ 31) mod 2 ^ 32 - 2 ^ 31.

(** The value an [int64_t] holds after an arithmetic result [z]: two's
    complement, 64 bits. *)
Definition to_int64 (z : Z) : Z := (z + 2 ^ 63) mod 2 ^ 64 - 2 ^ 63.

(** ** Outcomes of fallible code

    [Thrown] is a C++ exception leaving the function, [Aborted] a failed
    [assert]; [Undefined] marks an execution the language gives no meaning
    to (indexing an empty vector, a remainder by zero). *)

Inductive outcome (A : Type) : Type :=
| Ok (a : A)
| Thrown (what : string)
| Aborted
| Undefined.
Arguments Ok {A} a.
Arguments Thrown {A} what.
Arguments Aborted {A}.
Arguments Undefined {A}.

Definition obind {A B} (x : outcome A) (k : A -> outcome B) : outcome B :=
  match x with
  | Ok a => k a
  | Thrown w => Thrown w
  | Aborted => Aborted
  | Undefined => Undefined
  end.

Notation "'do' x <- e ; k" := (obind e (fun x => k))
  (at level 10, x name, e at level 100, k at level 200).

(** ** External collaborators of the coinbase composer

    [key_io] and [script/standard] (address decoding and the script paying
    to a destination) and the block database lookup
    [GetBlockCoinbaseMinerAddress] are consumed through their interfaces. *)

Class KeyIO : Type := {
  CScript : Type;
  CScript_eq_dec :: EqDecision CScript;
  CTxDestination : Type;
  DecodeDestination : string -> CTxDestination;
  IsValidDestination : CTxDestination -> bool;
  GetScriptForDestination : CTxDestination -> CScript
}.

Class BlockDatabase : Type := {
  GetBlockCoinbaseMinerAddress : Z -> string
}.

(** ** Transaction outputs *)

Record CTxOut `{KeyIO} : Type := mkTxOut { nValue : Z; scriptPubKey : CScript }.
Arguments mkTxOut {_} nValue scriptPubKey.

Definition sum_values `{KeyIO} (vout : list CTxOut) : Z :=
  foldr (fun o acc => nValue o + acc) 0 vout.

(** ** The active chain, as far as the lucky payment reads it *)

(** A [uint256] is a number below [2^256]; [GetUint64 h pos] is its
    [pos]-th 64-bit word, least significant first. *)
Definition GetUint64 (h : Z) (pos : Z) : Z :=
  Z.land (Z.shiftr h (64 * pos)) (2 ^ 64 - 1).

Record CBlockIndex : Type := mkIndex { nHeight : Z; blockHash : Z }.

(** [ChainActive()]: the vector of block indexes, genesis first. *)
Definition CChain : Type := list CBlockIndex.

Definition Height (c : CChain) : Z := Z.of_nat (length c) - 1.

(** [CChain::operator[]]: null outside the vector. *)
Definition chain_at (c : CChain) (h : Z) : option CBlockIndex :=
  if (h <? 0) || (Z.of_nat (length c) <=? h) then None
  else c !! Z.to_nat h.

(** ** FortunePayment (fortune_payment.h, fortune_payment.cpp) *)

Definition INT_MAX : Z := 2147483647.

Definition DEFAULT_FORTUNE_ADDRESS : string :=
  "FkqwU8tUU6U41PuGTPUqy93hML4QtCDPDX".

Record FortuneRewardStructure : Type :=
  mkReward { blockHeight : Z; rewardPercentage : Z }.

Record FortunePayment : Type := mkFortune {
  fortuneAddress : string;
  startBlock : Z;
  rewardStructures : list FortuneRewardStructure
}.

(** The [for] loop of [getFortunePaymentAmount]: first matching range wins.
    [blockReward * rewardStructure.rewardPercentage] is the product of a
    [CAmount] and an [int], computed in [int64_t]: where it leaves that
    range the compiled code keeps its low 64 bits, which is [to_int64]; the
    division truncates towards zero. *)
Fixpoint scanRewardStructures (l : list FortuneRewardStructure)
    (height blockReward : Z) : Z :=
  match l with
  | [] => 0
  | rs :: rest =>
      if (blockHeight rs =? INT_MAX) || (height <=? blockHeight rs)
      then to_int64 (blockReward * rewardPercentage rs) ÷ 100
      else scanRewardStructures rest height blockReward
  end.

Definition getFortunePaymentAmount (fp : FortunePayment)
    (height blockReward : Z) : Z :=
  if height <=? startBlock fp then 0
  else scanRewardStructures (rewardStructures fp) height blockReward.

Definition hashWordsXor (h : Z) : Z :=
  Z.lxor (Z.lxor (Z.lxor (GetUint64 h 0) (GetUint64 h 1)) (GetUint64 h 2))
         (GetUint64 h 3).

(** The expression
    [static_cast<int>((w0 ^ w1 ^ w2 ^ w3) % pblockindex->nHeight)]:
    the [int] height is converted to [uint64_t] for the remainder. *)
Definition luckyHeightOf (idx : CBlockIndex) : outcome Z :=
  let d := wrap64 (nHeight idx) in
  if d =? 0 then Undefined
  else Ok (to_int32 (hashWordsXor (blockHash idx) mod d)).

Section FortunePaymentCode.
Context `{KeyIO} `{BlockDatabase}.
Variable chainActive : CChain.

(** [GetFortuneAddressByHeight]: the new value of [fortuneAddress]. *)
Definition GetFortuneAddressByHeight (height : Z) : outcome string :=
  if (height <=? 0) || (Height chainActive <? height)
  then Ok DEFAULT_FORTUNE_ADDRESS
  else match chain_at chainActive height with
       | None => Ok DEFAULT_FORTUNE_ADDRESS
       | Some pblockindex =>
           do luckyHeight <- luckyHeightOf pblockindex;
           Ok (GetBlockCoinbaseMinerAddress luckyHeight)
       end.

Definition payeeScript (address : string) : CScript :=
  GetScriptForDestination (DecodeDestination address).

(** [FillFortunePayment]: the transaction's outputs afterwards, paired
    with [txoutFortuneRet]. *)
Definition FillFortunePayment (fp : FortunePayment)
    (vout : list CTxOut) (nBlockHeight blockReward : Z)
  : outcome (list CTxOut * CTxOut) :=
  let fortunePayment := getFortunePaymentAmount fp (nBlockHeight - 1) blockReward in
  do address <- GetFortuneAddressByHeight (nBlockHeight - 1);
  if negb (IsValidDestination (DecodeDestination address))
  then Thrown ("Invalid Fortune Address: " ++ address)
  else
    match vout with
    | [] => Undefined
    | out0 :: rest =>
        let txoutFortuneRet := mkTxOut fortunePayment (payeeScript address) in
        Ok (mkTxOut (nValue out0 - fortunePayment) (scriptPubKey out0)
              :: rest ++ [txoutFortuneRet],
            txoutFortuneRet)
    end.

(** [IsBlockPayeeValid]: the [BOOST_FOREACH] returns at the first
    matching output. *)
Definition IsBlockPayeeValid (fp : FortunePayment)
    (vout : list CTxOut) (height blockReward : Z) : outcome bool :=
  do address <- GetFortuneAddressByHeight height;
  let payee := payeeScript address in
  let fortuneReward := getFortunePaymentAmount fp height blockReward in
  Ok (existsb (fun out =>
                 bool_decide (scriptPubKey out = payee)
                 && (fortuneReward <=? nValue out)) vout).

End FortunePaymentCode.

(** ** The coinbase of CreateNewBlock (miner.cpp) *)

(** [FillBlockPayments] (smartnode/smartnode-payments.cpp) is handed the
    coinbase, the height, the normal block reward and the special
    transaction fees; here it is the function from the outputs before the
    call to the outputs after it. *)
Class PaymentLayers `{KeyIO} : Type := {
  FillBlockPayments : list CTxOut -> Z -> Z -> Z -> list CTxOut
}.

Section CoinbaseCode.
Context `{KeyIO} `{BlockDatabase} `{!PaymentLayers}.

(** [swapAddresses] is a [std::map<std::string, CAmount>] whose amounts are
    written as products of a floating-point literal and [COIN]; the table
    is taken in the map's iteration order (ascending address), each amount
    already converted to [CAmount]. *)
Variable swapAddresses : list (string * Z).

(** The [for] loop over [swapAddresses] at height 1. *)
Definition swapOutputs : list CTxOut :=
  map (fun reward => mkTxOut reward.2 (payeeScript reward.1)) swapAddresses.

(** The outputs of [coinbaseTx] when CreateNewBlock moves it into the
    block: [nHeight] is one more than the tip's height, [subsidy] is the
    value of [GetBlockSubsidy] for the tip.  The statements in between that
    set the input script and the special-transaction payload do not touch
    the outputs and are left out; the [assert] on the tip is kept. *)
Definition coinbaseOutputs (chainActive : CChain) (fp : FortunePayment)
    (scriptPubKeyIn : CScript) (nFees nSpecialTxFees subsidy : Z)
  : outcome (list CTxOut) :=
  match chainActive with
  | [] => Aborted
  | _ =>
      let nHeight := Height chainActive + 1 in
      let normalBlockReward := nFees + subsidy in
      let blockRewardWithSpecialtx := normalBlockReward + nSpecialTxFees in
      let vout :=
        if nHeight =? 1 then swapOutputs
        else [mkTxOut blockRewardWithSpecialtx scriptPubKeyIn] in
      let vout := FillBlockPayments vout nHeight normalBlockReward nSpecialTxFees in
      do filled <- FillFortunePayment chainActive fp vout nHeight normalBlockReward;
      Ok filled.1
  end.

End CoinbaseCode.

(** *** From the composed coinbase to the returned template *)

(** The answer of [CalcCbTxMerkleRootMNList]: true, false with the reject
    reason "bad-protx-hash" on an invalid state, or false otherwise, with
    the text of [FormatStateMessage]. *)
Inductive MerkleRootResult : Type :=
| RootComputed
| RootBadProTxHash
| RootFailed (message : string).

(** What CreateNewBlock is told, for the block at hand, by the functions
    it calls after the selection: the two activation flags, the two
    merkle-root computations of the coinbase payload ([None]: success), the
    consensus rules of the final check other than the one on the remainder
    output ([true]: met), and the text of [FormatStateMessage] when the
    final check fails. *)
Class BlockChecks `{KeyIO} : Type := {
  fDIP0003Active_context : bool;
  fDIP0008Active_context : bool;
  CalcCbTxMerkleRootMNList : MerkleRootResult;
  CalcCbTxMerkleRootQuorums : option string;
  otherConsensusRules : list CTxOut -> bool;
  FormatStateMessage : list CTxOut -> string
}.

Section CreateNewBlockCode.
Context `{KeyIO} `{BlockDatabase} `{!PaymentLayers} `{!BlockChecks}.
Variable swapAddresses : list (string * Z).

(** The branch of CreateNewBlock that builds the coinbase payload: it
    throws when a merkle root cannot be computed, except for the known
    "bad-protx-hash" case. *)
Definition cbTxPayload : outcome unit :=
  if negb fDIP0003Active_context then Ok tt
  else
    do _ <- match CalcCbTxMerkleRootMNList with
            | RootComputed | RootBadProTxHash => Ok tt
            | RootFailed message =>
                Thrown ("CreateNewBlock: CalcCbTxMerkleRootMNList failed: " ++ message)
            end;
    if fDIP0008Active_context then
      match CalcCbTxMerkleRootQuorums with
      | None => Ok tt
      | Some message =>
          Thrown ("CreateNewBlock: CalcCbTxMerkleRootQuorums failed: " ++ message)
      end
    else Ok tt.

(** Modelled from the spec: [TestBlockValidity] (validation.cpp, not among
    the sources), as a function of the coinbase outputs of the block: the
    block is "re-validate[d] against full consensus rules as a safety net",
    and of the coinbase the spec says "Final remainder output (index 0) ...
    must never go negative".  The other rules are [otherConsensusRules]. *)
Definition TestBlockValidity (vout : list CTxOut) : bool :=
  match vout with
  | out0 :: _ => (0 <=? nValue out0) && otherConsensusRules vout
  | [] => otherConsensusRules vout
  end.

(** CreateNewBlock from the creation of the coinbase to its [return]: the
    coinbase outputs of the template it returns, or the exception that
    leaves it.  The header fields and the template vectors filled in on the
    way do not bear on the outputs. *)
Definition CreateNewBlock_coinbase (chainActive : CChain) (fp : FortunePayment)
    (scriptPubKeyIn : CScript) (nFees nSpecialTxFees subsidy : Z)
  : outcome (list CTxOut) :=
  match chainActive with
  | [] => Aborted
  | _ =>
      do _ <- cbTxPayload;
      do vout <- coinbaseOutputs swapAddresses chainActive fp scriptPubKeyIn
                   nFees nSpecialTxFees subsidy;
      if negb (TestBlockValidity vout)
      then Thrown ("CreateNewBlock: TestBlockValidity failed: " ++ FormatStateMessage vout)
      else Ok vout
  end.

End CreateNewBlockCode.

(** ** The mempool as the assembler reads it (txmempool.h) *)

(** [CTxMemPool::txiter]. *)
Definition txiter : Type := nat.

(** The getters of [CTxMemPoolEntry] that miner.cpp calls. *)
Record CTxMemPoolEntry : Type := mkEntry {
  GetTxSize : Z;
  GetFee : Z;
  GetModifiedFee : Z;
  GetSpecialTxFee : Z;
  GetSigOpCount : Z;
  GetCountWithAncestors : Z;
  GetSizeWithAncestors : Z;
  GetModFeesWithAncestors : Z;
  GetSigOpCountWithAncestors : Z
}.

(** [entry it] is [*it]; [mapTx_ancestor_score] lists
    [mapTx.get<ancestor_score>()] from [begin()] to [end()];
    [CalculateMemPoolAncestors] is called without limits and yields the
    in-pool ancestors of an entry; [CalculateDescendants] yields its in-pool
    descendants. *)
Record CTxMemPool : Type := mkPool {
  entry : txiter -> CTxMemPoolEntry;
  mapTx_ancestor_score : list txiter;
  CalculateMemPoolAncestors : txiter -> gset txiter;
  CalculateDescendants : txiter -> gset txiter
}.

(** Modelled from the spec: [CTxMemPoolModifiedEntry] (miner.h, not among
    the sources): "a working-copy shadow of a CandidateTransaction's
    ancestor-aggregate figures".  Its [iter] field is the key under which
    the entry is stored in [mapModifiedTx]. *)
Record CTxMemPoolModifiedEntry : Type := mkModified {
  nSizeWithAncestors : Z;
  nModFeesWithAncestors : Z;
  nSigOpCountWithAncestors : Z
}.

(** ** BlockAssembler (miner.cpp) *)

(** What stays fixed during one call of CreateNewBlock: the size limit
    computed by the constructor, [MaxBlockSigOps(fDIP0001ActiveAtTip)], the
    minimum fee rate (per byte), and the two per-transaction checks of
    TestPackageTransactions ([IsFinalTx] at the block's height and lock-time
    cutoff, [IsTxSafeForMining]). *)
Record AssemblerParams : Type := mkParams {
  nBlockMaxSize : Z;
  nMaxBlockSigOps : Z;
  blockMinFeeRate : Q;
  IsFinalTx : txiter -> bool;
  IsTxSafeForMining : txiter -> bool
}.

(** The constructor's clamp of the configured size:
    [max(1000u, min((unsigned)(MaxBlockSize(..) - 1000), (unsigned)options.nBlockMaxSize))]. *)
Definition clampBlockMaxSize (maxBlockSize optionsBlockMaxSize : Z) : Z :=
  Z.max 1000 (Z.min (wrap32 (maxBlockSize - 1000)) (wrap32 optionsBlockMaxSize)).

(** The counters of the block in progress.  [vtx] holds the mempool
    transactions appended by AddToBlock, in block order; the coinbase slot
    and the quorum commitments placed before them are not mempool entries
    and only show in [nBlockSize] and [nBlockTx]. *)
Record BlockAssembler : Type := mkAssembler {
  vtx : list txiter;
  nBlockSize : Z;
  nBlockTx : Z;
  nBlockSigOps : Z;
  nFees : Z;
  nSpecialTxFees : Z;
  inBlock : gset txiter
}.

(** [resetBlock]. *)
Definition resetBlock : BlockAssembler :=
  {| vtx := []; nBlockSize := 1000; nBlockTx := 0; nBlockSigOps := 100;
     nFees := 0; nSpecialTxFees := 0; inBlock := ∅ |}.

(** The quorum commitments CreateNewBlock places right after the coinbase
    slot: each adds its size and counts as a transaction. *)
Definition addCommitment (a : BlockAssembler) (qcSize : Z) : BlockAssembler :=
  {| vtx := vtx a;
     nBlockSize := wrap64 (nBlockSize a + qcSize);
     nBlockTx := wrap64 (nBlockTx a + 1);
     nBlockSigOps := nBlockSigOps a;
     nFees := nFees a; nSpecialTxFees := nSpecialTxFees a;
     inBlock := inBlock a |}.

(** Modelled from the spec: [CFeeRate::GetFee] (policy/feerate.cpp, not
    among the sources): "minRelayFeeRate × packageSize". *)
Definition FeeRate_GetFee (rate : Q) (size : Z) : Q := (rate * inject_Z size)%Q.

(** Modelled from the spec: the ancestor fee-rate, "fee of a transaction
    plus all its unconfirmed dependencies, divided by their combined size". *)
Definition ancestorFeeRate (e : CTxMemPoolModifiedEntry) : Q :=
  (inject_Z (nModFeesWithAncestors e) / inject_Z (nSizeWithAncestors e))%Q.

(** Modelled from the spec: [CompareTxMemPoolEntryByAncestorFee]
    (txmempool.h, not among the sources); [a] sorts before [b] when its
    ancestor fee-rate is strictly higher. *)
Definition CompareTxMemPoolEntryByAncestorFee (a b : CTxMemPoolModifiedEntry) : bool :=
  negb (Qle_bool (ancestorFeeRate a) (ancestorFeeRate b)).

(** Modelled from the spec: [update_for_parent_inclusion] (miner.h, not
    among the sources): "subtract the committed transaction's isolated
    figures from the existing entry"; the three [-=] that
    UpdatePackagesForAdded applies to a new entry are the same subtraction.
    addPackageTxs reads the size back as [uint64_t] and the sigop count as
    [unsigned int], so these two differences wrap around below zero; the
    fees are a [CAmount], which is signed. *)
Definition update_for_parent_inclusion (parent : CTxMemPoolEntry)
    (e : CTxMemPoolModifiedEntry) : CTxMemPoolModifiedEntry :=
  {| nSizeWithAncestors := wrap64 (nSizeWithAncestors e - GetTxSize parent);
     nModFeesWithAncestors := nModFeesWithAncestors e - GetModifiedFee parent;
     nSigOpCountWithAncestors :=
       wrap32 (nSigOpCountWithAncestors e - GetSigOpCount parent) |}.

(** [mapModifiedTx.get<ancestor_score>().begin()]: an entry no other entry
    sorts before; among equals the first met is kept. *)
Definition betterOf (best : option (txiter * CTxMemPoolModifiedEntry))
    (cand : txiter * CTxMemPoolModifiedEntry) : option (txiter * CTxMemPoolModifiedEntry) :=
  match best with
  | None => Some cand
  | Some b => if CompareTxMemPoolEntryByAncestorFee cand.2 b.2 then Some cand else Some b
  end.

Definition bestModified (mapModifiedTx : gmap txiter CTxMemPoolModifiedEntry)
  : option (txiter * CTxMemPoolModifiedEntry) :=
  foldl betterOf None (map_to_list mapModifiedTx).

Section AssemblerCode.
Variable pool : CTxMemPool.
Variable params : AssemblerParams.

(** The constructor [CTxMemPoolModifiedEntry(txiter)]. *)
Definition ModifiedEntryOf (it : txiter) : CTxMemPoolModifiedEntry :=
  {| nSizeWithAncestors := GetSizeWithAncestors (entry pool it);
     nModFeesWithAncestors := GetModFeesWithAncestors (entry pool it);
     nSigOpCountWithAncestors := GetSigOpCountWithAncestors (entry pool it) |}.

Definition onlyUnconfirmed (a : BlockAssembler) (testSet : gset txiter) : gset txiter :=
  testSet ∖ inBlock a.

Definition TestPackage (a : BlockAssembler) (packageSize packageSigOps : Z) : bool :=
  if nBlockMaxSize params <=? wrap64 (nBlockSize a + packageSize) then false
  else if nMaxBlockSigOps params <=? wrap32 (nBlockSigOps a + packageSigOps) then false
  else true.

Definition TestPackageTransactions (package : gset txiter) : bool :=
  forallb (fun it => IsFinalTx params it && IsTxSafeForMining params it)
          (elements package).

(** The per-transaction vectors of the template ([vTxFees],
    [vSpecialTxFees], [vTxSigOps]) grow with [vtx] and are not modelled. *)
Definition AddToBlock (a : BlockAssembler) (it : txiter) : BlockAssembler :=
  {| vtx := vtx a ++ [it];
     nBlockSize := wrap64 (nBlockSize a + GetTxSize (entry pool it));
     nBlockTx := wrap64 (nBlockTx a + 1);
     nBlockSigOps := wrap32 (nBlockSigOps a + GetSigOpCount (entry pool it));
     nFees := nFees a + GetFee (entry pool it);
     nSpecialTxFees := nSpecialTxFees a + GetSpecialTxFee (entry pool it);
     inBlock := {[ it ]} ∪ inBlock a |}.

(** The body of the inner loop of UpdatePackagesForAdded for one added
    transaction [it] and one of its descendants [desc]. *)
Definition adjustDescendant (alreadyAdded : gset txiter) (it : txiter)
    (acc : Z * gmap txiter CTxMemPoolModifiedEntry) (desc : txiter)
  : Z * gmap txiter CTxMemPoolModifiedEntry :=
  if decide (desc ∈ alreadyAdded) then acc
  else
    (acc.1 + 1,
     match acc.2 !! desc with
     | None =>
         <[desc := update_for_parent_inclusion (entry pool it) (ModifiedEntryOf desc)]> acc.2
     | Some e =>
         <[desc := update_for_parent_inclusion (entry pool it) e]> acc.2
     end).

(** The two nested loops; the first component is [nDescendantsUpdated]. *)
Definition UpdatePackagesForAdded (alreadyAdded : gset txiter)
    (mapModifiedTx : gmap txiter CTxMemPoolModifiedEntry)
  : Z * gmap txiter CTxMemPoolModifiedEntry :=
  foldl (fun acc it =>
           foldl (adjustDescendant alreadyAdded it) acc
                 (elements (CalculateDescendants pool it)))
        (0, mapModifiedTx) (elements alreadyAdded).

Definition SkipMapTxEntry (a : BlockAssembler) (it : txiter)
    (mapModifiedTx : gmap txiter CTxMemPoolModifiedEntry) (failedTx : gset txiter) : bool :=
  bool_decide (is_Some (mapModifiedTx !! it))
  || bool_decide (it ∈ inBlock a) || bool_decide (it ∈ failedTx).

(** Modelled from the spec: [CompareTxIterByAncestorCount] (miner.h, not
    among the sources): "by ascending ancestor-count". *)
Definition byAncestorCount (a b : txiter) : Prop :=
  GetCountWithAncestors (entry pool a) <= GetCountWithAncestors (entry pool b).

#[global] Instance byAncestorCount_dec : RelDecision byAncestorCount :=
  fun a b => decide (GetCountWithAncestors (entry pool a)
                     <= GetCountWithAncestors (entry pool b)).

Definition SortForBlock (package : gset txiter) : list txiter :=
  merge_sort byAncestorCount (elements package).

(** *** addPackageTxs *)

(** The variables of addPackageTxs that live across iterations.  [mi] is
    the part of [mapTx.get<ancestor_score>()] from the iterator to the end.
    [lastAccepted] is not in the source: it remembers the fees and size of
    the last package committed, for the statements about fee rates. *)
Record LoopState : Type := mkLoop {
  assembler : BlockAssembler;
  mi : list txiter;
  mapModifiedTx : gmap txiter CTxMemPoolModifiedEntry;
  failedTx : gset txiter;
  nConsecutiveFailed : Z;
  nPackagesSelected : Z;
  nDescendantsUpdated : Z;
  lastAccepted : option (Z * Z)
}.

(** The package chosen in one iteration: the entry, whether it comes from
    [mapModifiedTx], the figures to test, and the iterator afterwards. *)
Record Candidate : Type := mkCandidate {
  iter : txiter;
  fUsingModified : bool;
  packageSize : Z;
  packageFees : Z;
  packageSigOps : Z;
  miNext : list txiter
}.

(** How the loop is left: its condition is false, the [return] of the
    fee-rate test (with the candidate that failed it), or the [break] when
    close to full. *)
Inductive LoopExit : Type :=
| LoopConditionFalse
| FeeRateCutoff (c : Candidate)
| CloseToFull.

Inductive StepResult : Type :=
| Continue (s : LoopState)
| Leave (why : LoopExit) (s : LoopState)
| AssertionFailed
| UndefinedBehaviour.

Definition candidateFromModified (modit : txiter * CTxMemPoolModifiedEntry)
    (miNext : list txiter) : Candidate :=
  {| iter := modit.1; fUsingModified := true;
     packageSize := nSizeWithAncestors modit.2;
     packageFees := nModFeesWithAncestors modit.2;
     packageSigOps := nSigOpCountWithAncestors modit.2;
     miNext := miNext |}.

Definition candidateFromMapTx (it : txiter) (miNext : list txiter) : Candidate :=
  {| iter := it; fUsingModified := false;
     packageSize := GetSizeWithAncestors (entry pool it);
     packageFees := GetModFeesWithAncestors (entry pool it);
     packageSigOps := GetSigOpCountWithAncestors (entry pool it);
     miNext := miNext |}.

(** "Determine which transaction to evaluate: the next entry from mapTx, or
    the best from mapModifiedTx".  [None] stands for dereferencing
    [mapModifiedTx.end()]. *)
Definition selectCandidate (s : LoopState) : option Candidate :=
  let modit := bestModified (mapModifiedTx s) in
  match mi s with
  | [] =>
      match modit with
      | Some m => Some (candidateFromModified m [])
      | None => None
      end
  | it :: rest =>
      match modit with
      | Some m =>
          if CompareTxMemPoolEntryByAncestorFee m.2 (ModifiedEntryOf it)
          then Some (candidateFromModified m (mi s))
          else Some (candidateFromMapTx it rest)
      | None => Some (candidateFromMapTx it rest)
      end
  end.

(** [packageFees < blockMinFeeRate.GetFee(packageSize)]. *)
Definition belowMinFeeRate (c : Candidate) : bool :=
  negb (Qle_bool (FeeRate_GetFee (blockMinFeeRate params) (packageSize c))
                 (inject_Z (packageFees c))).

(** The bookkeeping shared by the two rejections: a candidate taken from
    [mapModifiedTx] is erased there and remembered in [failedTx]. *)
Definition dropFailed (c : Candidate) (s : LoopState) : LoopState :=
  {| assembler := assembler s;
     mi := miNext c;
     mapModifiedTx := if fUsingModified c then delete (iter c) (mapModifiedTx s)
                      else mapModifiedTx s;
     failedTx := if fUsingModified c then {[ iter c ]} ∪ failedTx s else failedTx s;
     nConsecutiveFailed := nConsecutiveFailed s;
     nPackagesSelected := nPackagesSelected s;
     nDescendantsUpdated := nDescendantsUpdated s;
     lastAccepted := lastAccepted s |}.

Definition bumpConsecutiveFailed (s : LoopState) : LoopState :=
  {| assembler := assembler s; mi := mi s; mapModifiedTx := mapModifiedTx s;
     failedTx := failedTx s;
     nConsecutiveFailed := nConsecutiveFailed s + 1;
     nPackagesSelected := nPackagesSelected s;
     nDescendantsUpdated := nDescendantsUpdated s;
     lastAccepted := lastAccepted s |}.

(** One pass of the [for] loop over [sortedEntries]. *)
Definition commitEntry (acc : BlockAssembler * gmap txiter CTxMemPoolModifiedEntry)
    (it : txiter) : BlockAssembler * gmap txiter CTxMemPoolModifiedEntry :=
  (AddToBlock acc.1 it, delete it acc.2).

(** The ancestors of the candidate not yet in the block, and itself. *)
Definition packageOf (a : BlockAssembler) (it : txiter) : gset txiter :=
  {[ it ]} ∪ onlyUnconfirmed a (CalculateMemPoolAncestors pool it).

Definition commitPackage (c : Candidate) (ancestors : gset txiter) (s : LoopState)
  : LoopState :=
  let sortedEntries := SortForBlock ancestors in
  let committed := foldl commitEntry (assembler s, mapModifiedTx s) sortedEntries in
  let updated := UpdatePackagesForAdded ancestors committed.2 in
  {| assembler := committed.1;
     mi := miNext c;
     mapModifiedTx := updated.2;
     failedTx := failedTx s;
     nConsecutiveFailed := 0;
     nPackagesSelected := nPackagesSelected s + 1;
     nDescendantsUpdated := nDescendantsUpdated s + updated.1;
     lastAccepted := Some (packageFees c, packageSize c) |}.

(** [++mi], or the iterator left where it is. *)
Definition advance (s : LoopState) (rest : list txiter) : LoopState :=
  {| assembler := assembler s; mi := rest; mapModifiedTx := mapModifiedTx s;
     failedTx := failedTx s; nConsecutiveFailed := nConsecutiveFailed s;
     nPackagesSelected := nPackagesSelected s;
     nDescendantsUpdated := nDescendantsUpdated s;
     lastAccepted := lastAccepted s |}.

(** The loop body from the choice of the candidate on. *)
Definition evaluateCandidate (c : Candidate) (s : LoopState) : StepResult :=
  if bool_decide (iter c ∈ inBlock (assembler s)) then AssertionFailed
  else if belowMinFeeRate c then Leave (FeeRateCutoff c) (advance s (miNext c))
  else if negb (TestPackage (assembler s) (packageSize c) (packageSigOps c)) then
    let s' := bumpConsecutiveFailed (dropFailed c s) in
    if (1000 <? nConsecutiveFailed s')
       && (wrap32 (nBlockMaxSize params - 1000) <? nBlockSize (assembler s'))
    then Leave CloseToFull s'
    else Continue s'
  else
    let ancestors := packageOf (assembler s) (iter c) in
    if negb (TestPackageTransactions ancestors) then Continue (dropFailed c s)
    else Continue (commitPackage c ancestors s).

(** One evaluation of the [while] condition followed by one loop body. *)
Definition step (s : LoopState) : StepResult :=
  match mi s with
  | [] =>
      if bool_decide (mapModifiedTx s = ∅) then Leave LoopConditionFalse s
      else match selectCandidate s with
           | Some c => evaluateCandidate c s
           | None => UndefinedBehaviour
           end
  | it :: rest =>
      if SkipMapTxEntry (assembler s) it (mapModifiedTx s) (failedTx s)
      then Continue (advance s rest)
      else match selectCandidate s with
           | Some c => evaluateCandidate c s
           | None => UndefinedBehaviour
           end
  end.

Inductive RunResult : Type :=
| Finished (why : LoopExit) (s : LoopState)
| StillRunning (s : LoopState)
| RunAborted
| RunUndefined.

(** At most [fuel] iterations of the loop. *)
Fixpoint loop (fuel : nat) (s : LoopState) : RunResult :=
  match fuel with
  | O => StillRunning s
  | S fuel' =>
      match step s with
      | Continue s' => loop fuel' s'
      | Leave why s' => Finished why s'
      | AssertionFailed => RunAborted
      | UndefinedBehaviour => RunUndefined
      end
  end.

(** The state on entry to the loop: [mapModifiedTx] is seeded with the
    descendants of what is already in the block (the count returned by that
    first call is dropped), the iterator is at [begin()]. *)
Definition loopEntry (a : BlockAssembler) : LoopState :=
  {| assembler := a;
     mi := mapTx_ancestor_score pool;
     mapModifiedTx := (UpdatePackagesForAdded (inBlock a) ∅).2;
     failedTx := ∅;
     nConsecutiveFailed := 0;
     nPackagesSelected := 0;
     nDescendantsUpdated := 0;
     lastAccepted := None |}.

Definition addPackageTxs (fuel : nat) (a : BlockAssembler) : RunResult :=
  loop fuel (loopEntry a).

(** The part of CreateNewBlock up to and including addPackageTxs:
    resetBlock, the quorum commitments (their sizes), the selection. *)
Definition assembleBody (fuel : nat) (qcSizes : list Z) : RunResult :=
  addPackageTxs fuel (foldl addCommitment resetBlock qcSizes).

End AssemblerCode.

(** ** What the assembler assumes of the mempool *)

Definition sumOver (f : txiter -> Z) (s : gset txiter) : Z :=
  foldr (fun x acc => f x + acc) 0 (elements s).

Definition txSize (pool : CTxMemPool) (x : txiter) : Z := GetTxSize (entry pool x).
Definition txSigOps (pool : CTxMemPool) (x : txiter) : Z := GetSigOpCount (entry pool x).

(** The mempool keeps, for every entry, the aggregates over the entry and
    its in-pool ancestors; ancestors and descendants are the two directions
    of one dependency order. *)
Record mempool_consistent (pool : CTxMemPool) : Prop := {
  ancestors_irreflexive :
    forall x, x ∉ CalculateMemPoolAncestors pool x;
  ancestors_transitive :
    forall a b, a ∈ CalculateMemPoolAncestors pool b ->
      CalculateMemPoolAncestors pool a ⊆ CalculateMemPoolAncestors pool b;
  descendants_ancestors :
    forall c d, c <> d ->
      (d ∈ CalculateDescendants pool c <-> c ∈ CalculateMemPoolAncestors pool d);
  count_with_ancestors :
    forall x, GetCountWithAncestors (entry pool x)
              = Z.of_nat (size (CalculateMemPoolAncestors pool x)) + 1;
  size_with_ancestors :
    forall x, GetSizeWithAncestors (entry pool x)
              = txSize pool x + sumOver (txSize pool) (CalculateMemPoolAncestors pool x);
  sigops_with_ancestors :
    forall x, GetSigOpCountWithAncestors (entry pool x)
              = txSigOps pool x + sumOver (txSigOps pool) (CalculateMemPoolAncestors pool x);
  tx_size_positive : forall x, 0 < txSize pool x;
  tx_sigops_nonneg : forall x, 0 <= txSigOps pool x;
  size_bounded : forall x, GetSizeWithAncestors (entry pool x) < 2 ^ 63;
  sigops_bounded : forall x, GetSigOpCountWithAncestors (entry pool x) < 2 ^ 31
}.

(** [nBlockMaxSize] and the value of [MaxBlockSigOps] are [unsigned int]. *)
Record params_in_range (params : AssemblerParams) : Prop := {
  max_size_range : 0 <= nBlockMaxSize params <= 2 ^ 32;
  max_sigops_range : 0 <= nMaxBlockSigOps params <= 2 ^ 31
}.

(** [mapTx.get<ancestor_score>()] runs from the highest ancestor fee-rate to
    the lowest. *)
Definition sorted_by_ancestor_score (pool : CTxMemPool) : Prop :=
  StronglySorted
    (fun a b => (ancestorFeeRate (ModifiedEntryOf pool b)
                 <= ancestorFeeRate (ModifiedEntryOf pool a))%Q)
    (mapTx_ancestor_score pool).

(** The states the loop passes through, the one it is left in included. *)
Inductive visits (pool : CTxMemPool) (params : AssemblerParams) (s0 : LoopState)
  : LoopState -> Prop :=
| visits_entry : visits pool params s0 s0
| visits_continue s s' :
    visits pool params s0 s -> step pool params s = Continue s' ->
    visits pool params s0 s'
| visits_leave s why s' :
    visits pool params s0 s -> step pool params s = Leave why s' ->
    visits pool params s0 s'.

(** No transaction of the list stands before one of its ancestors: an
    ancestor that is in the list has the smaller position. *)
Definition ancestors_first (pool : CTxMemPool) (l : list txiter) : Prop :=
  forall (i j : nat) (x y : txiter),
    l !! i = Some x -> l !! j = Some y ->
    y ∈ CalculateMemPoolAncestors pool x -> (j < i)%nat.

(** The transactions UpdatePackagesForAdded subtracts from the entry of
    [desc]: the members of [alreadyAdded] that have it as a descendant. *)
Definition addedAncestors (pool : CTxMemPool) (alreadyAdded : gset txiter)
    (desc : txiter) : list txiter :=
  filter (fun it => desc ∈ CalculateDescendants pool it) (elements alreadyAdded).

Definition subtractAll (pool : CTxMemPool) (parents : list txiter)
    (e : CTxMemPoolModifiedEntry) : CTxMemPoolModifiedEntry :=
  foldl (fun e it => update_for_parent_inclusion (entry pool it) e) e parents.

Definition listSum (f : txiter -> Z) (l : list txiter) : Z :=
  foldr (fun x acc => f x + acc) 0 l.

(** The descendants of [it] that UpdatePackagesForAdded adjusts. *)
Definition touches (pool : CTxMemPool) (alreadyAdded : gset txiter) (it : txiter) : Z :=
  Z.of_nat (length (filter (fun d => d ∉ alreadyAdded)
                           (elements (CalculateDescendants pool it)))).

(** The entry of [desc] after UpdatePackagesForAdded, from the map before. *)
Definition adjustedEntry (pool : CTxMemPool) (alreadyAdded : gset txiter)
    (m : gmap txiter CTxMemPoolModifiedEntry) (desc : txiter)
  : option CTxMemPoolModifiedEntry :=
  if decide (desc ∈ alreadyAdded) then m !! desc
  else
    let parents := addedAncestors pool alreadyAdded desc in
    if decide (parents = []) then m !! desc
    else Some (subtractAll pool parents (default (ModifiedEntryOf pool desc) (m !! desc))).

(** ** What holds between two iterations of the selection loop *)

Record selection_invariant (pool : CTxMemPool) (params : AssemblerParams)
    (s : LoopState) : Prop := {
  (* the block holds every in-pool ancestor of what it holds *)
  inv_closed :
    forall x, x ∈ inBlock (assembler s) ->
      CalculateMemPoolAncestors pool x ⊆ inBlock (assembler s);
  (* nothing in the block has an entry in mapModifiedTx *)
  inv_disjoint :
    forall x, x ∈ inBlock (assembler s) -> mapModifiedTx s !! x = None;
  inv_vtx_nodup : NoDup (vtx (assembler s));
  inv_vtx_inBlock :
    forall x, x ∈ vtx (assembler s) <-> x ∈ inBlock (assembler s);
  inv_order : ancestors_first pool (vtx (assembler s));
  (* a modified entry covers at least what is left of its package *)
  inv_modified :
    forall d e, mapModifiedTx s !! d = Some e ->
      sumOver (txSize pool) (packageOf pool (assembler s) d) <= nSizeWithAncestors e
      /\ nSizeWithAncestors e <= GetSizeWithAncestors (entry pool d)
      /\ sumOver (txSigOps pool) (packageOf pool (assembler s) d)
         <= nSigOpCountWithAncestors e
      /\ nSigOpCountWithAncestors e <= GetSigOpCountWithAncestors (entry pool d);
  inv_mi : exists passed, mapTx_ancestor_score pool = passed ++ mi s;
  inv_last :
    forall fees size, lastAccepted s = Some (fees, size) ->
      0 < size /\ (FeeRate_GetFee (blockMinFeeRate params) size <= inject_Z fees)%Q
}.

Record within_capacity (params : AssemblerParams) (a : BlockAssembler) : Prop := {
  cap_size : 0 <= nBlockSize a < nBlockMaxSize params;
  cap_sigops : 0 <= nBlockSigOps a < nMaxBlockSigOps params
}.

(** What the loop relies on for the candidate of an iteration: it is not
    in the block, and the figures tested cover what would go in. *)
Record candidate_fits (pool : CTxMemPool) (s : LoopState) (c : Candidate) : Prop := {
  fits_fresh : iter c ∉ inBlock (assembler s);
  fits_size :
    sumOver (txSize pool) (packageOf pool (assembler s) (iter c)) <= packageSize c
    /\ packageSize c <= GetSizeWithAncestors (entry pool (iter c));
  fits_sigops :
    sumOver (txSigOps pool) (packageOf pool (assembler s) (iter c)) <= packageSigOps c
    /\ packageSigOps c <= GetSigOpCountWithAncestors (entry pool (iter c));
  fits_next : miNext c = mi s \/ exists it, mi s = it :: miNext c
}.

(** Fee per byte of a package, from its fees and size. *)
Definition feeRate (fees size : Z) : Q := (inject_Z fees / inject_Z size)%Q.

Definition candidateRate (c : Candidate) : Q := feeRate (packageFees c) (packageSize c).

(** ** Termination of the selection loop *)

(** The entries of the pool. *)
Definition poolHandles (pool : CTxMemPool) : gset txiter :=
  list_to_set (mapTx_ancestor_score pool).

(** The relatives of a pool entry are pool entries. *)
Record mempool_closed (pool : CTxMemPool) : Prop := {
  ancestors_in_pool :
    forall x, x ∈ poolHandles pool -> CalculateMemPoolAncestors pool x ⊆ poolHandles pool;
  descendants_in_pool :
    forall x, x ∈ poolHandles pool -> CalculateDescendants pool x ⊆ poolHandles pool
}.

Definition tracked_in_pool (pool : CTxMemPool) (s : LoopState) : Prop :=
  forall k, is_Some (mapModifiedTx s !! k) -> k ∈ poolHandles pool.

(** A bound on the iterations still to come: every iteration moves the
    iterator, puts a pool entry into the block, or erases a modified entry;
    a commit may bring back as many modified entries as the pool has
    entries. *)
Definition iterationsLeft (pool : CTxMemPool) (s : LoopState) : nat :=
  (S (size (poolHandles pool))
   * (length (mi s) + size (poolHandles pool ∖ inBlock (assembler s)))
   + size (mapModifiedTx s))%nat.

(** ** Sample environments, for the examples further down *)

(** Addresses are valid when non-empty; the script of an address is the
    address. *)
Definition sampleKeyIO : KeyIO :=
  {| CScript := string;
     CTxDestination := option string;
     DecodeDestination := fun a => if decide (a = EmptyString) then None else Some a;
     IsValidDestination := fun d => bool_decide (is_Some d);
     GetScriptForDestination := fun d => default EmptyString d |}.

(** The miners of the first blocks. *)
Definition sampleBlockDatabase : BlockDatabase :=
  {| GetBlockCoinbaseMinerAddress :=
       fun h => if h =? 0 then "Fminer0"%string
                else if h =? 1 then "Fminer1"%string
                else "Fminer2"%string |}.

(** No service provider is paid: the outputs are left as they are. *)
Definition noProviderPayments : @PaymentLayers sampleKeyIO :=
  {| FillBlockPayments := fun vout _ _ _ => vout |}.


(** Every check of the block passes. *)
Definition allChecksPass : @BlockChecks sampleKeyIO :=
  {| fDIP0003Active_context := true;
     fDIP0008Active_context := true;
     CalcCbTxMerkleRootMNList := RootComputed;
     CalcCbTxMerkleRootQuorums := None;
     otherConsensusRules := fun _ => true;
     FormatStateMessage := fun _ => "bad-txns-vout-negative"%string |}.

(** Four blocks, heights 0 to 3. *)
Definition sampleChain : CChain :=
  [mkIndex 0 11; mkIndex 1 (2 ^ 64 + 7); mkIndex 2 (5 + 2 ^ 65 + 2 ^ 128); mkIndex 3 (2 ^ 200 + 10)].

(** The schedule of chainparams.cpp: five percent for ever, from block 0. *)
Definition mainnetFortune : FortunePayment :=
  mkFortune DEFAULT_FORTUNE_ADDRESS 0 [mkReward INT_MAX 5].

(** A schedule that pays out more than the whole reward. *)
Definition overpayingFortune : FortunePayment :=
  mkFortune DEFAULT_FORTUNE_ADDRESS 0 [mkReward INT_MAX 150].

Definition sampleSwapTable : list (string * Z) :=
  [("Fa"%string, 700); ("Fb"%string, 300)].

(** A parent (handle 0) with two children (1 and 2) and an unrelated
    transaction (3); every other handle stands for a one-byte transaction
    without relatives. *)
Definition samplePool : CTxMemPool :=
  {| entry := fun it =>
       match it with
       | 0%nat => mkEntry 100 1 1 0 1 1 100 1 1
       | 1%nat => mkEntry 100 1000 1000 0 2 2 200 1001 3
       | 2%nat => mkEntry 100 900 900 0 1 2 200 901 2
       | 3%nat => mkEntry 100 10 10 0 1 1 100 10 1
       | _ => mkEntry 1 0 0 0 0 1 1 0 0
       end;
     mapTx_ancestor_score := [1%nat; 2%nat; 3%nat; 0%nat];
     CalculateMemPoolAncestors := fun it =>
       match it with
       | 1%nat | 2%nat => {[ 0%nat ]}
       | _ => ∅
       end;
     CalculateDescendants := fun it =>
       match it with
       | 0%nat => {[ 0%nat; 1%nat; 2%nat ]}
       | _ => {[ it ]}
       end |}.

(** One byte costs at least one unit of fee; every transaction is final
    and safe. *)
Definition sampleParams : AssemblerParams :=
  {| nBlockMaxSize := 100000; nMaxBlockSigOps := 2000; blockMinFeeRate := 1%Q;
     IsFinalTx := fun _ => true; IsTxSafeForMining := fun _ => true |}.

(** Three unrelated transactions: a large one paying 10 per byte (0), a
    small one paying 5 per byte (1), a small one paying nothing (2). *)
Definition crowdedPool : CTxMemPool :=
  {| entry := fun it =>
       match it with
       | 0%nat => mkEntry 5000 50000 50000 0 1 1 5000 50000 1
       | 1%nat => mkEntry 100 500 500 0 1 1 100 500 1
       | 2%nat => mkEntry 100 0 0 0 1 1 100 0 1
       | _ => mkEntry 1 0 0 0 0 1 1 0 0
       end;
     mapTx_ancestor_score := [0%nat; 1%nat; 2%nat];
     CalculateMemPoolAncestors := fun _ => ∅;
     CalculateDescendants := fun it => {[ it ]} |}.

Definition smallBlockParams : AssemblerParams :=
  {| nBlockMaxSize := 2000; nMaxBlockSigOps := 2000; blockMinFeeRate := 1%Q;
     IsFinalTx := fun _ => true; IsTxSafeForMining := fun _ => true |}.

Definition emptyPool : CTxMemPool :=
  {| entry := fun _ => mkEntry 1 0 0 0 0 1 1 0 0;
     mapTx_ancestor_score := [];
     CalculateMemPoolAncestors := fun _ => ∅;
     CalculateDescendants := fun it => {[ it ]} |}.

(** The assembler built with [-blockmaxsize=500] on a chain whose
    [MaxBlockSize] is 2000000. *)
Definition tinyBlockParams : AssemblerParams :=
  {| nBlockMaxSize := clampBlockMaxSize 2000000 500; nMaxBlockSigOps := 40000;
     blockMinFeeRate := 1%Q;
     IsFinalTx := fun _ => true; IsTxSafeForMining := fun _ => true |}.

(** The block in progress when addPackageTxs is called. *)
Definition blockAtEntry (qcSizes : list Z) : BlockAssembler :=
  foldl addCommitment resetBlock qcSizes.

(** The state in which the selection over [samplePool] ends. *)
Definition sampleRunEnd : LoopState :=
  match assembleBody samplePool sampleParams 10 [] with
  | Finished _ s | StillRunning s => s
  | _ => loopEntry samplePool resetBlock
  end.

(** A state in which the entry at the iterator (3, ten units for a hundred
    bytes) and the only modified entry (2, a hundred units for a thousand
    bytes) have the same ancestor fee-rate. *)
Definition tieState : LoopState :=
  {| assembler := resetBlock;
     mi := [3%nat];
     mapModifiedTx := {[ 2%nat := mkModified 1000 100 1 ]};
     failedTx := ∅;
     nConsecutiveFailed := 0; nPackagesSelected := 0; nDescendantsUpdated := 0;
     lastAccepted := None |}.

(** ** Well-formed chains *)

(** In the active chain the index stored at position [i] has height [i]. *)
Definition chain_heights_stored (c : CChain) : Prop :=
  forall (i : nat) (idx : CBlockIndex), c !! i = Some idx -> nHeight idx = Z.of_nat i.

(** An entry of the reward schedule applies to a height: its bound is the
    sentinel or is not below the height. *)
Definition rewardApplies (height : Z) (rs : FortuneRewardStructure) : Prop :=
  blockHeight rs = INT_MAX \/ height <= blockHeight rs.

(** ** Further code of miner.cpp *)

(** The fields of the block header that the miner writes. *)
Record CBlockHeader : Type := mkHeader {
  hashPrevBlock : Z;
  nTime : Z;
  nBits : Z;
  nNonce : Z
}.

(** [UpdateTime]: the header afterwards and the value returned.
    [medianTimePast] is [pindexPrev->GetMedianTimePast()], [adjustedTime]
    is [GetAdjustedTime()], [GetNextWorkRequired] is that function for the
    previous index and the consensus parameters at hand; [nTime] is a
    [uint32_t]. *)
Definition UpdateTime (GetNextWorkRequired : CBlockHeader -> Z)
    (fPowAllowMinDifficultyBlocks : bool) (medianTimePast adjustedTime : Z)
    (pblock : CBlockHeader) : CBlockHeader * Z :=
  let nOldTime := nTime pblock in
  let nNewTime := Z.max (medianTimePast + 1) adjustedTime in
  let pblock :=
    if nOldTime <? nNewTime
    then {| hashPrevBlock := hashPrevBlock pblock; nTime := wrap32 nNewTime;
            nBits := nBits pblock; nNonce := nNonce pblock |}
    else pblock in
  let pblock :=
    if fPowAllowMinDifficultyBlocks
    then {| hashPrevBlock := hashPrevBlock pblock; nTime := nTime pblock;
            nBits := GetNextWorkRequired pblock; nNonce := nNonce pblock |}
    else pblock in
  (pblock, nNewTime - nOldTime).

(** [IncrementExtraNonce]: the function-static [hashPrevBlock] and the
    counter [nExtraNonce] afterwards.  [scriptSigSize nHeight nExtraNonce]
    is the size of the coinbase input script built from the two numbers and
    [COINBASE_FLAGS]; [prevHeight] is [pindexPrev->nHeight], an [int]
    whose increment overflows at [INT_MAX].  The new coinbase and merkle
    root of the block depend on the serialization and are not modelled. *)
Record ExtraNonceState : Type := mkExtraNonce {
  staticHashPrevBlock : Z;
  nExtraNonce : Z
}.

Definition IncrementExtraNonce (scriptSigSize : Z -> Z -> Z) (pblock : CBlockHeader)
    (prevHeight : Z) (st : ExtraNonceState) : outcome ExtraNonceState :=
  let st :=
    if negb (staticHashPrevBlock st =? hashPrevBlock pblock)
    then {| staticHashPrevBlock := hashPrevBlock pblock; nExtraNonce := 0 |}
    else st in
  let st := {| staticHashPrevBlock := staticHashPrevBlock st;
               nExtraNonce := wrap32 (nExtraNonce st + 1) |} in
  if INT_MAX <=? prevHeight then Undefined
  else
    let nHeight := wrap32 (prevHeight + 1) in
    if 100 <? scriptSigSize nHeight (nExtraNonce st) then Aborted else Ok st.

(** [calls] successive calls of IncrementExtraNonce for the same block. *)
Fixpoint IncrementExtraNonceTimes (scriptSigSize : Z -> Z -> Z) (pblock : CBlockHeader)
    (prevHeight : Z) (calls : nat) (st : ExtraNonceState) : outcome ExtraNonceState :=
  match calls with
  | O => Ok st
  | S calls' =>
      do st' <- IncrementExtraNonce scriptSigSize pblock prevHeight st;
      IncrementExtraNonceTimes scriptSigSize pblock prevHeight calls' st'
  end.

(** The inner [while (true)] of FortuneblockMiner, for a block whose hash
    is [powHash nNonce] as only the nonce changes: the nonce and the global
    [nHashesDone] when the loop is left, by a solution or at a nonce whose
    low byte is zero.  Logging, the hash-rate estimate and the hand-over of
    a found block are left out. *)
Inductive RoundResult : Type :=
| SolutionFound (nNonce nHashesDone : Z)
| RoundOver (nNonce nHashesDone : Z)
| RoundUnfinished.

Fixpoint searchRound (fuel : nat) (powHash : Z -> Z) (hashTarget : Z)
    (nNonce nHashesDone : Z) : RoundResult :=
  match fuel with
  | O => RoundUnfinished
  | S fuel' =>
      if powHash nNonce <=? hashTarget then SolutionFound nNonce nHashesDone
      else
        let nNonce := wrap32 (nNonce + 1) in
        let nHashesDone := wrap64 (nHashesDone + 1) in
        if Z.land nNonce 255 =? 0 then RoundOver nNonce nHashesDone
        else searchRound fuel' powHash hashTarget nNonce nHashesDone
  end.

(** The nonce at which a round starting at [nNonce] ends at the latest. *)
Definition roundEnd (nNonce : Z) : Z := (nNonce / 256 + 1) * 256.

(** The per-transaction vectors of the block template. *)
Record CBlockTemplate : Type := mkTemplate {
  vTxFees : list Z;
  vSpecialTxFees : list Z;
  vTxSigOps : list Z
}.

(** The template after the dummy coinbase and the quorum commitments. *)
Definition templateAtEntry (qcSizes : list Z) : CBlockTemplate :=
  {| vTxFees := [-1] ++ map (fun _ => 0) qcSizes;
     vSpecialTxFees := [-1] ++ map (fun _ => 0) qcSizes;
     vTxSigOps := [-1] ++ map (fun _ => 0) qcSizes |}.

(** The three [push_back] of AddToBlock on the vectors of the template,
    beside the counters that [AddToBlock] above updates. *)
Definition AddToBlock_template (pool : CTxMemPool) (t : CBlockTemplate) (it : txiter)
  : CBlockTemplate :=
  {| vTxFees := vTxFees t ++ [GetFee (entry pool it)];
     vSpecialTxFees := vSpecialTxFees t ++ [GetSpecialTxFee (entry pool it)];
     vTxSigOps := vTxSigOps t ++ [GetSigOpCount (entry pool it)] |}.

(** AddToBlock as a whole: the counters of the assembler and the vectors
    of the template. *)
Definition AddToBlock_with_template (pool : CTxMemPool)
    (st : BlockAssembler * CBlockTemplate) (it : txiter) : BlockAssembler * CBlockTemplate :=
  (AddToBlock pool st.1 it, AddToBlock_template pool st.2 it).

(** The assignments to slot 0 at the end of CreateNewBlock;
    [coinbaseSigOps] is [GetLegacySigOpCount] of the coinbase. *)
Definition finishTemplate (a : BlockAssembler) (coinbaseSigOps : Z) (t : CBlockTemplate)
  : CBlockTemplate :=
  {| vTxFees := <[0%nat := - nFees a]> (vTxFees t);
     vSpecialTxFees := <[0%nat := - nSpecialTxFees a]> (vSpecialTxFees t);
     vTxSigOps := <[0%nat := coinbaseSigOps]> (vTxSigOps t) |}.

Definition zsum (l : list Z) : Z := foldr Z.add 0 l.

(** ** What one iteration of the selection loop does *)

(** The two tests of TestPackageTransactions on one transaction. *)
Definition finalAndSafe (params : AssemblerParams) (x : txiter) : bool :=
  IsFinalTx params x && IsTxSafeForMining params x.

(** An iteration that is not the last either leaves block, tracker and
    failed set alone (an entry skipped, the fee-rate exit), or rejects its
    candidate, or commits the candidate's package. *)
Inductive iteration (pool : CTxMemPool) (params : AssemblerParams) (s s' : LoopState)
  : Prop :=
| iteration_idle :
    assembler s' = assembler s -> mapModifiedTx s' = mapModifiedTx s ->
    failedTx s' = failedTx s ->
    iteration pool params s s'
| iteration_reject (c : Candidate) :
    selectCandidate pool s = Some c ->
    iter c ∉ inBlock (assembler s) ->
    (forall it rest, mi s = it :: rest ->
       SkipMapTxEntry (assembler s) it (mapModifiedTx s) (failedTx s) = false) ->
    TestPackage params (assembler s) (packageSize c) (packageSigOps c) = false
    \/ TestPackageTransactions params (packageOf pool (assembler s) (iter c)) = false ->
    assembler s' = assembler s ->
    mapModifiedTx s' = mapModifiedTx (dropFailed c s) ->
    failedTx s' = failedTx (dropFailed c s) ->
    iteration pool params s s'
| iteration_commit (c : Candidate) :
    selectCandidate pool s = Some c ->
    iter c ∉ inBlock (assembler s) ->
    (forall it rest, mi s = it :: rest ->
       SkipMapTxEntry (assembler s) it (mapModifiedTx s) (failedTx s) = false) ->
    TestPackage params (assembler s) (packageSize c) (packageSigOps c) = true ->
    TestPackageTransactions params (packageOf pool (assembler s) (iter c)) = true ->
    s' = commitPackage pool c (packageOf pool (assembler s) (iter c)) s ->
    iteration pool params s s'.

(** ** What the loop knows of the packages it tracks and of those it rejected *)

Definition txModFee (pool : CTxMemPool) (x : txiter) : Z := GetModifiedFee (entry pool x).

(** The mempool keeps the modified fees of an entry and its in-pool
    ancestors, as it keeps their size and sigops. *)
Definition fees_with_ancestors (pool : CTxMemPool) : Prop :=
  forall x, GetModFeesWithAncestors (entry pool x)
            = txModFee pool x + sumOver (txModFee pool) (CalculateMemPoolAncestors pool x).

(** Why what is left of the package of [f] cannot go into the block [a]:
    one of its transactions fails TestPackageTransactions, or it reaches
    one of the two maxima. *)
Definition blocked (pool : CTxMemPool) (params : AssemblerParams) (a : BlockAssembler)
    (f : txiter) : Prop :=
  (exists x, x ∈ packageOf pool a f /\ finalAndSafe params x = false)
  \/ nBlockMaxSize params <= nBlockSize a + sumOver (txSize pool) (packageOf pool a f)
  \/ nMaxBlockSigOps params <= nBlockSigOps a + sumOver (txSigOps pool) (packageOf pool a f).

Record tracker_invariant (pool : CTxMemPool) (s : LoopState) : Prop := {
  (* a modified entry that has not failed holds the figures of what is
     left of its package *)
  trk_exact :
    forall d e, mapModifiedTx s !! d = Some e -> d ∉ failedTx s ->
      nSizeWithAncestors e = sumOver (txSize pool) (packageOf pool (assembler s) d)
      /\ nSigOpCountWithAncestors e
         = sumOver (txSigOps pool) (packageOf pool (assembler s) d)
      /\ (fees_with_ancestors pool ->
          nModFeesWithAncestors e
          = sumOver (txModFee pool) (packageOf pool (assembler s) d));
  (* a transaction the loop has no record of has no ancestor in the block *)
  trk_untracked :
    forall d, d ∉ inBlock (assembler s) -> mapModifiedTx s !! d = None ->
      d ∉ failedTx s ->
      CalculateMemPoolAncestors pool d ## inBlock (assembler s)
}.

(** Every member of [failedTx] is outside the block and cannot enter it. *)
Definition failed_blocked (pool : CTxMemPool) (params : AssemblerParams)
    (s : LoopState) : Prop :=
  forall f, f ∈ failedTx s ->
    (f ∉ inBlock (assembler s)) /\ blocked pool params (assembler s) f.

(** The size and sigop counters are the values on entry to the loop and
    the figures of the transactions committed since. *)
Definition counters_exact (pool : CTxMemPool) (a0 : BlockAssembler) (s : LoopState)
  : Prop :=
  nBlockSize (assembler s) = nBlockSize a0 + listSum (txSize pool) (vtx (assembler s))
  /\ nBlockSigOps (assembler s)
     = nBlockSigOps a0 + listSum (txSigOps pool) (vtx (assembler s)).

(** A parent (0) and its child (1); every other handle stands for a
    one-byte transaction without relatives. *)
Definition lockedChildPool : CTxMemPool :=
  {| entry := fun it =>
       match it with
       | 0%nat => mkEntry 100 1000 1000 0 1 1 100 1000 1
       | 1%nat => mkEntry 100 500 500 0 1 2 200 1500 2
       | _ => mkEntry 1 0 0 0 0 1 1 0 0
       end;
     mapTx_ancestor_score := [0%nat; 1%nat];
     CalculateMemPoolAncestors := fun it =>
       match it with
       | 1%nat => {[ 0%nat ]}
       | _ => ∅
       end;
     CalculateDescendants := fun it =>
       match it with
       | 0%nat => {[ 0%nat; 1%nat ]}
       | _ => {[ it ]}
       end |}.

(** The child is not final yet. *)
Definition lockedChildParams : AssemblerParams :=
  {| nBlockMaxSize := 100000; nMaxBlockSigOps := 2000; blockMinFeeRate := 1%Q;
     IsFinalTx := fun it => negb (it =? 1)%nat; IsTxSafeForMining := fun _ => true |}.

(** The state in which the selection over [lockedChildPool] ends. *)
Definition lockedChildEnd : LoopState :=
  match assembleBody lockedChildPool lockedChildParams 10 [] with
  | Finished _ s | StillRunning s => s
  | _ => loopEntry lockedChildPool resetBlock
  end.

(** The state after the first iteration over [samplePool]: transaction 1
    and its parent 0 are in the block, transaction 2 has a modified entry. *)
Definition sampleAfterFirst : LoopState :=
  match step samplePool sampleParams (loopEntry samplePool (blockAtEntry [])) with
  | Continue s | Leave _ s => s
  | _ => loopEntry samplePool (blockAtEntry [])
  end.

(** The state in which the selection over [samplePool] ends when the
    block size is the smallest the constructor allows. *)
Definition tinyRunEnd : LoopState :=
  match assembleBody samplePool tinyBlockParams 20 [] with
  | Finished _ s | StillRunning s => s
  | _ => loopEntry samplePool resetBlock
  end.

(** ** chainparams.cpp: the genesis nonce and the mining phase *)

Definition UINT32_MAX : Z := 2 ^ 32 - 1.
Definition INT_MIN : Z := - 2 ^ 31.

(** The loop of FindDevNetGenesisBlock from the nonce [nNonce] on.
    [hashOf n] is [block.GetHash()] of the candidate block with nonce [n];
    [None] stands for a run that needs more than [fuel] iterations.  The
    result is the nonce of the block returned; [Aborted] is the
    [assert(false)] after the loop. *)
Fixpoint findNonce (fuel : nat) (hashOf : Z -> Z) (bnTarget nNonce : Z)
  : option (outcome Z) :=
  match fuel with
  | O => None
  | S fuel' =>
      if nNonce <? UINT32_MAX then
        if hashOf nNonce <=? bnTarget then Some (Ok nNonce)
        else findNonce fuel' hashOf bnTarget (wrap32 (nNonce + 1))
      else Some Aborted
  end.

Definition FindDevNetGenesisBlock (fuel : nat) (devNetName : string) (hashOf : Z -> Z)
    (bnTarget : Z) : option (outcome Z) :=
  if decide (devNetName = EmptyString) then Some Aborted
  else findNonce fuel hashOf bnTarget 0.

(** The [do ... while (block.nNonce != 0)] of VerifyGenesisPOW with the
    copy of the genesis block at nonce [nNonce]; [powHash n] is
    [block.GetPOWHash()] with nonce [n]. *)
Fixpoint verifyNonce (fuel : nat) (powHash : Z -> Z) (bnTarget genesisNonce nNonce : Z)
  : option (outcome unit) :=
  match fuel with
  | O => None
  | S fuel' =>
      if powHash nNonce <=? bnTarget then
        if negb (genesisNonce =? nNonce) then Some Aborted else Some (Ok tt)
      else
        let nNonce := wrap32 (nNonce + 1) in
        if negb (nNonce =? 0) then verifyNonce fuel' powHash bnTarget genesisNonce nNonce
        else Some Aborted
  end.

Definition VerifyGenesisPOW (fuel : nat) (powHash : Z -> Z) (bnTarget genesisNonce : Z)
  : option (outcome unit) :=
  verifyNonce fuel powHash bnTarget genesisNonce genesisNonce.

(** The fields of [Consensus::LLMQParams] that IsMiningPhase reads. *)
Record LLMQParams : Type := mkLLMQ {
  dkgInterval : Z;
  dkgMiningWindowStart : Z;
  dkgMiningWindowEnd : Z
}.

(** [IsMiningPhase]; [%] on [int] truncates towards zero and has no
    meaning for a zero divisor or for [INT_MIN % -1]. *)
Definition IsMiningPhase (params : LLMQParams) (nHeight : Z) : outcome bool :=
  if (dkgInterval params =? 0) || ((nHeight =? INT_MIN) && (dkgInterval params =? -1))
  then Undefined
  else
    let phaseIndex := Z.rem nHeight (dkgInterval params) in
    if (dkgMiningWindowStart params <=? phaseIndex)
       && (phaseIndex <=? dkgMiningWindowEnd params)
    then Ok true else Ok false.

(** [IsLLMQsMiningPhase] over the entries of [consensus.llmqs], in the
    order of the map; the keys are the values of [Consensus::LLMQType]. *)
Fixpoint IsLLMQsMiningPhase (llmqs : list (Z * LLMQParams)) (nHeight : Z) : outcome bool :=
  match llmqs with
  | [] => Ok false
  | it :: rest =>
      do phase <- IsMiningPhase it.2 nHeight;
      if phase then Ok true else IsLLMQsMiningPhase rest nHeight
  end.

(** * Properties *)

(** ** Machine integers *)

Lemma wrap64_small z : 0 <= z < 2 ^ 64 -> wrap64 z = z.
Proof. intros Hz. unfold wrap64. now apply Z.mod_small. Qed.

Lemma wrap32_small z : 0 <= z < 2 ^ 32 -> wrap32 z = z.
Proof. intros Hz. unfold wrap32. now apply Z.mod_small. Qed.

Lemma wrap64_range z : 0 <= wrap64 z < 2 ^ 64.
Proof. unfold wrap64. apply Z.mod_pos_bound. lia. Qed.

Lemma wrap32_range z : 0 <= wrap32 z < 2 ^ 32.
Proof. unfold wrap32. apply Z.mod_pos_bound. lia. Qed.

Lemma wrap32_succ (a b : Z) : wrap32 (wrap32 a + b) = wrap32 (a + b).
Proof. unfold wrap32. apply Zplus_mod_idemp_l. Qed.

Lemma wrap64_succ (a b : Z) : wrap64 (wrap64 a + b) = wrap64 (a + b).
Proof. unfold wrap64. apply Zplus_mod_idemp_l. Qed.

Lemma wrap32_minus (a b : Z) : wrap32 (wrap32 a - b) = wrap32 (a - b).
Proof. unfold wrap32. apply Zminus_mod_idemp_l. Qed.

Lemma wrap64_minus (a b : Z) : wrap64 (wrap64 a - b) = wrap64 (a - b).
Proof. unfold wrap64. apply Zminus_mod_idemp_l. Qed.

Lemma to_int64_small z : - 2 ^ 63 <= z < 2 ^ 63 -> to_int64 z = z.
Proof. intros Hz. unfold to_int64. rewrite Z.mod_small by lia. lia. Qed.

Lemma to_int32_small z : - 2 ^ 31 <= z < 2 ^ 31 -> to_int32 z = z.
Proof. intros Hz. unfold to_int32. rewrite Z.mod_small; lia. Qed.

(** ** The lucky payment *)

Section FortuneProperties.
Context `{keyio : KeyIO} `{blockdb : BlockDatabase}.

Lemma sum_values_app (a b : list CTxOut) :
  sum_values (a ++ b) = sum_values a + sum_values b.
Proof. induction a as [|o a IH]; simpl; [reflexivity | rewrite IH; lia]. Qed.

Lemma chain_at_in_range (c : CChain) (h : Z) :
  0 <= h <= Height c -> exists idx, chain_at c h = Some idx.
Proof.
  intros [Hlo Hhi]. unfold Height in Hhi. unfold chain_at.
  destruct (h <? 0) eqn:E1; [lia|].
  destruct (Z.of_nat (length c) <=? h) eqn:E2; [lia|]. simpl.
  apply lookup_lt_is_Some_2. lia.
Qed.

Lemma luckyHeightOf_valid (idx : CBlockIndex) :
  0 < nHeight idx < 2 ^ 31 ->
  luckyHeightOf idx = Ok (hashWordsXor (blockHash idx) mod nHeight idx)
  /\ 0 <= hashWordsXor (blockHash idx) mod nHeight idx < nHeight idx.
Proof.
  intros Hh. unfold luckyHeightOf.
  rewrite wrap64_small by lia.
  destruct (nHeight idx =? 0) eqn:E; [lia|].
  pose proof (Z.mod_pos_bound (hashWordsXor (blockHash idx)) (nHeight idx)) as Hb.
  rewrite to_int32_small by lia. split; [reflexivity | lia].
Qed.

Lemma getFortunePaymentAmount_before_start (fp : FortunePayment) (height blockReward : Z) :
  height <= startBlock fp -> getFortunePaymentAmount fp height blockReward = 0.
Proof.
  intros Hle. unfold getFortunePaymentAmount.
  destruct (height <=? startBlock fp) eqn:E; [reflexivity | lia].
Qed.

Lemma FillFortunePayment_Ok (chain : CChain) (fp : FortunePayment)
    (vout : list CTxOut) (h blockReward : Z) (vout' : list CTxOut) (out : CTxOut) :
  FillFortunePayment chain fp vout h blockReward = Ok (vout', out) ->
  exists address out0 rest,
    GetFortuneAddressByHeight chain (h - 1) = Ok address
    /\ IsValidDestination (DecodeDestination address) = true
    /\ vout = out0 :: rest
    /\ out = mkTxOut (getFortunePaymentAmount fp (h - 1) blockReward) (payeeScript address)
    /\ vout' = mkTxOut (nValue out0 - nValue out) (scriptPubKey out0) :: rest ++ [out].
Proof.
  unfold FillFortunePayment.
  destruct (GetFortuneAddressByHeight chain (h - 1)) as [address| | |]; simpl; try discriminate.
  destruct (IsValidDestination (DecodeDestination address)) eqn:Ev; simpl; try discriminate.
  destruct vout as [|out0 rest]; try discriminate.
  intros [= <- <-]. exists address, out0, rest. simpl. auto.
Qed.

(** The four words of [GetUint64] are the base-2^64 digits of the hash. *)
Lemma hashWordsXor_words (h : Z) :
  hashWordsXor h
  = Z.lxor (Z.lxor (Z.lxor (h mod 2 ^ 64) ((h / 2 ^ 64) mod 2 ^ 64))
                   ((h / 2 ^ 128) mod 2 ^ 64))
           ((h / 2 ^ 192) mod 2 ^ 64).
Proof.
  unfold hashWordsXor, GetUint64. change (2 ^ 64 - 1) with (Z.ones 64).
  rewrite !Z.land_ones by lia. rewrite !Z.shiftr_div_pow2 by lia.
  change (64 * 0) with 0. rewrite Z.pow_0_r, Z.div_1_r. reflexivity.
Qed.

(** C9: the payee of the lucky payment of a block at height [H] comes from
    height [H - 1]: outside [1, chain height] it is the default address;
    inside, the block index at that height exists and, its stored height
    being a positive [int], the payee is the miner of the block at the xor
    of the four 64-bit words of its hash (the digits of the hash in base
    2^64) modulo its own stored height; the output FillFortunePayment
    appends pays to the script of that address. *)
Theorem fortune_payee_from_previous_height (chain : CChain) (fp : FortunePayment)
    (vout : list CTxOut) (H1 blockReward : Z) :
  (H1 - 1 < 1 \/ Height chain < H1 - 1 ->
     GetFortuneAddressByHeight chain (H1 - 1) = Ok DEFAULT_FORTUNE_ADDRESS)
  /\ (1 <= H1 - 1 <= Height chain ->
      exists idx, chain_at chain (H1 - 1) = Some idx
        /\ (0 < nHeight idx < 2 ^ 31 ->
            GetFortuneAddressByHeight chain (H1 - 1)
            = Ok (GetBlockCoinbaseMinerAddress
                    (Z.lxor
                       (Z.lxor
                          (Z.lxor (blockHash idx mod 2 ^ 64)
                                  ((blockHash idx / 2 ^ 64) mod 2 ^ 64))
                          ((blockHash idx / 2 ^ 128) mod 2 ^ 64))
                       ((blockHash idx / 2 ^ 192) mod 2 ^ 64)
                     mod nHeight idx))))
  /\ (forall vout' out,
        FillFortunePayment chain fp vout H1 blockReward = Ok (vout', out) ->
        exists address,
          GetFortuneAddressByHeight chain (H1 - 1) = Ok address
          /\ scriptPubKey out = payeeScript address
          /\ last vout' = Some out).
Proof.
  split; [|split].
  - intros Hout. unfold GetFortuneAddressByHeight.
    destruct (H1 - 1 <=? 0) eqn:E1; [reflexivity|].
    destruct (Height chain <? H1 - 1) eqn:E2; [reflexivity|]. lia.
  - intros Hin.
    destruct (chain_at_in_range chain (H1 - 1)) as [idx Hidx]; [lia|].
    exists idx. split; [exact Hidx|]. intros Hh.
    unfold GetFortuneAddressByHeight.
    destruct (H1 - 1 <=? 0) eqn:E1; [lia|].
    destruct (Height chain <? H1 - 1) eqn:E2; [lia|]. simpl.
    rewrite Hidx. destruct (luckyHeightOf_valid idx Hh) as [-> _].
    rewrite hashWordsXor_words. reflexivity.
  - intros vout' out Hfill.
    destruct (FillFortunePayment_Ok _ _ _ _ _ _ _ Hfill)
      as (address & out0 & rest & Ha & _ & _ & Hout & Hv).
    exists address. split; [exact Ha|]. split.
    + rewrite Hout. reflexivity.
    + rewrite Hv. change (?x :: ?r ++ [out]) with ((x :: r) ++ [out]).
      apply last_snoc.
Qed.

(** C10: IsBlockPayeeValid answers true exactly when some output pays the
    script of the expected payee at least the expected amount; paying more
    is accepted, and at or before the start block, where the expected
    amount is zero, an output of value zero to the payee is enough. *)
Theorem IsBlockPayeeValid_iff (chain : CChain) (fp : FortunePayment)
    (vout : list CTxOut) (height blockReward : Z) (address : string) :
  GetFortuneAddressByHeight chain height = Ok address ->
  (exists b, IsBlockPayeeValid chain fp vout height blockReward = Ok b
     /\ (b = true <->
         exists out, In out vout
           /\ scriptPubKey out = payeeScript address
           /\ getFortunePaymentAmount fp height blockReward <= nValue out))
  /\ (forall out extra, In out vout -> 0 <= extra ->
        scriptPubKey out = payeeScript address ->
        nValue out = getFortunePaymentAmount fp height blockReward + extra ->
        IsBlockPayeeValid chain fp vout height blockReward = Ok true)
  /\ (height <= startBlock fp ->
        getFortunePaymentAmount fp height blockReward = 0
        /\ forall out, In out vout -> scriptPubKey out = payeeScript address ->
             nValue out = 0 ->
             IsBlockPayeeValid chain fp vout height blockReward = Ok true).
Proof.
  intros Ha.
  assert (Hiff : forall b,
    existsb (fun out => bool_decide (scriptPubKey out = payeeScript address)
                        && (getFortunePaymentAmount fp height blockReward <=? nValue out)) vout = b ->
    (b = true <-> exists out, In out vout /\ scriptPubKey out = payeeScript address
                    /\ getFortunePaymentAmount fp height blockReward <= nValue out)).
  { intros b <-. rewrite existsb_exists. split.
    - intros (out & Hin & Hc). apply andb_true_iff in Hc as [Hs Hv].
      apply bool_decide_eq_true in Hs. exists out. repeat split; [done..|lia].
    - intros (out & Hin & Hs & Hv). exists out. split; [done|].
      apply andb_true_iff. split; [by apply bool_decide_eq_true | lia]. }
  assert (Hval : forall out, In out vout -> scriptPubKey out = payeeScript address ->
    getFortunePaymentAmount fp height blockReward <= nValue out ->
    IsBlockPayeeValid chain fp vout height blockReward = Ok true).
  { intros out Hin Hs Hv. unfold IsBlockPayeeValid. rewrite Ha. simpl. f_equal.
    apply (Hiff _ eq_refl). eauto. }
  split; [|split].
  - eexists. split.
    + unfold IsBlockPayeeValid. rewrite Ha. simpl. reflexivity.
    + apply Hiff. reflexivity.
  - intros out extra Hin Hex Hs Hv. apply (Hval out); [done..|lia].
  - intros Hle. pose proof (getFortunePaymentAmount_before_start fp height blockReward Hle) as Hzero.
    split; [exact Hzero|]. intros out Hin Hs Hv. apply (Hval out); [done..|lia].
Qed.

End FortuneProperties.

Example fortune_payee_sample :
  @GetFortuneAddressByHeight sampleBlockDatabase sampleChain 3 = Ok "Fminer2"%string
  /\ @GetFortuneAddressByHeight sampleBlockDatabase sampleChain 0 = Ok DEFAULT_FORTUNE_ADDRESS
  /\ @GetFortuneAddressByHeight sampleBlockDatabase sampleChain 4 = Ok DEFAULT_FORTUNE_ADDRESS.
Proof. repeat split; vm_compute; reflexivity. Qed.

Lemma IsBlockPayeeValid_iff_witness :
  @GetFortuneAddressByHeight sampleBlockDatabase sampleChain 2 = Ok "Fminer0"%string
  /\ @IsBlockPayeeValid sampleKeyIO sampleBlockDatabase sampleChain mainnetFortune
       [@mkTxOut sampleKeyIO 950 "Fpool"%string; @mkTxOut sampleKeyIO 60 "Fminer0"%string]
       2 1000 = Ok true.
Proof.
  assert (Ha : @GetFortuneAddressByHeight sampleBlockDatabase sampleChain 2
               = Ok "Fminer0"%string) by (vm_compute; reflexivity).
  split; [exact Ha|].
  apply (proj1 (proj2 (@IsBlockPayeeValid_iff sampleKeyIO sampleBlockDatabase sampleChain
           mainnetFortune _ 2 1000 "Fminer0"%string Ha))
         (@mkTxOut sampleKeyIO 60 "Fminer0"%string) 10).
  - simpl. right. left. reflexivity.
  - lia.
  - vm_compute. reflexivity.
  - vm_compute. reflexivity.
Defined.

(** ** The coinbase *)

Section CoinbaseProperties.
Context `{keyio : KeyIO} `{blockdb : BlockDatabase} `{layers : !PaymentLayers}.
Variable swapAddresses : list (string * Z).




End CoinbaseProperties.

(** ** The template CreateNewBlock returns *)

Section CreateNewBlockProperties.
Context `{keyio : KeyIO} `{blockdb : BlockDatabase} `{layers : !PaymentLayers}
        `{checks : !BlockChecks}.
Variable swapAddresses : list (string * Z).




End CreateNewBlockProperties.


(** A schedule that pays out more than the reward: the coinbase is
    composed with output 0 at -500, and CreateNewBlock leaves by the
    exception of the final check. *)
Example overpaying_schedule_throws :
  (exists rest,
     @coinbaseOutputs sampleKeyIO sampleBlockDatabase noProviderPayments sampleSwapTable
       sampleChain overpayingFortune "Fme"%string 100 0 900
     = Ok (@mkTxOut sampleKeyIO (-500) "Fme"%string :: rest))
  /\ @CreateNewBlock_coinbase sampleKeyIO sampleBlockDatabase noProviderPayments
       allChecksPass sampleSwapTable sampleChain overpayingFortune "Fme"%string 100 0 900
     = Thrown "CreateNewBlock: TestBlockValidity failed: bad-txns-vout-negative".
Proof. split; [eexists|]; vm_compute; reflexivity. Qed.



(** ** Sums over lists and sets of entries *)

Lemma listSum_app (f : txiter -> Z) (a b : list txiter) :
  listSum f (a ++ b) = listSum f a + listSum f b.
Proof. induction a as [|x a IH]; simpl; [reflexivity | rewrite IH; lia]. Qed.

Lemma listSum_perm (f : txiter -> Z) (a b : list txiter) :
  a ≡ₚ b -> listSum f a = listSum f b.
Proof. induction 1; simpl; lia. Qed.

Lemma listSum_nonneg (f : txiter -> Z) (l : list txiter) :
  (forall x, 0 <= f x) -> 0 <= listSum f l.
Proof. intros Hf. induction l as [|x l IH]; simpl; [lia | specialize (Hf x); lia]. Qed.

Lemma sumOver_listSum (f : txiter -> Z) (s : gset txiter) :
  sumOver f s = listSum f (elements s).
Proof. reflexivity. Qed.

Lemma sumOver_empty (f : txiter -> Z) : sumOver f ∅ = 0.
Proof. unfold sumOver. rewrite elements_empty. reflexivity. Qed.

Lemma sumOver_singleton (f : txiter -> Z) (x : txiter) : sumOver f {[ x ]} = f x.
Proof. unfold sumOver. rewrite elements_singleton. simpl. lia. Qed.

Lemma sumOver_disj_union (f : txiter -> Z) (s1 s2 : gset txiter) :
  s1 ## s2 -> sumOver f (s1 ∪ s2) = sumOver f s1 + sumOver f s2.
Proof.
  intros Hd. rewrite !sumOver_listSum.
  rewrite (listSum_perm f _ _ (elements_disj_union s1 s2 Hd)).
  apply listSum_app.
Qed.

Lemma sumOver_nonneg (f : txiter -> Z) (s : gset txiter) :
  (forall x, 0 <= f x) -> 0 <= sumOver f s.
Proof. intros Hf. rewrite sumOver_listSum. now apply listSum_nonneg. Qed.

Lemma sumOver_subseteq (f : txiter -> Z) (s1 s2 : gset txiter) :
  (forall x, 0 <= f x) -> s1 ⊆ s2 -> sumOver f s1 <= sumOver f s2.
Proof.
  intros Hf Hsub.
  assert (Heq : s2 = s1 ∪ (s2 ∖ s1)).
  { apply set_eq. intros x. rewrite elem_of_union, elem_of_difference.
    destruct (decide (x ∈ s1)) as [Hx|Hx]; [|tauto].
    split; [tauto|]. intros _. apply Hsub, Hx. }
  rewrite Heq at 1. rewrite sumOver_disj_union.
  2:{ intros x Hx1 Hx2. apply elem_of_difference in Hx2. tauto. }
  pose proof (sumOver_nonneg f (s2 ∖ s1) Hf). lia.
Qed.

Lemma sumOver_perm (f : txiter -> Z) (s : gset txiter) (l : list txiter) :
  l ≡ₚ elements s -> listSum f l = sumOver f s.
Proof. intros Hp. rewrite sumOver_listSum. now apply listSum_perm. Qed.

(** ** UpdatePackagesForAdded *)

Section UpdateProperties.
Variable pool : CTxMemPool.

Lemma subtractAll_figures (parents : list txiter) (e : CTxMemPoolModifiedEntry) :
  parents <> [] ->
  nSizeWithAncestors (subtractAll pool parents e)
    = wrap64 (nSizeWithAncestors e - listSum (txSize pool) parents)
  /\ nModFeesWithAncestors (subtractAll pool parents e)
    = nModFeesWithAncestors e - listSum (fun it => GetModifiedFee (entry pool it)) parents
  /\ nSigOpCountWithAncestors (subtractAll pool parents e)
    = wrap32 (nSigOpCountWithAncestors e - listSum (txSigOps pool) parents).
Proof.
  destruct parents as [|p parents]; [done|]. intros _. revert p e.
  induction parents as [|q parents IH]; intros p e.
  - cbn [subtractAll foldl update_for_parent_inclusion nSizeWithAncestors
         nModFeesWithAncestors nSigOpCountWithAncestors listSum foldr].
    unfold txSize, txSigOps. rewrite !Z.add_0_r. done.
  - change (subtractAll pool (p :: q :: parents) e)
      with (subtractAll pool (q :: parents) (update_for_parent_inclusion (entry pool p) e)).
    destruct (IH q (update_for_parent_inclusion (entry pool p) e)) as (Hs & Hf & Hg).
    rewrite Hs, Hf, Hg.
    cbn [update_for_parent_inclusion nSizeWithAncestors nModFeesWithAncestors
         nSigOpCountWithAncestors].
    change (listSum (txSize pool) (p :: q :: parents))
      with (txSize pool p + listSum (txSize pool) (q :: parents)).
    change (listSum (txSigOps pool) (p :: q :: parents))
      with (txSigOps pool p + listSum (txSigOps pool) (q :: parents)).
    change (listSum (fun it => GetModifiedFee (entry pool it)) (p :: q :: parents))
      with (GetModifiedFee (entry pool p)
            + listSum (fun it => GetModifiedFee (entry pool it)) (q :: parents)).
    rewrite wrap64_minus, wrap32_minus. unfold txSize, txSigOps.
    split; [f_equal; lia|]. split; [lia | f_equal; lia].
Qed.

Lemma adjustDescendant_eq (alreadyAdded : gset txiter) (it desc : txiter)
    (n : Z) (m : gmap txiter CTxMemPoolModifiedEntry) :
  adjustDescendant pool alreadyAdded it (n, m) desc
  = if decide (desc ∈ alreadyAdded) then (n, m)
    else (n + 1,
          <[desc := update_for_parent_inclusion (entry pool it)
                      (default (ModifiedEntryOf pool desc) (m !! desc))]> m).
Proof.
  unfold adjustDescendant. destruct (decide (desc ∈ alreadyAdded)); [reflexivity|].
  simpl. destruct (m !! desc); reflexivity.
Qed.

(** The inner loop, over the descendants [ds] of one added transaction. *)
Lemma adjust_descendants (alreadyAdded : gset txiter) (it : txiter) (ds : list txiter) :
  NoDup ds ->
  forall (n : Z) (m : gmap txiter CTxMemPoolModifiedEntry),
    (foldl (adjustDescendant pool alreadyAdded it) (n, m) ds).1
    = n + Z.of_nat (length (filter (fun d => d ∉ alreadyAdded) ds))
    /\ forall d,
         (foldl (adjustDescendant pool alreadyAdded it) (n, m) ds).2 !! d
         = if decide (d ∈ ds /\ d ∉ alreadyAdded)
           then Some (update_for_parent_inclusion (entry pool it)
                        (default (ModifiedEntryOf pool d) (m !! d)))
           else m !! d.
Proof.
  induction 1 as [|d0 ds Hnotin Hnd IH]; intros n m; cbn [foldl].
  - split; [simpl; lia|]. intros d. case_decide as Hc; [|reflexivity].
    destruct Hc as [Hin _]. by apply elem_of_nil in Hin.
  - rewrite adjustDescendant_eq.
    destruct (decide (d0 ∈ alreadyAdded)) as [Hadded|Hfresh].
    + destruct (IH n m) as [Hn Hm]. split.
      * rewrite Hn. rewrite filter_cons_False by (intros Hc; apply Hc, Hadded). reflexivity.
      * intros d. rewrite Hm.
        destruct (decide (d ∈ ds /\ d ∉ alreadyAdded)) as [[Hin Hna]|Hno];
          destruct (decide (d ∈ d0 :: ds /\ d ∉ alreadyAdded)) as [[Hin' Hna']|Hno'];
          try reflexivity.
        -- exfalso. apply Hno'. split; [by right | done].
        -- exfalso. apply Hno. split; [|done].
           apply elem_of_cons in Hin' as [->|Hin']; [done | done].
    + destruct (IH (n + 1)
                  (<[d0 := update_for_parent_inclusion (entry pool it)
                             (default (ModifiedEntryOf pool d0) (m !! d0))]> m))
        as [Hn Hm].
      split.
      * rewrite Hn. rewrite filter_cons_True by done. simpl. lia.
      * intros d. rewrite Hm.
        destruct (decide (d = d0)) as [->|Hne].
        -- rewrite decide_False by (intros [Hin _]; done).
           rewrite lookup_insert_eq.
           rewrite decide_True by (split; [by left | done]). reflexivity.
        -- rewrite lookup_insert_ne by done.
           destruct (decide (d ∈ ds /\ d ∉ alreadyAdded)) as [[Hin Hna]|Hno];
             destruct (decide (d ∈ d0 :: ds /\ d ∉ alreadyAdded)) as [[Hin' Hna']|Hno'];
             try reflexivity.
           ++ exfalso. apply Hno'. split; [by right | done].
           ++ exfalso. apply Hno. split; [|done].
              apply elem_of_cons in Hin' as [->|Hin']; done.
Qed.

(** The outer loop, over a list [l] of added transactions. *)
Lemma adjust_added (alreadyAdded : gset txiter) (l : list txiter) :
  forall (n : Z) (m : gmap txiter CTxMemPoolModifiedEntry),
    let r := foldl (fun acc it =>
                      foldl (adjustDescendant pool alreadyAdded it) acc
                            (elements (CalculateDescendants pool it))) (n, m) l in
    r.1 = n + listSum (touches pool alreadyAdded) l
    /\ forall d,
         r.2 !! d
         = if decide (d ∈ alreadyAdded) then m !! d
           else
             let parents := filter (fun it => d ∈ CalculateDescendants pool it) l in
             if decide (parents = []) then m !! d
             else Some (subtractAll pool parents
                          (default (ModifiedEntryOf pool d) (m !! d))).
Proof.
  induction l as [|c l IH]; intros n m r; subst r; cbn [foldl].
  - split; [simpl; lia|]. intros d. cbn zeta.
    rewrite (decide_True (P := filter _ [] = [])) by reflexivity.
    destruct (decide (d ∈ alreadyAdded)); reflexivity.
  - destruct (foldl (adjustDescendant pool alreadyAdded c) (n, m)
                (elements (CalculateDescendants pool c))) as [n1 m1] eqn:E1.
    pose proof (adjust_descendants alreadyAdded c _
                  (NoDup_elements (CalculateDescendants pool c)) n m) as [Hn1 Hm1].
    rewrite E1 in Hn1, Hm1. simpl in Hn1, Hm1.
    destruct (IH n1 m1) as [Hn Hm]. split.
    + rewrite Hn, Hn1. simpl. unfold touches. lia.
    + intros d. rewrite Hm. cbn zeta.
      destruct (decide (d ∈ alreadyAdded)) as [Hadded|Hfresh].
      * rewrite Hm1. rewrite decide_False by (intros [_ Hc]; done). reflexivity.
      * rewrite Hm1.
        destruct (decide (d ∈ CalculateDescendants pool c)) as [Hdesc|Hnot].
        -- rewrite filter_cons_True by done.
           rewrite (decide_True (P := d ∈ elements _ /\ _))
             by (split; [by apply elem_of_elements | done]).
           rewrite (decide_False (P := _ :: _ = [])) by discriminate.
           destruct (decide (filter _ l = [])) as [->|Hne]; reflexivity.
        -- rewrite filter_cons_False by done.
           rewrite (decide_False (P := d ∈ elements _ /\ _))
             by (intros [Hc _]; by apply elem_of_elements in Hc).
           reflexivity.
Qed.

Lemma UpdatePackagesForAdded_lookup (alreadyAdded : gset txiter)
    (m : gmap txiter CTxMemPoolModifiedEntry) (d : txiter) :
  (UpdatePackagesForAdded pool alreadyAdded m).2 !! d = adjustedEntry pool alreadyAdded m d.
Proof.
  unfold UpdatePackagesForAdded, adjustedEntry, addedAncestors.
  destruct (adjust_added alreadyAdded (elements alreadyAdded) 0 m) as [_ Hm].
  apply Hm.
Qed.

(** C5: after UpdatePackagesForAdded the entry of a descendant outside the
    added set holds its previous figures (those of its entry in the map if
    it had one, those of the mempool otherwise) less the size, fee and
    sigops of every added transaction it descends from, in the arithmetic
    of the fields: the size modulo 2^64 and the sigop count modulo 2^32,
    which are the plain differences whenever these do not go below zero;
    entries of other transactions are as before; the result counts one for
    every pair of an added transaction and a descendant of it outside the
    added set. *)
Theorem UpdatePackagesForAdded_adjusts (alreadyAdded : gset txiter)
    (m : gmap txiter CTxMemPoolModifiedEntry) :
  (forall desc,
     desc ∉ alreadyAdded ->
     addedAncestors pool alreadyAdded desc <> [] ->
     exists e,
       (UpdatePackagesForAdded pool alreadyAdded m).2 !! desc = Some e
       /\ let previous := default (ModifiedEntryOf pool desc) (m !! desc) in
          let parents := addedAncestors pool alreadyAdded desc in
          nSizeWithAncestors e
            = wrap64 (nSizeWithAncestors previous - listSum (txSize pool) parents)
          /\ nModFeesWithAncestors e
            = nModFeesWithAncestors previous
              - listSum (fun it => GetModifiedFee (entry pool it)) parents
          /\ nSigOpCountWithAncestors e
            = wrap32 (nSigOpCountWithAncestors previous
                      - listSum (txSigOps pool) parents)
          /\ (0 <= nSizeWithAncestors previous - listSum (txSize pool) parents < 2 ^ 64 ->
              nSizeWithAncestors e
              = nSizeWithAncestors previous - listSum (txSize pool) parents)
          /\ (0 <= nSigOpCountWithAncestors previous - listSum (txSigOps pool) parents
                < 2 ^ 32 ->
              nSigOpCountWithAncestors e
              = nSigOpCountWithAncestors previous - listSum (txSigOps pool) parents))
  /\ (forall it desc,
        it ∈ alreadyAdded -> desc ∈ CalculateDescendants pool it ->
        it ∈ addedAncestors pool alreadyAdded desc)
  /\ (forall x,
        x ∈ alreadyAdded \/ addedAncestors pool alreadyAdded x = [] ->
        (UpdatePackagesForAdded pool alreadyAdded m).2 !! x = m !! x)
  /\ (UpdatePackagesForAdded pool alreadyAdded m).1
     = listSum (touches pool alreadyAdded) (elements alreadyAdded).
Proof.
  split; [|split; [|split]].
  - intros desc Hfresh Hne. rewrite UpdatePackagesForAdded_lookup. unfold adjustedEntry.
    rewrite decide_False by done. cbn zeta. rewrite decide_False by done.
    eexists. split; [reflexivity|]. cbn zeta.
    destruct (subtractAll_figures (addedAncestors pool alreadyAdded desc)
                (default (ModifiedEntryOf pool desc) (m !! desc)) Hne) as (Hs & Hf & Hg).
    split; [exact Hs|]. split; [exact Hf|]. split; [exact Hg|]. split.
    + intros Hrange. rewrite Hs. by apply wrap64_small.
    + intros Hrange. rewrite Hg. by apply wrap32_small.
  - intros it desc Hit Hdesc. unfold addedAncestors.
    apply list_elem_of_filter. split; [done | by apply elem_of_elements].
  - intros x Hx. rewrite UpdatePackagesForAdded_lookup. unfold adjustedEntry.
    destruct (decide (x ∈ alreadyAdded)); [reflexivity|].
    destruct Hx as [Hx|Hx]; [done|]. cbn zeta. rewrite decide_True by done. reflexivity.
  - unfold UpdatePackagesForAdded.
    destruct (adjust_added alreadyAdded (elements alreadyAdded) 0 m) as [Hn _].
    rewrite Hn. lia.
Qed.

End UpdateProperties.

(** ** The ancestor fee-rate order and the best modified entry *)

Lemma Compare_true_iff (a b : CTxMemPoolModifiedEntry) :
  CompareTxMemPoolEntryByAncestorFee a b = true
  <-> (ancestorFeeRate b < ancestorFeeRate a)%Q.
Proof.
  unfold CompareTxMemPoolEntryByAncestorFee. rewrite negb_true_iff.
  rewrite <- not_true_iff_false, Qle_bool_iff. split.
  - apply Qnot_le_lt.
  - apply Qlt_not_le.
Qed.

Lemma Compare_false_iff (a b : CTxMemPoolModifiedEntry) :
  CompareTxMemPoolEntryByAncestorFee a b = false
  <-> (ancestorFeeRate a <= ancestorFeeRate b)%Q.
Proof.
  unfold CompareTxMemPoolEntryByAncestorFee. rewrite negb_false_iff.
  apply Qle_bool_iff.
Qed.

Lemma betterOf_fold (l : list (txiter * CTxMemPoolModifiedEntry)) :
  forall acc,
    match foldl betterOf acc l with
    | None => acc = None /\ l = []
    | Some b =>
        (acc = Some b \/ b ∈ l)
        /\ (forall a, acc = Some a -> (ancestorFeeRate a.2 <= ancestorFeeRate b.2)%Q)
        /\ (forall x, x ∈ l -> (ancestorFeeRate x.2 <= ancestorFeeRate b.2)%Q)
    end.
Proof.
  induction l as [|x l IH]; intros acc; cbn [foldl].
  - destruct acc as [b|]; [|done]. split; [by left|]. split.
    + intros a [= ->]. apply Qle_refl.
    + intros x Hx. by apply elem_of_nil in Hx.
  - specialize (IH (betterOf acc x)).
    destruct (foldl betterOf (betterOf acc x) l) as [b|].
    + destruct IH as (Hin & Hacc & Hl).
      assert (Hx : (ancestorFeeRate x.2 <= ancestorFeeRate b.2)%Q
                   /\ forall a, acc = Some a ->
                        (ancestorFeeRate a.2 <= ancestorFeeRate b.2)%Q).
      { destruct acc as [a|]; simpl in *.
        - destruct (CompareTxMemPoolEntryByAncestorFee x.2 a.2) eqn:E.
          + apply Compare_true_iff in E. split; [by apply Hacc|].
            intros a' [= <-]. eapply Qle_trans; [apply Qlt_le_weak, E|]. by apply Hacc.
          + apply Compare_false_iff in E. split.
            * eapply Qle_trans; [apply E|]. by apply Hacc.
            * intros a' [= <-]. by apply Hacc.
        - split; [by apply Hacc | intros a; discriminate]. }
      destruct Hx as [Hx Ha]. split; [|split].
      * destruct Hin as [Hin|Hin]; [|right; by right].
        destruct acc as [a|]; simpl in Hin.
        -- destruct (CompareTxMemPoolEntryByAncestorFee x.2 a.2);
             injection Hin as <-; [right; by left | by left].
        -- injection Hin as <-. right. by left.
      * exact Ha.
      * intros y Hy. apply elem_of_cons in Hy as [->|Hy]; [exact Hx | by apply Hl].
    + destruct IH as [Hnone _]. destruct acc as [a|]; simpl in Hnone; [|discriminate].
      destruct (CompareTxMemPoolEntryByAncestorFee x.2 a.2); discriminate.
Qed.

Lemma bestModified_Some (m : gmap txiter CTxMemPoolModifiedEntry)
    (b : txiter * CTxMemPoolModifiedEntry) :
  bestModified m = Some b ->
  m !! b.1 = Some b.2
  /\ forall k e, m !! k = Some e -> (ancestorFeeRate e <= ancestorFeeRate b.2)%Q.
Proof.
  unfold bestModified. intros Hb.
  pose proof (betterOf_fold (map_to_list m) None) as Hf. rewrite Hb in Hf.
  destruct Hf as ([Hin|Hin] & _ & Hl); [discriminate|]. split.
  - destruct b as [k e]. by apply elem_of_map_to_list in Hin.
  - intros k e Hk. apply (Hl (k, e)). by apply elem_of_map_to_list.
Qed.

Lemma bestModified_None (m : gmap txiter CTxMemPoolModifiedEntry) :
  bestModified m = None -> m = ∅.
Proof.
  unfold bestModified. intros Hb.
  pose proof (betterOf_fold (map_to_list m) None) as Hf. rewrite Hb in Hf.
  destruct Hf as [_ Hnil]. by apply map_to_list_empty_iff.
Qed.

(** ** The choice of the candidate *)

Section SelectionProperties.
Variable pool : CTxMemPool.

Lemma selectCandidate_cases (s : LoopState) (c : Candidate) :
  selectCandidate pool s = Some c ->
  (exists it rest,
     mi s = it :: rest /\ c = candidateFromMapTx pool it rest
     /\ forall m, bestModified (mapModifiedTx s) = Some m ->
          CompareTxMemPoolEntryByAncestorFee m.2 (ModifiedEntryOf pool it) = false)
  \/ (exists k e,
        bestModified (mapModifiedTx s) = Some (k, e)
        /\ c = candidateFromModified (k, e) (mi s)
        /\ forall it rest, mi s = it :: rest ->
             CompareTxMemPoolEntryByAncestorFee e (ModifiedEntryOf pool it) = true).
Proof.
  unfold selectCandidate.
  destruct (mi s) as [|it rest] eqn:Emi.
  - destruct (bestModified (mapModifiedTx s)) as [[k e]|] eqn:Eb; [|discriminate].
    intros [= <-]. right. exists k, e. split; [reflexivity|]. split; [reflexivity|].
    intros it rest [=].
  - destruct (bestModified (mapModifiedTx s)) as [[k e]|] eqn:Eb.
    + simpl. destruct (CompareTxMemPoolEntryByAncestorFee e (ModifiedEntryOf pool it)) eqn:Ec.
      * intros [= <-]. right. exists k, e. split; [reflexivity|]. split; [reflexivity|].
        intros it' rest' [= <- <-]. exact Ec.
      * intros [= <-]. left. exists it, rest. split; [reflexivity|]. split; [reflexivity|].
        intros m [= <-]. exact Ec.
    + intros [= <-]. left. exists it, rest. split; [reflexivity|]. split; [reflexivity|].
      intros m [=].
Qed.

(** C3: when the entry at the iterator of mapTx and the best entry of
    mapModifiedTx are both there, the entry of mapModifiedTx is taken only
    if its ancestor fee-rate is strictly the higher; with equal rates the
    entry of mapTx is taken and the iterator moves on. *)
Theorem tie_goes_to_mapTx (s : LoopState) (it : txiter) (rest : list txiter)
    (modit : txiter * CTxMemPoolModifiedEntry) :
  mi s = it :: rest ->
  bestModified (mapModifiedTx s) = Some modit ->
  ((ancestorFeeRate modit.2 == ancestorFeeRate (ModifiedEntryOf pool it))%Q ->
     selectCandidate pool s = Some (candidateFromMapTx pool it rest))
  /\ (forall c, selectCandidate pool s = Some c -> fUsingModified c = true ->
        c = candidateFromModified modit (mi s)
        /\ (ancestorFeeRate (ModifiedEntryOf pool it) < ancestorFeeRate modit.2)%Q)
  /\ ((ancestorFeeRate (ModifiedEntryOf pool it) < ancestorFeeRate modit.2)%Q ->
        selectCandidate pool s = Some (candidateFromModified modit (mi s))).
Proof.
  intros Hmi Hbest. unfold selectCandidate. rewrite Hmi, Hbest.
  destruct (CompareTxMemPoolEntryByAncestorFee modit.2 (ModifiedEntryOf pool it)) eqn:Ec.
  - apply Compare_true_iff in Ec. split; [|split].
    + intros Heq. rewrite Heq in Ec. exfalso. by apply (Qlt_irrefl _ Ec).
    + intros c [= <-] _. split; [reflexivity | exact Ec].
    + intros _. reflexivity.
  - apply Compare_false_iff in Ec. split; [|split].
    + intros _. reflexivity.
    + intros c [= <-]. simpl. discriminate.
    + intros Hlt. exfalso. by apply (Qlt_not_le _ _ Hlt).
Qed.

End SelectionProperties.

Example samplePool_run :
  exists c s,
    assembleBody samplePool sampleParams 10 [] = Finished (FeeRateCutoff c) s
    /\ iter c = 3%nat
    /\ vtx (assembler s) = [0%nat; 1%nat; 2%nat]
    /\ nBlockSize (assembler s) = 1300
    /\ nFees (assembler s) = 1901
    /\ mi s = [0%nat]
    /\ lastAccepted s = Some (900, 100).
Proof. eexists _, _. split; [vm_compute; reflexivity|]. repeat split. Qed.

(** ** Committing a package *)

Section CommitProperties.
Variable pool : CTxMemPool.

Lemma commit_structure (l : list txiter) :
  forall (a : BlockAssembler) (m : gmap txiter CTxMemPoolModifiedEntry),
    vtx (foldl (commitEntry pool) (a, m) l).1 = vtx a ++ l
    /\ inBlock (foldl (commitEntry pool) (a, m) l).1 = list_to_set l ∪ inBlock a
    /\ forall k, (foldl (commitEntry pool) (a, m) l).2 !! k
                 = if decide (k ∈ l) then None else m !! k.
Proof.
  induction l as [|x l IH]; intros a m; cbn [foldl].
  - split; [by rewrite app_nil_r|]. split.
    { apply set_eq. intros y. rewrite elem_of_union, elem_of_list_to_set, elem_of_nil. tauto. }
    intros k. rewrite decide_False; [reflexivity | apply not_elem_of_nil].
  - destruct (IH (AddToBlock pool a x) (delete x m)) as (Hv & Hb & Hm).
    unfold commitEntry at 2 4 6. cbn [fst snd]. split; [|split].
    + rewrite Hv. simpl. by rewrite <- app_assoc.
    + rewrite Hb. apply set_eq. intros y.
      cbn [AddToBlock inBlock].
      rewrite !elem_of_union, !elem_of_list_to_set, elem_of_cons, elem_of_singleton. tauto.
    + intros k. rewrite Hm.
      destruct (decide (k = x)) as [->|Hne].
      * rewrite lookup_delete_eq. rewrite (decide_True (P := x ∈ x :: l)) by by left.
        by destruct (decide (x ∈ l)).
      * rewrite lookup_delete_ne by done.
        destruct (decide (k ∈ l)) as [Hin|Hnin].
        -- rewrite decide_True by by right. reflexivity.
        -- rewrite decide_False; [reflexivity|].
           intros Hc. apply elem_of_cons in Hc as [?|?]; done.
Qed.

Lemma commit_counters (l : list txiter) :
  (forall x, 0 <= txSize pool x) -> (forall x, 0 <= txSigOps pool x) ->
  forall (a : BlockAssembler) (m : gmap txiter CTxMemPoolModifiedEntry),
    0 <= nBlockSize a -> nBlockSize a + listSum (txSize pool) l < 2 ^ 64 ->
    0 <= nBlockSigOps a -> nBlockSigOps a + listSum (txSigOps pool) l < 2 ^ 32 ->
    nBlockSize (foldl (commitEntry pool) (a, m) l).1
      = nBlockSize a + listSum (txSize pool) l
    /\ nBlockSigOps (foldl (commitEntry pool) (a, m) l).1
      = nBlockSigOps a + listSum (txSigOps pool) l.
Proof.
  intros Hsize Hsig. induction l as [|x l IH]; intros a m Ha Hb Hc Hd; cbn [foldl].
  - simpl. lia.
  - simpl in Hb, Hd.
    pose proof (listSum_nonneg (txSize pool) l Hsize) as Hl1.
    pose proof (listSum_nonneg (txSigOps pool) l Hsig) as Hl2.
    pose proof (Hsize x) as Hx1. pose proof (Hsig x) as Hx2.
    unfold commitEntry at 2 4. cbn [fst snd].
    assert (E1 : nBlockSize (AddToBlock pool a x) = nBlockSize a + txSize pool x).
    { simpl. apply wrap64_small. unfold txSize in *. lia. }
    assert (E2 : nBlockSigOps (AddToBlock pool a x) = nBlockSigOps a + txSigOps pool x).
    { simpl. apply wrap32_small. unfold txSigOps in *. lia. }
    destruct (IH (AddToBlock pool a x) (delete x m)) as [Hs Hg]; try lia.
    rewrite Hs, Hg, E1, E2. simpl. lia.
Qed.

Lemma SortForBlock_perm (package : gset txiter) :
  SortForBlock pool package ≡ₚ elements package.
Proof. unfold SortForBlock. apply merge_sort_Permutation. Qed.

Lemma SortForBlock_elem (package : gset txiter) (x : txiter) :
  x ∈ SortForBlock pool package <-> x ∈ package.
Proof. rewrite (SortForBlock_perm package). apply elem_of_elements. Qed.

Lemma SortForBlock_NoDup (package : gset txiter) : NoDup (SortForBlock pool package).
Proof. rewrite (SortForBlock_perm package). apply NoDup_elements. Qed.

Lemma SortForBlock_set (package : gset txiter) :
  list_to_set (SortForBlock pool package) = package.
Proof.
  apply set_eq. intros x. rewrite elem_of_list_to_set. apply SortForBlock_elem.
Qed.

Lemma sorted_lookup_le (l : list txiter) :
  StronglySorted (byAncestorCount pool) l ->
  forall i j x y, l !! i = Some x -> l !! j = Some y -> (i <= j)%nat ->
    byAncestorCount pool x y.
Proof.
  induction 1 as [|z l Hs IH Hall]; intros i j x y Hi Hj Hij.
  - by rewrite lookup_nil in Hi.
  - destruct i as [|i], j as [|j]; simpl in Hi, Hj.
    + injection Hi as <-. injection Hj as <-. unfold byAncestorCount. lia.
    + injection Hi as <-. rewrite Forall_forall in Hall. apply Hall.
      by eapply list_elem_of_lookup_2.
    + lia.
    + apply (IH i j); [done | done | lia].
Qed.

Lemma SortForBlock_sorted (package : gset txiter) :
  forall i j x y,
    SortForBlock pool package !! i = Some x -> SortForBlock pool package !! j = Some y ->
    (i <= j)%nat ->
    GetCountWithAncestors (entry pool x) <= GetCountWithAncestors (entry pool y).
Proof.
  apply sorted_lookup_le. unfold SortForBlock.
  assert (Htrans : Transitive (byAncestorCount pool)).
  { intros a b c. unfold byAncestorCount. lia. }
  assert (Htotal : Total (byAncestorCount pool)).
  { intros a b. unfold byAncestorCount. lia. }
  apply (StronglySorted_merge_sort (byAncestorCount pool)).
Qed.

End CommitProperties.

(** ** Consequences of mempool consistency *)

Section PoolProperties.
Variable pool : CTxMemPool.
Hypothesis Hpool : mempool_consistent pool.

Lemma ancestor_count_lt (a b : txiter) :
  a ∈ CalculateMemPoolAncestors pool b ->
  GetCountWithAncestors (entry pool a) < GetCountWithAncestors (entry pool b).
Proof.
  intros Hab. rewrite !(count_with_ancestors pool Hpool).
  assert (Hsub : CalculateMemPoolAncestors pool a ∪ {[ a ]}
                 ⊆ CalculateMemPoolAncestors pool b).
  { apply union_subseteq. split.
    - by apply (ancestors_transitive pool Hpool).
    - by apply singleton_subseteq_l. }
  apply subseteq_size in Hsub. rewrite size_union in Hsub.
  - rewrite size_singleton in Hsub. lia.
  - intros x Hx1 Hx2. apply elem_of_singleton in Hx2 as ->.
    by apply (ancestors_irreflexive pool Hpool a).
Qed.

Lemma sumOver_packageOf (f : txiter -> Z) (a : BlockAssembler) (d : txiter) :
  sumOver f (packageOf pool a d)
  = f d + sumOver f (CalculateMemPoolAncestors pool d ∖ inBlock a).
Proof.
  unfold packageOf, onlyUnconfirmed. rewrite sumOver_disj_union.
  - by rewrite sumOver_singleton.
  - intros x Hx1 Hx2. apply elem_of_singleton in Hx1 as ->.
    apply elem_of_difference in Hx2 as [Hx2 _].
    by apply (ancestors_irreflexive pool Hpool d).
Qed.

Lemma packageOf_bounds (a : BlockAssembler) (d : txiter) :
  0 < sumOver (txSize pool) (packageOf pool a d)
  /\ sumOver (txSize pool) (packageOf pool a d) <= GetSizeWithAncestors (entry pool d)
  /\ 0 <= sumOver (txSigOps pool) (packageOf pool a d)
  /\ sumOver (txSigOps pool) (packageOf pool a d)
     <= GetSigOpCountWithAncestors (entry pool d).
Proof.
  rewrite !sumOver_packageOf.
  rewrite (size_with_ancestors pool Hpool), (sigops_with_ancestors pool Hpool).
  assert (Hs : forall x, 0 <= txSize pool x).
  { intros x. pose proof (tx_size_positive pool Hpool x). lia. }
  pose proof (tx_sigops_nonneg pool Hpool) as Hg.
  pose proof (tx_size_positive pool Hpool d) as Hd.
  pose proof (Hg d) as Hgd.
  assert (Hsub : CalculateMemPoolAncestors pool d ∖ inBlock a
                 ⊆ CalculateMemPoolAncestors pool d).
  { intros x Hx. by apply elem_of_difference in Hx as [Hx _]. }
  pose proof (sumOver_subseteq (txSize pool) _ _ Hs Hsub).
  pose proof (sumOver_subseteq (txSigOps pool) _ _ Hg Hsub).
  pose proof (sumOver_nonneg (txSize pool)
                (CalculateMemPoolAncestors pool d ∖ inBlock a) Hs).
  pose proof (sumOver_nonneg (txSigOps pool)
                (CalculateMemPoolAncestors pool d ∖ inBlock a) Hg).
  lia.
Qed.

(** The added transactions that UpdatePackagesForAdded subtracts from a
    descendant outside the added set are its ancestors in that set. *)
Lemma addedAncestors_perm (added : gset txiter) (d : txiter) :
  d ∉ added ->
  addedAncestors pool added d
  ≡ₚ elements (CalculateMemPoolAncestors pool d ∩ added).
Proof.
  intros Hd. apply NoDup_Permutation.
  - unfold addedAncestors. apply NoDup_filter, NoDup_elements.
  - apply NoDup_elements.
  - intros c. unfold addedAncestors.
    rewrite list_elem_of_filter, !elem_of_elements, elem_of_intersection.
    assert (Hne : c ∈ added -> c <> d) by (intros Hc ->; done).
    split.
    + intros [Hdesc Hc]. split; [|done].
      by apply (descendants_ancestors pool Hpool c d (Hne Hc)).
    + intros [Hanc Hc]. split; [|done].
      by apply (descendants_ancestors pool Hpool c d (Hne Hc)).
Qed.

(** What is left of the package of [d] before a package [added] goes into
    the block is what is left afterwards and the part that goes in. *)
Lemma remaining_split (f : txiter -> Z) (a a' : BlockAssembler)
    (added : gset txiter) (d : txiter) :
  inBlock a' = added ∪ inBlock a -> added ## inBlock a ->
  sumOver f (packageOf pool a d)
  = sumOver f (packageOf pool a' d)
    + sumOver f (CalculateMemPoolAncestors pool d ∩ added).
Proof.
  intros Hin Hdisj. rewrite !sumOver_packageOf, Hin.
  assert (Heq : CalculateMemPoolAncestors pool d ∖ inBlock a
                = (CalculateMemPoolAncestors pool d ∖ (added ∪ inBlock a))
                  ∪ (CalculateMemPoolAncestors pool d ∩ added)).
  { apply set_eq. intros x.
    rewrite elem_of_union, !elem_of_difference, elem_of_intersection, elem_of_union.
    destruct (decide (x ∈ added)) as [Hx|Hx]; [|tauto].
    split; [tauto|]. intros [[_ Hc]|[Hanc _]]; [tauto|].
    split; [done|]. intros Hb. by apply (Hdisj x). }
  rewrite Heq, sumOver_disj_union; [lia|].
  intros x Hx1 Hx2. apply elem_of_difference in Hx1 as [_ Hx1].
  apply elem_of_intersection in Hx2 as [_ Hx2]. apply Hx1, elem_of_union. by left.
Qed.

Lemma packageOf_disjoint (a : BlockAssembler) (it : txiter) :
  it ∉ inBlock a -> packageOf pool a it ## inBlock a.
Proof.
  intros Hit x Hx Hb. unfold packageOf, onlyUnconfirmed in Hx.
  apply elem_of_union in Hx as [Hx|Hx].
  - apply elem_of_singleton in Hx as ->. done.
  - apply elem_of_difference in Hx as [_ Hx]. done.
Qed.

Lemma packageOf_ancestors (a : BlockAssembler) (it x : txiter) :
  x ∈ packageOf pool a it ->
  CalculateMemPoolAncestors pool x ⊆ packageOf pool a it ∪ inBlock a.
Proof.
  intros Hx y Hy. unfold packageOf, onlyUnconfirmed in *.
  assert (Hanc : y ∈ CalculateMemPoolAncestors pool it).
  { apply elem_of_union in Hx as [Hx|Hx].
    - apply elem_of_singleton in Hx as ->. done.
    - apply elem_of_difference in Hx as [Hx _].
      by apply (ancestors_transitive pool Hpool x it Hx). }
  destruct (decide (y ∈ inBlock a)) as [Hb|Hb].
  - apply elem_of_union. by right.
  - apply elem_of_union. left. apply elem_of_union. right.
    by apply elem_of_difference.
Qed.

End PoolProperties.

(** ** One iteration keeps the invariant *)

Section LoopProperties.
Variable pool : CTxMemPool.
Variable params : AssemblerParams.
Hypothesis Hpool : mempool_consistent pool.

Lemma select_fits (s : LoopState) (c : Candidate) :
  selection_invariant pool params s ->
  selectCandidate pool s = Some c ->
  (forall it rest, mi s = it :: rest ->
     SkipMapTxEntry (assembler s) it (mapModifiedTx s) (failedTx s) = false) ->
  candidate_fits pool s c.
Proof.
  intros Hinv Hsel Hskip.
  destruct (selectCandidate_cases pool s c Hsel)
    as [(it & rest & Hmi & -> & _)|(k & e & Hbest & -> & _)].
  - specialize (Hskip _ _ Hmi). unfold SkipMapTxEntry in Hskip.
    apply orb_false_iff in Hskip as [Hskip _].
    apply orb_false_iff in Hskip as [_ Hin]. apply bool_decide_eq_false in Hin.
    destruct (packageOf_bounds pool Hpool (assembler s) it) as (H1 & H2 & H3 & H4).
    constructor; cbn [iter packageSize packageSigOps miNext candidateFromMapTx].
    + exact Hin.
    + split; [exact H2 | lia].
    + split; [exact H4 | lia].
    + right. by exists it.
  - apply bestModified_Some in Hbest as [Hlook _]. cbn [fst snd] in Hlook.
    destruct (inv_modified pool params s Hinv _ _ Hlook) as (H1 & H2 & H3 & H4).
    constructor; cbn [iter packageSize packageSigOps miNext candidateFromModified fst snd].
    + intros Hin. pose proof (inv_disjoint pool params s Hinv _ Hin) as Hnone. congruence.
    + split; [exact H1 | exact H2].
    + split; [exact H3 | exact H4].
    + by left.
Qed.

Lemma mi_suffix (s : LoopState) (next : list txiter) :
  (exists passed, mapTx_ancestor_score pool = passed ++ mi s) ->
  next = mi s \/ (exists it, mi s = it :: next) ->
  exists passed, mapTx_ancestor_score pool = passed ++ next.
Proof.
  intros [passed Hp] [->|[it Hit]]; [by exists passed|].
  exists (passed ++ [it]). rewrite Hp, Hit, <- app_assoc. reflexivity.
Qed.

Lemma advance_preserves (s : LoopState) (next : list txiter) :
  selection_invariant pool params s ->
  next = mi s \/ (exists it, mi s = it :: next) ->
  selection_invariant pool params (advance s next).
Proof.
  intros Hinv Hnext. destruct Hinv. constructor; simpl; try done.
  by apply (mi_suffix s).
Qed.

Lemma dropFailed_preserves (s : LoopState) (c : Candidate) :
  selection_invariant pool params s ->
  candidate_fits pool s c ->
  selection_invariant pool params (dropFailed c s).
Proof.
  intros Hinv Hfit. pose proof (fits_next pool s c Hfit) as Hnext.
  destruct Hinv. constructor; simpl; try done.
  - intros x Hx. destruct (fUsingModified c); [|by auto].
    apply lookup_delete_None. right. by auto.
  - intros d e He. apply inv_modified0. destruct (fUsingModified c); [|done].
    apply lookup_delete_Some in He as [_ He]. done.
  - by apply (mi_suffix s).
Qed.

Lemma bump_preserves (s : LoopState) :
  selection_invariant pool params s ->
  selection_invariant pool params (bumpConsecutiveFailed s).
Proof. intros Hinv. destruct Hinv. constructor; simpl; done. Qed.

Lemma commitPackage_preserves (s : LoopState) (c : Candidate) :
  selection_invariant pool params s ->
  candidate_fits pool s c ->
  belowMinFeeRate params c = false ->
  selection_invariant pool params
    (commitPackage pool c (packageOf pool (assembler s) (iter c)) s).
Proof.
  intros Hinv Hfit Hfee.
  set (P := packageOf pool (assembler s) (iter c)).
  set (a := assembler s).
  destruct (commit_structure pool (SortForBlock pool P) a (mapModifiedTx s))
    as (Hv & Hb & Hm).
  rewrite SortForBlock_set in Hb.
  assert (Hdisj : P ## inBlock a) by (apply packageOf_disjoint, (fits_fresh pool s c Hfit)).
  assert (Hkeep : forall k, k ∉ P ->
            (foldl (commitEntry pool) (a, mapModifiedTx s) (SortForBlock pool P)).2 !! k
            = mapModifiedTx s !! k).
  { intros k Hk. rewrite Hm. apply decide_False. by rewrite SortForBlock_elem. }
  assert (Hgone : forall k, k ∈ P ->
            (foldl (commitEntry pool) (a, mapModifiedTx s) (SortForBlock pool P)).2 !! k
            = None).
  { intros k Hk. rewrite Hm. apply decide_True. by rewrite SortForBlock_elem. }
  assert (Hparents : forall d, d ∉ P -> d ∈ inBlock a -> addedAncestors pool P d = []).
  { intros d HdP Hd. destruct (addedAncestors pool P d) as [|p ps] eqn:Ep; [done|].
    exfalso. assert (Hp : p ∈ addedAncestors pool P d) by (rewrite Ep; by left).
    rewrite (addedAncestors_perm pool Hpool P d HdP) in Hp.
    apply elem_of_elements, elem_of_intersection in Hp as [Hp1 Hp2].
    apply (Hdisj p Hp2). by apply (inv_closed pool params s Hinv d Hd). }
  constructor; unfold commitPackage; cbn [assembler mapModifiedTx mi lastAccepted];
    fold P a.
  - (* the block stays closed under ancestors *)
    intros x Hx y Hy. rewrite Hb in *. apply elem_of_union in Hx as [Hx|Hx].
    + by apply (packageOf_ancestors pool Hpool a (iter c) x).
    + apply elem_of_union. right. by apply (inv_closed pool params s Hinv x).
  - (* nothing in the block is in mapModifiedTx *)
    intros x Hx. rewrite Hb in Hx.
    rewrite UpdatePackagesForAdded_lookup. unfold adjustedEntry.
    destruct (decide (x ∈ P)) as [HxP|HxP]; [by apply Hgone|].
    apply elem_of_union in Hx as [Hx|Hx]; [done|].
    cbn zeta. rewrite (Hparents x HxP Hx). rewrite decide_True by done.
    rewrite Hkeep by done. by apply (inv_disjoint pool params s Hinv).
  - (* no transaction twice *)
    rewrite Hv. apply NoDup_app. split; [apply (inv_vtx_nodup pool params s Hinv)|].
    split; [|apply SortForBlock_NoDup].
    intros x Hx1 Hx2. apply SortForBlock_elem in Hx2.
    apply (Hdisj x Hx2). by apply (inv_vtx_inBlock pool params s Hinv).
  - intros x. rewrite Hv, Hb, elem_of_app, elem_of_union, SortForBlock_elem.
    pose proof (inv_vtx_inBlock pool params s Hinv x) as Hx. fold a in Hx. tauto.
  - (* ancestors first *)
    rewrite Hv. intros i j x y Hi Hj Hanc.
    apply lookup_app_Some in Hi as [Hi|[Hil Hi]];
      apply lookup_app_Some in Hj as [Hj|[Hjl Hj]].
    + by apply (inv_order pool params s Hinv i j x y).
    + exfalso. assert (Hx : x ∈ inBlock a).
      { apply (inv_vtx_inBlock pool params s Hinv). by eapply list_elem_of_lookup_2. }
      assert (Hy : y ∈ P).
      { apply (SortForBlock_elem pool). by eapply list_elem_of_lookup_2. }
      apply (Hdisj y Hy). by apply (inv_closed pool params s Hinv x Hx).
    + apply lookup_lt_Some in Hj. lia.
    + pose proof (ancestor_count_lt pool Hpool y x Hanc) as Hlt.
      destruct (decide (i - length (vtx a) <= j - length (vtx a))%nat) as [Hle|Hgt];
        [|lia].
      pose proof (SortForBlock_sorted pool P _ _ _ _ Hi Hj Hle). lia.
  - (* the modified entries cover what is left of their packages *)
    intros d e' He'. rewrite UpdatePackagesForAdded_lookup in He'.
    unfold adjustedEntry in He'.
    destruct (decide (d ∈ P)) as [HdP|HdP]; [rewrite Hgone in He' by done; discriminate|].
    cbn zeta in He'. rewrite Hkeep in He' by done.
    pose proof (remaining_split pool Hpool (txSize pool) a _ P d Hb Hdisj) as Hs1.
    pose proof (remaining_split pool Hpool (txSigOps pool) a _ P d Hb Hdisj) as Hs2.
    pose proof (sumOver_perm (txSize pool) _ _ (addedAncestors_perm pool Hpool P d HdP)) as Hp1.
    pose proof (sumOver_perm (txSigOps pool) _ _ (addedAncestors_perm pool Hpool P d HdP)) as Hp2.
    assert (Hn1 : 0 <= sumOver (txSize pool) (CalculateMemPoolAncestors pool d ∩ P)).
    { apply sumOver_nonneg. intros x. pose proof (tx_size_positive pool Hpool x). lia. }
    assert (Hn2 : 0 <= sumOver (txSigOps pool) (CalculateMemPoolAncestors pool d ∩ P)).
    { apply sumOver_nonneg, (tx_sigops_nonneg pool Hpool). }
    assert (Hbase : forall base,
              base = default (ModifiedEntryOf pool d) (mapModifiedTx s !! d) ->
              sumOver (txSize pool) (packageOf pool a d) <= nSizeWithAncestors base
              /\ nSizeWithAncestors base <= GetSizeWithAncestors (entry pool d)
              /\ sumOver (txSigOps pool) (packageOf pool a d)
                 <= nSigOpCountWithAncestors base
              /\ nSigOpCountWithAncestors base
                 <= GetSigOpCountWithAncestors (entry pool d)).
    { intros base ->. destruct (mapModifiedTx s !! d) as [e|] eqn:Ed; simpl.
      - by apply (inv_modified pool params s Hinv).
      - destruct (packageOf_bounds pool Hpool a d) as (_ & H2 & _ & H4). lia. }
    destruct (decide (addedAncestors pool P d = [])) as [Hnil|Hne].
    + rewrite Hnil in Hp1, Hp2. simpl in Hp1, Hp2.
      specialize (Hbase e'). rewrite He' in Hbase. specialize (Hbase eq_refl). lia.
    + injection He' as <-.
      destruct (subtractAll_figures pool (addedAncestors pool P d)
                  (default (ModifiedEntryOf pool d) (mapModifiedTx s !! d)) Hne)
        as (Hf1 & _ & Hf3).
      specialize (Hbase _ eq_refl).
      destruct (packageOf_bounds pool Hpool
                  (foldl (commitEntry pool) (a, mapModifiedTx s) (SortForBlock pool P)).1 d)
        as (Hq1 & _ & Hq3 & _).
      pose proof (size_bounded pool Hpool d) as Hb1.
      pose proof (sigops_bounded pool Hpool d) as Hb2.
      rewrite Hf1, Hf3. rewrite wrap64_small, wrap32_small by lia. lia.
  - apply (mi_suffix s); [apply (inv_mi pool params s Hinv) | apply (fits_next pool s c Hfit)].
  - intros fees size [= <- <-]. split.
    + destruct (packageOf_bounds pool Hpool a (iter c)) as (Hpos & _).
      destruct (fits_size pool s c Hfit) as [Hlo _]. fold a in Hlo. lia.
    + unfold belowMinFeeRate in Hfee. apply negb_false_iff in Hfee.
      by apply Qle_bool_iff.
Qed.

Lemma evaluateCandidate_preserves (s : LoopState) (c : Candidate) :
  selection_invariant pool params s ->
  candidate_fits pool s c ->
  match evaluateCandidate pool params c s with
  | Continue s' => selection_invariant pool params s'
  | Leave why s' =>
      selection_invariant pool params s'
      /\ (forall c', why = FeeRateCutoff c' ->
            c' = c /\ belowMinFeeRate params c = true /\ s' = advance s (miNext c))
  | AssertionFailed | UndefinedBehaviour => False
  end.
Proof.
  intros Hinv Hfit. unfold evaluateCandidate.
  rewrite bool_decide_eq_false_2 by apply (fits_fresh pool s c Hfit).
  destruct (belowMinFeeRate params c) eqn:Efee.
  { split.
    - apply advance_preserves; [done | apply (fits_next pool s c Hfit)].
    - intros c' [= <-]. done. }
  destruct (TestPackage params (assembler s) (packageSize c) (packageSigOps c)); simpl.
  - destruct (TestPackageTransactions params (packageOf pool (assembler s) (iter c))); simpl.
    + by apply commitPackage_preserves.
    + by apply dropFailed_preserves.
  - match goal with |- context [if ?b then _ else _] => destruct b end.
    + split; [by apply bump_preserves, dropFailed_preserves | intros c' [=]].
    + by apply bump_preserves, dropFailed_preserves.
Qed.

Lemma step_preserves (s : LoopState) :
  selection_invariant pool params s ->
  match step pool params s with
  | Continue s' => selection_invariant pool params s'
  | Leave why s' =>
      selection_invariant pool params s'
      /\ (forall c, why = FeeRateCutoff c ->
            selectCandidate pool s = Some c /\ candidate_fits pool s c
            /\ belowMinFeeRate params c = true /\ s' = advance s (miNext c))
  | AssertionFailed | UndefinedBehaviour => False
  end.
Proof.
  intros Hinv. unfold step.
  assert (Heval : forall c,
    selectCandidate pool s = Some c -> candidate_fits pool s c ->
    match evaluateCandidate pool params c s with
    | Continue s' => selection_invariant pool params s'
    | Leave why s' =>
        selection_invariant pool params s'
        /\ (forall c0, why = FeeRateCutoff c0 ->
              selectCandidate pool s = Some c0 /\ candidate_fits pool s c0
              /\ belowMinFeeRate params c0 = true /\ s' = advance s (miNext c0))
    | AssertionFailed | UndefinedBehaviour => False
    end).
  { intros c Hsel Hfit.
    pose proof (evaluateCandidate_preserves s c Hinv Hfit) as He.
    destruct (evaluateCandidate pool params c s) as [s'|why s'| |]; try done.
    destruct He as [He1 He2]. split; [done|].
    intros c0 Hwhy. destruct (He2 c0 Hwhy) as (-> & Hb & Hs). done. }
  destruct (mi s) as [|it rest] eqn:Emi.
  - destruct (bool_decide (mapModifiedTx s = ∅)) eqn:Eempty.
    + split; [done | intros c [=]].
    + apply bool_decide_eq_false in Eempty.
      destruct (selectCandidate pool s) as [c|] eqn:Esel.
      * apply Heval; [done|]. apply (select_fits s c Hinv Esel).
        intros it rest Hmi. congruence.
      * unfold selectCandidate in Esel. rewrite Emi in Esel.
        destruct (bestModified (mapModifiedTx s)) eqn:Eb; [discriminate|].
        by apply bestModified_None in Eb.
  - destruct (SkipMapTxEntry (assembler s) it (mapModifiedTx s) (failedTx s)) eqn:Eskip.
    + apply advance_preserves; [done|]. right. by exists it.
    + destruct (selectCandidate pool s) as [c|] eqn:Esel.
      * apply Heval; [done|]. apply (select_fits s c Hinv Esel).
        intros it' rest' Hmi. congruence.
      * unfold selectCandidate in Esel. rewrite Emi in Esel.
        destruct (bestModified (mapModifiedTx s)) as [m|];
          [destruct (CompareTxMemPoolEntryByAncestorFee _ _)|]; discriminate.
Qed.

Lemma visits_invariant (s0 s : LoopState) :
  selection_invariant pool params s0 ->
  visits pool params s0 s ->
  selection_invariant pool params s.
Proof.
  intros H0. induction 1 as [|s s' Hv IH Hstep|s why s' Hv IH Hstep]; [done| |].
  - pose proof (step_preserves s IH) as Hp. by rewrite Hstep in Hp.
  - pose proof (step_preserves s IH) as Hp. rewrite Hstep in Hp. by destruct Hp.
Qed.

Lemma loop_result (fuel : nat) :
  forall s0 s,
    visits pool params s0 s ->
    selection_invariant pool params s ->
    match loop pool params fuel s with
    | Finished why s' =>
        exists before, visits pool params s0 before
                       /\ step pool params before = Leave why s'
    | StillRunning s' => visits pool params s0 s'
    | RunAborted | RunUndefined => False
    end.
Proof.
  induction fuel as [|fuel IH]; intros s0 s Hv Hinv; cbn [loop]; [done|].
  pose proof (step_preserves s Hinv) as Hp.
  destruct (step pool params s) as [s'|why s'| |] eqn:Hstep; try done.
  - apply IH; [by eapply visits_continue | done].
  - by exists s.
Qed.

Lemma entry_invariant (a : BlockAssembler) :
  inBlock a = ∅ -> vtx a = [] ->
  selection_invariant pool params (loopEntry pool a).
Proof.
  intros Hb Hv. constructor; unfold loopEntry; cbn [assembler mapModifiedTx mi lastAccepted].
  - intros x Hx. rewrite Hb in Hx. by apply not_elem_of_empty in Hx.
  - intros x Hx. rewrite Hb in Hx. by apply not_elem_of_empty in Hx.
  - rewrite Hv. constructor.
  - intros x. rewrite Hv, Hb. split; intros Hx.
    + by apply not_elem_of_nil in Hx.
    + by apply not_elem_of_empty in Hx.
  - rewrite Hv. intros i j x y Hi. by rewrite lookup_nil in Hi.
  - intros d e He. rewrite UpdatePackagesForAdded_lookup in He.
    unfold adjustedEntry, addedAncestors in He. rewrite Hb in He.
    rewrite elements_empty in He. rewrite decide_False in He by apply not_elem_of_empty.
    cbn zeta in He. rewrite decide_True in He by reflexivity.
    by rewrite lookup_empty in He.
  - by exists [].
  - intros fees size [=].
Qed.

Lemma step_assembler (s : LoopState) :
  selection_invariant pool params s ->
  match step pool params s with
  | Continue s' | Leave _ s' =>
      assembler s' = assembler s
      \/ exists c,
           candidate_fits pool s c
           /\ TestPackage params (assembler s) (packageSize c) (packageSigOps c) = true
           /\ s' = commitPackage pool c (packageOf pool (assembler s) (iter c)) s
  | AssertionFailed | UndefinedBehaviour => True
  end.
Proof.
  intros Hinv.
  assert (Heval : forall c, candidate_fits pool s c ->
    match evaluateCandidate pool params c s with
    | Continue s' | Leave _ s' =>
        assembler s' = assembler s
        \/ exists c,
             candidate_fits pool s c
             /\ TestPackage params (assembler s) (packageSize c) (packageSigOps c) = true
             /\ s' = commitPackage pool c (packageOf pool (assembler s) (iter c)) s
    | AssertionFailed | UndefinedBehaviour => True
    end).
  { intros c Hfit. unfold evaluateCandidate.
    destruct (bool_decide (iter c ∈ inBlock (assembler s))); [done|].
    destruct (belowMinFeeRate params c); [by left|].
    destruct (TestPackage params (assembler s) (packageSize c) (packageSigOps c)) eqn:Et;
      simpl.
    - destruct (TestPackageTransactions params (packageOf pool (assembler s) (iter c)));
        simpl; [|by left].
      right. by exists c.
    - match goal with |- context [if ?b then _ else _] => destruct b end; by left. }
  unfold step. destruct (mi s) as [|it rest] eqn:Emi.
  - destruct (bool_decide (mapModifiedTx s = ∅)); [by left|].
    destruct (selectCandidate pool s) as [c|] eqn:Esel; [|done].
    apply Heval, (select_fits s c Hinv Esel). intros it rest Hmi. congruence.
  - destruct (SkipMapTxEntry (assembler s) it (mapModifiedTx s) (failedTx s)) eqn:Eskip;
      [by left|].
    destruct (selectCandidate pool s) as [c|] eqn:Esel; [|done].
    apply Heval, (select_fits s c Hinv Esel). intros it' rest' Hmi. congruence.
Qed.

Lemma commitPackage_capacity (s : LoopState) (c : Candidate) :
  params_in_range params ->
  candidate_fits pool s c ->
  within_capacity params (assembler s) ->
  TestPackage params (assembler s) (packageSize c) (packageSigOps c) = true ->
  within_capacity params
    (assembler (commitPackage pool c (packageOf pool (assembler s) (iter c)) s)).
Proof.
  intros Hrange Hfit Hcap Htest.
  destruct Hrange as [[_ Hmax1] [_ Hmax2]].
  destruct Hcap as [[Hs0 Hs1] [Hg0 Hg1]].
  destruct (fits_size pool s c Hfit) as [Hp1 Hp2].
  destruct (fits_sigops pool s c Hfit) as [Hq1 Hq2].
  pose proof (size_bounded pool Hpool (iter c)) as Hb1.
  pose proof (sigops_bounded pool Hpool (iter c)) as Hb2.
  destruct (packageOf_bounds pool Hpool (assembler s) (iter c)) as (Hpos & _ & Hnn & _).
  set (P := packageOf pool (assembler s) (iter c)) in *.
  unfold TestPackage in Htest.
  destruct (nBlockMaxSize params <=? wrap64 (nBlockSize (assembler s) + packageSize c))
    eqn:E1; [discriminate|].
  destruct (nMaxBlockSigOps params <=? wrap32 (nBlockSigOps (assembler s) + packageSigOps c))
    eqn:E2; [discriminate|].
  rewrite wrap64_small in E1 by lia. rewrite wrap32_small in E2 by lia.
  assert (Hs : forall x, 0 <= txSize pool x).
  { intros x. pose proof (tx_size_positive pool Hpool x). lia. }
  pose proof (sumOver_perm (txSize pool) P _ (SortForBlock_perm pool P)) as Hl1.
  pose proof (sumOver_perm (txSigOps pool) P _ (SortForBlock_perm pool P)) as Hl2.
  destruct (commit_counters pool (SortForBlock pool P) Hs (tx_sigops_nonneg pool Hpool)
              (assembler s) (mapModifiedTx s)) as [Hc1 Hc2]; try lia.
  unfold commitPackage. cbn [assembler]. fold P.
  constructor; [rewrite Hc1 | rewrite Hc2]; lia.
Qed.

Lemma visits_capacity (s0 s : LoopState) :
  params_in_range params ->
  selection_invariant pool params s0 ->
  within_capacity params (assembler s0) ->
  visits pool params s0 s ->
  within_capacity params (assembler s).
Proof.
  intros Hrange H0 Hcap0.
  assert (Hstep : forall s s',
    selection_invariant pool params s -> within_capacity params (assembler s) ->
    (step pool params s = Continue s' \/ exists why, step pool params s = Leave why s') ->
    within_capacity params (assembler s')).
  { intros s1 s' Hinv Hcap Hs. pose proof (step_assembler s1 Hinv) as Ha.
    assert (Hor : assembler s' = assembler s1
                  \/ exists c, candidate_fits pool s1 c
                       /\ TestPackage params (assembler s1) (packageSize c) (packageSigOps c) = true
                       /\ s' = commitPackage pool c (packageOf pool (assembler s1) (iter c)) s1).
    { destruct Hs as [Hs|[why Hs]]; by rewrite Hs in Ha. }
    destruct Hor as [->|(c & Hfit & Ht & ->)]; [done|].
    by apply commitPackage_capacity. }
  induction 1 as [|s s' Hv IH Hs|s why s' Hv IH Hs]; [done| |].
  - apply (Hstep s s'); [by apply (visits_invariant s0) | done | by left].
  - apply (Hstep s s'); [by apply (visits_invariant s0) | done | right; by exists why].
Qed.

Lemma commitments_start (qcSizes : list Z) :
  inBlock (foldl addCommitment resetBlock qcSizes) = ∅
  /\ vtx (foldl addCommitment resetBlock qcSizes) = []
  /\ nBlockSigOps (foldl addCommitment resetBlock qcSizes) = 100.
Proof.
  assert (Hgen : forall a,
    inBlock (foldl addCommitment a qcSizes) = inBlock a
    /\ vtx (foldl addCommitment a qcSizes) = vtx a
    /\ nBlockSigOps (foldl addCommitment a qcSizes) = nBlockSigOps a).
  { induction qcSizes as [|q l IH]; intros a; cbn [foldl]; [done|].
    destruct (IH (addCommitment a q)) as (H1 & H2 & H3). by rewrite H1, H2, H3. }
  apply (Hgen resetBlock).
Qed.

End LoopProperties.

(** ** The selection loop as a whole *)

Section SelectionClaims.
Variable pool : CTxMemPool.
Variable params : AssemblerParams.
Hypothesis Hpool : mempool_consistent pool.

Lemma entry_state_invariant (qcSizes : list Z) :
  selection_invariant pool params (loopEntry pool (blockAtEntry qcSizes)).
Proof.
  destruct (commitments_start qcSizes) as (Hb & Hv & _).
  by apply entry_invariant.
Qed.

Lemma assembleBody_result (fuel : nat) (qcSizes : list Z) :
  match assembleBody pool params fuel qcSizes with
  | Finished why s =>
      exists before,
        visits pool params (loopEntry pool (blockAtEntry qcSizes)) before
        /\ selection_invariant pool params before
        /\ step pool params before = Leave why s
        /\ visits pool params (loopEntry pool (blockAtEntry qcSizes)) s
  | StillRunning s => visits pool params (loopEntry pool (blockAtEntry qcSizes)) s
  | RunAborted | RunUndefined => False
  end.
Proof.
  unfold assembleBody, addPackageTxs. fold (blockAtEntry qcSizes).
  pose proof (entry_state_invariant qcSizes) as H0.
  pose proof (loop_result pool params Hpool fuel _ _
                (visits_entry pool params (loopEntry pool (blockAtEntry qcSizes))) H0) as Hr.
  destruct (loop pool params fuel (loopEntry pool (blockAtEntry qcSizes)))
    as [why s|s| |]; try done.
  destruct Hr as (before & Hv & Hs). exists before.
  split; [done|]. split; [by apply (visits_invariant pool params Hpool _ _ H0)|].
  split; [done | by eapply visits_leave].
Qed.

(** C1, as the code has it: TestPackage rejects exactly when the block size
    with the package reaches [nBlockMaxSize] or the sigops with the package
    reach the sigop maximum (sums that fit the machine word); and when the
    counters are below the maxima on entry to the selection loop, they are
    below them after every iteration and in the block the loop ends with. *)
Theorem capacity_kept_below_maximum :
  params_in_range params ->
  (forall a size sigops,
     0 <= nBlockSize a + size < 2 ^ 64 ->
     0 <= nBlockSigOps a + sigops < 2 ^ 32 ->
     (TestPackage params a size sigops = false
      <-> nBlockMaxSize params <= nBlockSize a + size
          \/ nMaxBlockSigOps params <= nBlockSigOps a + sigops))
  /\ (forall qcSizes s,
        within_capacity params (blockAtEntry qcSizes) ->
        visits pool params (loopEntry pool (blockAtEntry qcSizes)) s ->
        within_capacity params (assembler s))
  /\ (forall fuel qcSizes why s,
        within_capacity params (blockAtEntry qcSizes) ->
        assembleBody pool params fuel qcSizes = Finished why s ->
        nBlockSize (assembler s) < nBlockMaxSize params
        /\ nBlockSigOps (assembler s) < nMaxBlockSigOps params).
Proof.
  intros Hrange.
  assert (Hvis : forall qcSizes s,
    within_capacity params (blockAtEntry qcSizes) ->
    visits pool params (loopEntry pool (blockAtEntry qcSizes)) s ->
    within_capacity params (assembler s)).
  { intros qcSizes s Hcap Hv.
    apply (visits_capacity pool params Hpool _ s Hrange (entry_state_invariant qcSizes));
      done. }
  split; [|split].
  - intros a size sigops Hs Hg. unfold TestPackage.
    rewrite wrap64_small, wrap32_small by lia.
    destruct (nBlockMaxSize params <=? nBlockSize a + size) eqn:E1.
    { split; [intros _; left; lia | done]. }
    destruct (nMaxBlockSigOps params <=? nBlockSigOps a + sigops) eqn:E2.
    { split; [intros _; right; lia | done]. }
    split; [discriminate | lia].
  - exact Hvis.
  - intros fuel qcSizes why s Hcap Hrun.
    pose proof (assembleBody_result fuel qcSizes) as Hr. rewrite Hrun in Hr.
    destruct Hr as (before & _ & _ & _ & Hv).
    destruct (Hvis qcSizes s Hcap Hv) as [[_ H1] [_ H2]]. done.
Qed.

(** C2: an iteration whose candidate has fees below
    [blockMinFeeRate.GetFee(packageSize)] ends the loop at once; and when
    the loop ends so, every entry still ahead of the mapTx iterator and
    every entry of mapModifiedTx has an ancestor fee-rate no higher than
    the candidate's, which is below the minimum rate and below the rate of
    the last package committed. *)
Theorem fee_rate_cutoff_bounds_the_rest :
  sorted_by_ancestor_score pool ->
  (forall s c fuel,
     (mi s = [] -> mapModifiedTx s <> ∅) ->
     (forall it rest, mi s = it :: rest ->
        SkipMapTxEntry (assembler s) it (mapModifiedTx s) (failedTx s) = false) ->
     selectCandidate pool s = Some c ->
     iter c ∉ inBlock (assembler s) -> belowMinFeeRate params c = true ->
     loop pool params (S fuel) s
     = Finished (FeeRateCutoff c) (advance s (miNext c)))
  /\ (forall fuel qcSizes c s,
        assembleBody pool params fuel qcSizes = Finished (FeeRateCutoff c) s ->
        belowMinFeeRate params c = true
        /\ (forall x, x ∈ mi s ->
              (ancestorFeeRate (ModifiedEntryOf pool x) <= candidateRate c)%Q)
        /\ (forall d e, mapModifiedTx s !! d = Some e ->
              (ancestorFeeRate e <= candidateRate c)%Q)
        /\ (candidateRate c < blockMinFeeRate params)%Q
        /\ (forall fees size, lastAccepted s = Some (fees, size) ->
              (candidateRate c < feeRate fees size)%Q)).
Proof.
  intros Hsorted. split.
  - intros s c fuel Hnonempty Hskip Hsel Hfresh Hbelow.
    assert (Heval : evaluateCandidate pool params c s
                    = Leave (FeeRateCutoff c) (advance s (miNext c))).
    { unfold evaluateCandidate. rewrite bool_decide_eq_false_2 by done.
      by rewrite Hbelow. }
    cbn [loop]. unfold step. destruct (mi s) as [|it rest] eqn:Emi.
    + rewrite bool_decide_eq_false_2 by by apply Hnonempty.
      by rewrite Hsel, Heval.
    + rewrite (Hskip it rest eq_refl). by rewrite Hsel, Heval.
  - intros fuel qcSizes c s Hrun.
    pose proof (assembleBody_result fuel qcSizes) as Hr. rewrite Hrun in Hr.
    destruct Hr as (before & _ & Hinv & Hstep & _).
    pose proof (step_preserves pool params Hpool before Hinv) as Hp.
    rewrite Hstep in Hp. destruct Hp as [_ Hp].
    destruct (Hp c eq_refl) as (Hsel & Hfit & Hbelow & ->). clear Hp.
    cbn [advance mi mapModifiedTx lastAccepted].
    assert (Hmi : StronglySorted
              (fun a b => (ancestorFeeRate (ModifiedEntryOf pool b)
                           <= ancestorFeeRate (ModifiedEntryOf pool a))%Q) (mi before)).
    { destruct (inv_mi pool params before Hinv) as [passed Hpassed].
      unfold sorted_by_ancestor_score in Hsorted. rewrite Hpassed in Hsorted.
      by apply StronglySorted_app_1_r in Hsorted. }
    assert (Hlow : (candidateRate c < blockMinFeeRate params)%Q).
    { unfold belowMinFeeRate in Hbelow. apply negb_true_iff in Hbelow.
      apply not_true_iff_false in Hbelow. rewrite Qle_bool_iff in Hbelow.
      apply Qnot_le_lt in Hbelow. unfold candidateRate, feeRate.
      apply Qlt_shift_div_r; [|exact Hbelow].
      destruct (packageOf_bounds pool Hpool (assembler before) (iter c)) as (Hpos & _).
      destruct (fits_size pool before c Hfit) as [Hlo _].
      unfold Qlt. simpl. lia. }
    split; [exact Hbelow|].
    assert (Hrest : (forall x, x ∈ miNext c ->
                       (ancestorFeeRate (ModifiedEntryOf pool x) <= candidateRate c)%Q)
                    /\ (forall d e, mapModifiedTx before !! d = Some e ->
                          (ancestorFeeRate e <= candidateRate c)%Q)).
    { destruct (selectCandidate_cases pool before c Hsel)
        as [(it & rest & Emi & -> & Hcmp)|(k & e0 & Hbest & -> & Hcmp)].
      - rewrite Emi in Hmi. apply StronglySorted_cons in Hmi as [Hall _].
        rewrite Forall_forall in Hall. split; [exact Hall|].
        intros d e Hd.
        destruct (bestModified (mapModifiedTx before)) as [m|] eqn:Eb.
        + destruct (bestModified_Some _ _ Eb) as [_ Hmax].
          eapply Qle_trans; [by apply (Hmax d e)|].
          exact (proj1 (Compare_false_iff m.2 (ModifiedEntryOf pool it)) (Hcmp m eq_refl)).
        + apply bestModified_None in Eb. rewrite Eb in Hd. by rewrite lookup_empty in Hd.
      - destruct (bestModified_Some _ _ Hbest) as [_ Hmax]. split; [|exact Hmax].
        cbn [miNext candidateFromModified]. intros x Hx.
        destruct (mi before) as [|it rest] eqn:Emi; [by apply elem_of_nil in Hx|].
        specialize (Hcmp it rest eq_refl). apply Compare_true_iff in Hcmp.
        apply StronglySorted_cons in Hmi as [Hall _]. rewrite Forall_forall in Hall.
        apply Qlt_le_weak in Hcmp.
        apply elem_of_cons in Hx as [->|Hx]; [exact Hcmp|].
        eapply Qle_trans; [by apply Hall | exact Hcmp]. }
    destruct Hrest as [Hr1 Hr2]. split; [exact Hr1|]. split; [exact Hr2|].
    split; [exact Hlow|].
    intros fees size Hlast.
    destruct (inv_last pool params before Hinv fees size Hlast) as [Hpos Hfee].
    eapply Qlt_le_trans; [exact Hlow|]. unfold feeRate.
    apply Qle_shift_div_l; [unfold Qlt; simpl; lia | exact Hfee].
Qed.

(** C4: a package sorted by SortForBlock has every member after its
    ancestors in the package, and in the block of every iteration, and of
    the end, every transaction stands after all its in-pool ancestors, which
    are all in the block. *)
Theorem ancestors_come_first :
  (forall package, ancestors_first pool (SortForBlock pool package))
  /\ (forall qcSizes s,
        visits pool params (loopEntry pool (blockAtEntry qcSizes)) s ->
        ancestors_first pool (vtx (assembler s))
        /\ forall x y, x ∈ vtx (assembler s) -> y ∈ CalculateMemPoolAncestors pool x ->
             y ∈ vtx (assembler s))
  /\ (forall fuel qcSizes why s,
        assembleBody pool params fuel qcSizes = Finished why s ->
        ancestors_first pool (vtx (assembler s))).
Proof.
  assert (Hvis : forall qcSizes s,
    visits pool params (loopEntry pool (blockAtEntry qcSizes)) s ->
    ancestors_first pool (vtx (assembler s))
    /\ forall x y, x ∈ vtx (assembler s) -> y ∈ CalculateMemPoolAncestors pool x ->
         y ∈ vtx (assembler s)).
  { intros qcSizes s Hv.
    pose proof (visits_invariant pool params Hpool _ s (entry_state_invariant qcSizes) Hv)
      as Hinv.
    split; [apply (inv_order pool params s Hinv)|].
    intros x y Hx Hy. apply (inv_vtx_inBlock pool params s Hinv).
    apply (inv_vtx_inBlock pool params s Hinv) in Hx.
    by apply (inv_closed pool params s Hinv x). }
  split; [|split].
  - intros package i j x y Hi Hj Hanc.
    pose proof (ancestor_count_lt pool Hpool y x Hanc) as Hlt.
    destruct (decide (i <= j)%nat) as [Hle|Hgt]; [|lia].
    pose proof (SortForBlock_sorted pool package _ _ _ _ Hi Hj Hle). lia.
  - exact Hvis.
  - intros fuel qcSizes why s Hrun.
    pose proof (assembleBody_result fuel qcSizes) as Hr. rewrite Hrun in Hr.
    destruct Hr as (before & _ & _ & _ & Hv). by apply (Hvis qcSizes s).
Qed.

(** C6: in the state of every iteration of the selection loop, and of its
    end, nothing in [inBlock] has an entry in [mapModifiedTx] and no
    transaction is in the block twice; the same holds after each pass of
    the loop that commits the sorted entries of a package; the assertion
    that the candidate is not in the block never fails. *)
Theorem no_duplicate_commitment :
  (forall qcSizes s,
     visits pool params (loopEntry pool (blockAtEntry qcSizes)) s ->
     (forall x, x ∈ inBlock (assembler s) -> mapModifiedTx s !! x = None)
     /\ NoDup (vtx (assembler s))
     /\ step pool params s <> AssertionFailed)
  /\ (forall qcSizes s it committed,
        visits pool params (loopEntry pool (blockAtEntry qcSizes)) s ->
        committed `prefix_of` SortForBlock pool (packageOf pool (assembler s) it) ->
        forall x,
          x ∈ inBlock (foldl (commitEntry pool) (assembler s, mapModifiedTx s) committed).1 ->
          (foldl (commitEntry pool) (assembler s, mapModifiedTx s) committed).2 !! x = None)
  /\ (forall fuel qcSizes,
        match assembleBody pool params fuel qcSizes with
        | Finished _ s | StillRunning s =>
            (forall x, x ∈ inBlock (assembler s) -> mapModifiedTx s !! x = None)
            /\ NoDup (vtx (assembler s))
        | RunAborted | RunUndefined => False
        end).
Proof.
  assert (Hvis : forall qcSizes s,
    visits pool params (loopEntry pool (blockAtEntry qcSizes)) s ->
    (forall x, x ∈ inBlock (assembler s) -> mapModifiedTx s !! x = None)
    /\ NoDup (vtx (assembler s))
    /\ step pool params s <> AssertionFailed).
  { intros qcSizes s Hv.
    pose proof (visits_invariant pool params Hpool _ s (entry_state_invariant qcSizes) Hv)
      as Hinv.
    split; [apply (inv_disjoint pool params s Hinv)|].
    split; [apply (inv_vtx_nodup pool params s Hinv)|].
    pose proof (step_preserves pool params Hpool s Hinv) as Hp.
    intros Hs. by rewrite Hs in Hp. }
  split; [exact Hvis|]. split.
  { intros qcSizes s it committed Hv _ x.
    destruct (Hvis qcSizes s Hv) as (Hdisj & _ & _).
    destruct (commit_structure pool committed (assembler s) (mapModifiedTx s))
      as (_ & Hb & Hm).
    rewrite Hb, Hm. intros Hx.
    destruct (decide (x ∈ committed)) as [Hc|Hc]; [reflexivity|].
    apply elem_of_union in Hx as [Hx|Hx]; [|by apply Hdisj].
    by apply elem_of_list_to_set in Hx. }
  intros fuel qcSizes.
  pose proof (assembleBody_result fuel qcSizes) as Hr.
  destruct (assembleBody pool params fuel qcSizes) as [why s|s| |]; try done.
  - destruct Hr as (before & _ & _ & _ & Hv).
    destruct (Hvis qcSizes s Hv) as (H1 & H2 & _). done.
  - destruct (Hvis qcSizes s Hr) as (H1 & H2 & _). done.
Qed.

End SelectionClaims.

(** ** The sample pools *)

Ltac handle_cases x :=
  destruct x as [|[|[|[|x]]]].

Ltac sample_sets :=
  cbn [CalculateMemPoolAncestors CalculateDescendants samplePool crowdedPool emptyPool];
  set_unfold; try lia; try tauto.

Lemma samplePool_consistent : mempool_consistent samplePool.
Proof.
  constructor.
  - intros x. handle_cases x; sample_sets.
  - intros a b Hab. handle_cases b; revert Hab; sample_sets; intros ->; cbn;
      intros y Hy; by apply not_elem_of_empty in Hy.
  - intros c d Hne. handle_cases c; handle_cases d; sample_sets.
  - intros x. handle_cases x;
      cbn [CalculateMemPoolAncestors samplePool entry GetCountWithAncestors];
      rewrite ?size_singleton, ?size_empty; reflexivity.
  - intros x. unfold txSize. handle_cases x;
      cbn [CalculateMemPoolAncestors samplePool entry GetSizeWithAncestors GetTxSize];
      rewrite ?sumOver_singleton, ?sumOver_empty; reflexivity.
  - intros x. unfold txSigOps. handle_cases x;
      cbn [CalculateMemPoolAncestors samplePool entry GetSigOpCountWithAncestors GetSigOpCount];
      rewrite ?sumOver_singleton, ?sumOver_empty; reflexivity.
  - intros x. unfold txSize. handle_cases x; simpl; lia.
  - intros x. unfold txSigOps. handle_cases x; simpl; lia.
  - intros x. handle_cases x; simpl; lia.
  - intros x. handle_cases x; simpl; lia.
Qed.

Lemma crowdedPool_consistent : mempool_consistent crowdedPool.
Proof.
  constructor.
  - intros x. sample_sets.
  - intros a b. sample_sets.
  - intros c d Hne. sample_sets; try (split; [intros ->; done | tauto]).
  - intros x. handle_cases x;
      cbn [CalculateMemPoolAncestors crowdedPool entry GetCountWithAncestors];
      rewrite size_empty; reflexivity.
  - intros x. unfold txSize. handle_cases x;
      cbn [CalculateMemPoolAncestors crowdedPool entry GetSizeWithAncestors GetTxSize];
      rewrite sumOver_empty; reflexivity.
  - intros x. unfold txSigOps. handle_cases x;
      cbn [CalculateMemPoolAncestors crowdedPool entry GetSigOpCountWithAncestors GetSigOpCount];
      rewrite sumOver_empty; reflexivity.
  - intros x. unfold txSize. handle_cases x; simpl; lia.
  - intros x. unfold txSigOps. handle_cases x; simpl; lia.
  - intros x. handle_cases x; simpl; lia.
  - intros x. handle_cases x; simpl; lia.
Qed.

Lemma sampleParams_in_range : params_in_range sampleParams.
Proof. constructor; simpl; lia. Qed.

Lemma samplePool_sorted : sorted_by_ancestor_score samplePool.
Proof.
  unfold sorted_by_ancestor_score. simpl.
  repeat (constructor; [|repeat constructor; unfold Qle; simpl; lia]).
  constructor.
Qed.

Lemma crowdedPool_sorted : sorted_by_ancestor_score crowdedPool.
Proof.
  unfold sorted_by_ancestor_score. simpl.
  repeat (constructor; [|repeat constructor; unfold Qle; simpl; lia]).
  constructor.
Qed.

Lemma samplePool_closed : mempool_closed samplePool.
Proof.
  constructor; intros x Hx; unfold poolHandles in *; simpl in *;
    handle_cases x; sample_sets; set_unfold; lia.
Qed.

Lemma sampleRun_end :
  assembleBody samplePool sampleParams 10 []
  = Finished (FeeRateCutoff (candidateFromMapTx samplePool 3%nat [0%nat])) sampleRunEnd.
Proof. vm_compute. reflexivity. Qed.

(** ** The claims on the sample pools *)

Lemma capacity_kept_below_maximum_witness :
  nBlockSize (assembler sampleRunEnd) < nBlockMaxSize sampleParams
  /\ nBlockSigOps (assembler sampleRunEnd) < nMaxBlockSigOps sampleParams.
Proof.
  apply (proj2 (proj2 (capacity_kept_below_maximum samplePool sampleParams
                         samplePool_consistent sampleParams_in_range))
           10%nat [] (FeeRateCutoff (candidateFromMapTx samplePool 3%nat [0%nat]))).
  - constructor; vm_compute; split; congruence.
  - vm_compute. reflexivity.
Defined.

(** The claim C1 fails for the smallest block size the constructor allows:
    the coinbase reservation alone reaches it. *)
Lemma reservation_reaches_maximum :
  exists s,
    assembleBody emptyPool tinyBlockParams 1 [] = Finished LoopConditionFalse s
    /\ nBlockMaxSize tinyBlockParams = 1000
    /\ nBlockSize (assembler s) = 1000
    /\ ~ nBlockSize (assembler s) < nBlockMaxSize tinyBlockParams.
Proof.
  eexists. split; [vm_compute; reflexivity|].
  split; [vm_compute; reflexivity|]. split; [vm_compute; reflexivity|].
  vm_compute. intros H. discriminate H.
Qed.

Lemma fee_rate_cutoff_bounds_the_rest_witness :
  (candidateRate (candidateFromMapTx samplePool 3%nat [0%nat])
   < blockMinFeeRate sampleParams)%Q
  /\ (candidateRate (candidateFromMapTx samplePool 3%nat [0%nat]) < feeRate 900 100)%Q
  /\ (ancestorFeeRate (ModifiedEntryOf samplePool 0%nat)
      <= candidateRate (candidateFromMapTx samplePool 3%nat [0%nat]))%Q.
Proof.
  destruct (proj2 (fee_rate_cutoff_bounds_the_rest samplePool sampleParams
                     samplePool_consistent samplePool_sorted)
              10%nat [] (candidateFromMapTx samplePool 3%nat [0%nat]) sampleRunEnd
              sampleRun_end) as (_ & Hmi & _ & Hlow & Hlast).
  split; [exact Hlow|]. split.
  - apply Hlast. vm_compute. reflexivity.
  - apply Hmi. vm_compute. left.
Defined.

(** What the fee-rate exit leaves behind holds only candidates not yet
    examined: here nothing is left, and transaction 0, examined before and
    rejected for its size, is not among them. *)
Example cutoff_after_a_rejection :
  exists c s,
    assembleBody crowdedPool smallBlockParams 10 [] = Finished (FeeRateCutoff c) s
    /\ mi s = [] /\ mapModifiedTx s = ∅
    /\ (0%nat ∉ inBlock (assembler s)).
Proof.
  eexists _, _. split; [vm_compute; reflexivity|].
  split; [vm_compute; reflexivity|]. split; [vm_compute; reflexivity|].
  apply (bool_decide_unpack _). vm_compute. exact I.
Qed.

Lemma tie_goes_to_mapTx_witness :
  selectCandidate samplePool tieState = Some (candidateFromMapTx samplePool 3%nat []).
Proof.
  apply (proj1 (tie_goes_to_mapTx samplePool tieState 3%nat []
                  (2%nat, mkModified 1000 100 1) eq_refl
                  ltac:(vm_compute; reflexivity))).
  vm_compute. reflexivity.
Defined.

Lemma ancestors_come_first_witness :
  ancestors_first samplePool (vtx (assembler sampleRunEnd)).
Proof.
  apply (proj2 (proj2 (ancestors_come_first samplePool sampleParams samplePool_consistent))
           10%nat [] (FeeRateCutoff (candidateFromMapTx samplePool 3%nat [0%nat]))).
  vm_compute. reflexivity.
Defined.

Example UpdatePackagesForAdded_sample :
  let r := UpdatePackagesForAdded samplePool {[ 0%nat; 1%nat ]} ∅ in
  r.1 = 1 /\ r.2 !! 2%nat = Some (mkModified 100 900 1) /\ r.2 !! 1%nat = None.
Proof. vm_compute. repeat split. Qed.

Lemma UpdatePackagesForAdded_adjusts_witness :
  exists e,
    (UpdatePackagesForAdded samplePool {[ 0%nat; 1%nat ]} ∅).2 !! 2%nat = Some e
    /\ nSizeWithAncestors e = 200 - 100
    /\ nModFeesWithAncestors e = 901 - 1
    /\ nSigOpCountWithAncestors e = 2 - 1.
Proof.
  destruct (proj1 (UpdatePackagesForAdded_adjusts samplePool {[ 0%nat; 1%nat ]} ∅)
              2%nat) as (e & He & Hs & Hf & Hg & _).
  - apply (bool_decide_unpack _). vm_compute. exact I.
  - vm_compute. discriminate.
  - exists e. split; [exact He|].
    split; [rewrite Hs | split; [rewrite Hf | rewrite Hg]]; vm_compute; reflexivity.
Defined.

Lemma no_duplicate_commitment_witness :
  (forall x, x ∈ inBlock (assembler sampleRunEnd) -> mapModifiedTx sampleRunEnd !! x = None)
  /\ NoDup (vtx (assembler sampleRunEnd)).
Proof.
  pose proof (proj2 (proj2 (no_duplicate_commitment samplePool sampleParams
                              samplePool_consistent)) 10%nat []) as H.
  rewrite sampleRun_end in H. exact H.
Defined.

Lemma fortune_payee_from_previous_height_witness :
  @GetFortuneAddressByHeight sampleBlockDatabase sampleChain (4 - 1)
  = Ok (@GetBlockCoinbaseMinerAddress sampleBlockDatabase
          (Z.lxor
             (Z.lxor
                (Z.lxor ((2 ^ 200 + 10) mod 2 ^ 64)
                        (((2 ^ 200 + 10) / 2 ^ 64) mod 2 ^ 64))
                (((2 ^ 200 + 10) / 2 ^ 128) mod 2 ^ 64))
             (((2 ^ 200 + 10) / 2 ^ 192) mod 2 ^ 64)
           mod 3)).
Proof.
  destruct (proj1 (proj2 (@fortune_payee_from_previous_height sampleKeyIO sampleBlockDatabase
                            sampleChain mainnetFortune [] 4 1000)))
    as (idx & Hidx & Hpayee).
  - vm_compute. split; congruence.
  - vm_compute in Hidx. injection Hidx as <-.
    apply Hpayee. vm_compute. split; reflexivity.
Defined.

(** ** The selection loop ends *)

Section Termination.
Variable pool : CTxMemPool.
Variable params : AssemblerParams.
Hypothesis Hpool : mempool_consistent pool.
Hypothesis Hclosed : mempool_closed pool.

Lemma step_cases (s s' : LoopState) :
  selection_invariant pool params s ->
  step pool params s = Continue s' ->
  (exists it, mi s = it :: mi s' /\ s' = advance s (mi s'))
  \/ (exists c,
        selectCandidate pool s = Some c /\ candidate_fits pool s c
        /\ (s' = dropFailed c s \/ s' = bumpConsecutiveFailed (dropFailed c s)
            \/ s' = commitPackage pool c (packageOf pool (assembler s) (iter c)) s)).
Proof.
  intros Hinv. unfold step.
  assert (Heval : forall c,
    selectCandidate pool s = Some c -> candidate_fits pool s c ->
    evaluateCandidate pool params c s = Continue s' ->
    s' = dropFailed c s \/ s' = bumpConsecutiveFailed (dropFailed c s)
    \/ s' = commitPackage pool c (packageOf pool (assembler s) (iter c)) s).
  { intros c _ _. unfold evaluateCandidate.
    destruct (bool_decide (iter c ∈ inBlock (assembler s))); [discriminate|].
    destruct (belowMinFeeRate params c); [discriminate|].
    destruct (TestPackage params (assembler s) (packageSize c) (packageSigOps c)); simpl.
    - destruct (TestPackageTransactions params (packageOf pool (assembler s) (iter c)));
        simpl; intros [= <-]; auto.
    - match goal with |- context [if ?b then _ else _] => destruct b end;
        [discriminate|]. intros [= <-]. auto. }
  destruct (mi s) as [|it rest] eqn:Emi.
  - destruct (bool_decide (mapModifiedTx s = ∅)); [discriminate|].
    destruct (selectCandidate pool s) as [c|] eqn:Esel; [|discriminate].
    intros He. right. exists c. split; [done|].
    assert (Hfit : candidate_fits pool s c).
    { apply (select_fits pool params Hpool s c Hinv Esel). intros it rest Hmi. congruence. }
    split; [done | by apply Heval].
  - destruct (SkipMapTxEntry (assembler s) it (mapModifiedTx s) (failedTx s)) eqn:Eskip.
    + intros [= <-]. left. exists it. done.
    + destruct (selectCandidate pool s) as [c|] eqn:Esel; [|discriminate].
      intros He. right. exists c. split; [done|].
      assert (Hfit : candidate_fits pool s c).
      { apply (select_fits pool params Hpool s c Hinv Esel).
        intros it' rest' Hmi. congruence. }
      split; [done | by apply Heval].
Qed.

Lemma candidate_source (s : LoopState) (c : Candidate) :
  selectCandidate pool s = Some c ->
  (fUsingModified c = false /\ mi s = iter c :: miNext c)
  \/ (fUsingModified c = true /\ miNext c = mi s
      /\ is_Some (mapModifiedTx s !! iter c)).
Proof.
  intros Hsel.
  destruct (selectCandidate_cases pool s c Hsel)
    as [(it & rest & Emi & -> & _)|(k & e & Hbest & -> & _)].
  - left. done.
  - right. apply bestModified_Some in Hbest as [Hlook _].
    split; [done|]. split; [done|]. by exists e.
Qed.

Lemma candidate_in_pool (s : LoopState) (c : Candidate) :
  selection_invariant pool params s -> tracked_in_pool pool s ->
  selectCandidate pool s = Some c ->
  iter c ∈ poolHandles pool.
Proof.
  intros Hinv Htr Hsel. destruct (candidate_source s c Hsel) as [[_ Hmi]|(_ & _ & Hk)].
  - destruct (inv_mi pool params s Hinv) as [passed Hp].
    unfold poolHandles. rewrite Hp, Hmi. apply elem_of_list_to_set, elem_of_app.
    right. by left.
  - by apply Htr.
Qed.

Lemma package_in_pool (s : LoopState) (c : Candidate) :
  iter c ∈ poolHandles pool ->
  packageOf pool (assembler s) (iter c) ⊆ poolHandles pool.
Proof.
  intros Hit x Hx. unfold packageOf, onlyUnconfirmed in Hx.
  apply elem_of_union in Hx as [Hx|Hx].
  - by apply elem_of_singleton in Hx as ->.
  - apply elem_of_difference in Hx as [Hx _].
    by apply (ancestors_in_pool pool Hclosed (iter c) Hit).
Qed.

Lemma commit_tracked (s : LoopState) (c : Candidate) :
  tracked_in_pool pool s -> iter c ∈ poolHandles pool ->
  tracked_in_pool pool (commitPackage pool c (packageOf pool (assembler s) (iter c)) s).
Proof.
  intros Htr Hit k [e He]. unfold commitPackage in He. cbn [mapModifiedTx] in He.
  set (P := packageOf pool (assembler s) (iter c)) in *.
  rewrite UpdatePackagesForAdded_lookup in He. unfold adjustedEntry in He.
  destruct (commit_structure pool (SortForBlock pool P) (assembler s) (mapModifiedTx s))
    as (_ & _ & Hm).
  assert (Hold : forall e0,
    (foldl (commitEntry pool) (assembler s, mapModifiedTx s) (SortForBlock pool P)).2 !! k
    = Some e0 -> k ∈ poolHandles pool).
  { intros e0. rewrite Hm. destruct (decide (k ∈ SortForBlock pool P)); [discriminate|].
    intros Hk. apply Htr. by exists e0. }
  destruct (decide (k ∈ P)) as [HkP|HkP]; [by apply (Hold e)|].
  cbn zeta in He.
  destruct (decide (addedAncestors pool P k = [])) as [Hnil|Hne]; [by apply (Hold e)|].
  destruct (addedAncestors pool P k) as [|p ps] eqn:Ep; [done|].
  assert (Hp : p ∈ addedAncestors pool P k) by (rewrite Ep; by left).
  unfold addedAncestors in Hp. apply list_elem_of_filter in Hp as [Hdesc Hp].
  apply elem_of_elements in Hp.
  apply (descendants_in_pool pool Hclosed p); [|done].
  by apply (package_in_pool s c Hit).
Qed.

Lemma step_tracked (s s' : LoopState) :
  selection_invariant pool params s -> tracked_in_pool pool s ->
  step pool params s = Continue s' ->
  tracked_in_pool pool s'.
Proof.
  intros Hinv Htr Hstep.
  assert (Hdrop : forall c, tracked_in_pool pool (dropFailed c s)).
  { intros c k [e He]. simpl in He. destruct (fUsingModified c).
    - apply lookup_delete_Some in He as [_ He]. apply Htr. by exists e.
    - apply Htr. by exists e. }
  destruct (step_cases s s' Hinv Hstep) as [(it & _ & ->)|(c & Hsel & Hfit & Hs)].
  - exact Htr.
  - destruct Hs as [-> | [-> | ->]].
    + apply Hdrop.
    + apply Hdrop.
    + apply commit_tracked; [done|]. by apply (candidate_in_pool s c).
Qed.

Lemma tracked_size (s : LoopState) :
  tracked_in_pool pool s -> (size (mapModifiedTx s) <= size (poolHandles pool))%nat.
Proof.
  intros Htr. rewrite <- (size_dom (D := gset txiter) (mapModifiedTx s)).
  apply subseteq_size. intros k Hk. apply Htr. by apply elem_of_dom.
Qed.

Lemma step_decreases (s s' : LoopState) :
  selection_invariant pool params s -> tracked_in_pool pool s ->
  step pool params s = Continue s' ->
  (iterationsLeft pool s' < iterationsLeft pool s)%nat.
Proof.
  intros Hinv Htr Hstep.
  pose proof (step_tracked s s' Hinv Htr Hstep) as Htr'.
  pose proof (tracked_size s' Htr') as Hsize'.
  unfold iterationsLeft.
  assert (Hdrop : forall c, selectCandidate pool s = Some c ->
    (S (size (poolHandles pool))
     * (length (mi (dropFailed c s))
        + size (poolHandles pool ∖ inBlock (assembler (dropFailed c s))))
     + size (mapModifiedTx (dropFailed c s))
     < S (size (poolHandles pool))
       * (length (mi s) + size (poolHandles pool ∖ inBlock (assembler s)))
       + size (mapModifiedTx s))%nat).
  { intros c Hsel. cbn [dropFailed mi assembler mapModifiedTx].
    destruct (candidate_source s c Hsel) as [[-> Hmi]|(-> & -> & Hk)].
    - rewrite Hmi. cbn [length]. lia.
    - rewrite (map_size_delete_Some _ _ Hk).
      assert (size (mapModifiedTx s) <> 0)%nat.
      { intros H0. apply map_size_empty_inv in H0. rewrite H0 in Hk.
        destruct Hk as [e He]. by rewrite lookup_empty in He. }
      lia. }
  destruct (step_cases s s' Hinv Hstep) as [(it & Hmi & ->)|(c & Hsel & Hfit & Hs)].
  - cbn [advance mi assembler mapModifiedTx]. rewrite Hmi. cbn [length]. lia.
  - destruct Hs as [-> | [-> | ->]].
    + by apply Hdrop.
    + by apply Hdrop.
    + pose proof (candidate_in_pool s c Hinv Htr Hsel) as Hit.
      destruct (commit_structure pool
                  (SortForBlock pool (packageOf pool (assembler s) (iter c)))
                  (assembler s) (mapModifiedTx s)) as (_ & Hb & _).
      rewrite SortForBlock_set in Hb.
      unfold commitPackage in *. cbn [mi assembler mapModifiedTx] in *.
      rewrite Hb.
      assert (Hlen : (length (miNext c) <= length (mi s))%nat).
      { destruct (fits_next pool s c Hfit) as [->|[it ->]]; cbn [length]; lia. }
      assert (Hsub : poolHandles pool
                     ∖ (packageOf pool (assembler s) (iter c) ∪ inBlock (assembler s))
                     ⊂ poolHandles pool ∖ inBlock (assembler s)).
      { split.
        - intros x Hx. apply elem_of_difference in Hx as [Hx1 Hx2].
          apply elem_of_difference. split; [done|].
          intros Hx3. apply Hx2, elem_of_union. by right.
        - intros Hc.
          assert (Hin : iter c ∈ poolHandles pool ∖ inBlock (assembler s)).
          { apply elem_of_difference. split; [done | apply (fits_fresh pool s c Hfit)]. }
          apply Hc in Hin. apply elem_of_difference in Hin as [_ Hin]. apply Hin.
          apply elem_of_union. left. unfold packageOf. apply elem_of_union. left.
          by apply elem_of_singleton. }
      apply subset_size in Hsub. nia.
Qed.

Lemma loop_finishes (fuel : nat) :
  forall s,
    selection_invariant pool params s -> tracked_in_pool pool s ->
    (iterationsLeft pool s < fuel)%nat ->
    exists why s', loop pool params fuel s = Finished why s'.
Proof.
  induction fuel as [|fuel IH]; intros s Hinv Htr Hfuel; [lia|].
  cbn [loop]. pose proof (step_preserves pool params Hpool s Hinv) as Hp.
  destruct (step pool params s) as [s'|why s'| |] eqn:Hstep; try done.
  - apply IH; [done | by apply (step_tracked s) |].
    pose proof (step_decreases s s' Hinv Htr Hstep). lia.
  - by exists why, s'.
Qed.

(** The selection loop of CreateNewBlock ends: with more fuel than
    [iterationsLeft] counts on entry, the run is finished. *)
Theorem addPackageTxs_terminates (fuel : nat) (qcSizes : list Z) :
  (iterationsLeft pool (loopEntry pool (blockAtEntry qcSizes)) < fuel)%nat ->
  exists why s, assembleBody pool params fuel qcSizes = Finished why s.
Proof.
  intros Hfuel. unfold assembleBody, addPackageTxs. fold (blockAtEntry qcSizes).
  apply loop_finishes; [by apply entry_state_invariant | | done].
  intros k [e He]. unfold loopEntry in He. cbn [mapModifiedTx] in He.
  exfalso. destruct (commitments_start qcSizes) as (Hb & _).
  rewrite UpdatePackagesForAdded_lookup in He. unfold adjustedEntry, addedAncestors in He.
  fold (blockAtEntry qcSizes) in Hb. rewrite Hb in He.
  rewrite elements_empty in He. rewrite decide_False in He by apply not_elem_of_empty.
  cbn zeta in He. rewrite decide_True in He by reflexivity.
  by rewrite lookup_empty in He.
Qed.

End Termination.

Example samplePool_selection_ends :
  exists why s, assembleBody samplePool sampleParams 41 [] = Finished why s.
Proof.
  apply (addPackageTxs_terminates samplePool sampleParams
           samplePool_consistent samplePool_closed).
  vm_compute. lia.
Qed.

(** * Further properties of the code *)

(** ** The payment schedule *)

Lemma quot_percentage_bounds (r p : Z) :
  0 <= r -> 0 <= p <= 100 -> 0 <= (r * p) ÷ 100 <= r.
Proof.
  intros Hr Hp. rewrite Z.quot_div_nonneg by nia. split.
  - apply Z.div_pos; nia.
  - apply Z.div_le_upper_bound; nia.
Qed.

Lemma quot_percentage_mono (r1 r2 p : Z) :
  0 <= r1 <= r2 -> 0 <= p -> (r1 * p) ÷ 100 <= (r2 * p) ÷ 100.
Proof.
  intros Hr Hp. rewrite !Z.quot_div_nonneg by nia.
  apply Z.div_le_mono; nia.
Qed.

(** X1: with percentages between 0 and 100 and rewards that are not
    negative and small enough for a hundred times the reward to fit an
    [int64_t], the lucky payment is between 0 and the reward at every
    height, and a larger reward never gives a smaller payment. *)
Theorem getFortunePaymentAmount_bounds (fp : FortunePayment) (height r1 r2 : Z) :
  0 <= r1 <= r2 ->
  r2 * 100 < 2 ^ 63 ->
  (forall rs, In rs (rewardStructures fp) -> 0 <= rewardPercentage rs <= 100) ->
  0 <= getFortunePaymentAmount fp height r1 <= r1
  /\ getFortunePaymentAmount fp height r1 <= getFortunePaymentAmount fp height r2.
Proof.
  intros Hr Hfit Hpct. unfold getFortunePaymentAmount.
  destruct (height <=? startBlock fp); [lia|].
  induction (rewardStructures fp) as [|rs l IH]; simpl; [lia|].
  destruct ((blockHeight rs =? INT_MAX) || (height <=? blockHeight rs)).
  - pose proof (Hpct rs (or_introl eq_refl)) as Hp.
    rewrite !to_int64_small by nia.
    pose proof (quot_percentage_bounds r1 (rewardPercentage rs)).
    pose proof (quot_percentage_mono r1 r2 (rewardPercentage rs)). lia.
  - apply IH. intros rs' Hin. apply Hpct. by right.
Qed.

Lemma scan_skips (pre : list FortuneRewardStructure) (rest : list FortuneRewardStructure)
    (height reward : Z) :
  (forall p, In p pre -> ~ rewardApplies height p) ->
  scanRewardStructures (pre ++ rest) height reward
  = scanRewardStructures rest height reward.
Proof.
  induction pre as [|p pre IH]; intros Hpre; simpl; [reflexivity|].
  assert (Hp : ~ rewardApplies height p) by (apply Hpre; by left).
  unfold rewardApplies in Hp.
  destruct (blockHeight p =? INT_MAX) eqn:E1; [lia|].
  destruct (height <=? blockHeight p) eqn:E2; [lia|]. simpl.
  apply IH. intros q Hq. apply Hpre. by right.
Qed.

(** X2: above the start block the first entry of the schedule that applies
    to the height decides the payment, whatever follows it: the payment is
    the reward times the entry's percentage, as an [int64_t], divided by 100
    with truncation, which is the exact quotient whenever the product fits
    an [int64_t]; when no entry applies (no sentinel, every bound below the
    height) the payment is 0. *)
Theorem getFortunePaymentAmount_first_applicable (fp : FortunePayment)
    (height reward : Z) :
  startBlock fp < height ->
  (forall pre rs post,
     rewardStructures fp = pre ++ rs :: post ->
     (forall p, In p pre -> ~ rewardApplies height p) ->
     rewardApplies height rs ->
     getFortunePaymentAmount fp height reward
     = to_int64 (reward * rewardPercentage rs) ÷ 100
     /\ (- 2 ^ 63 <= reward * rewardPercentage rs < 2 ^ 63 ->
         getFortunePaymentAmount fp height reward = (reward * rewardPercentage rs) ÷ 100))
  /\ ((forall p, In p (rewardStructures fp) -> ~ rewardApplies height p) ->
      getFortunePaymentAmount fp height reward = 0).
Proof.
  intros Hstart. unfold getFortunePaymentAmount.
  destruct (height <=? startBlock fp) eqn:E; [lia|]. split.
  - intros pre rs post -> Hpre Hrs. rewrite scan_skips by done. simpl.
    unfold rewardApplies in Hrs.
    assert (Hsel : (blockHeight rs =? INT_MAX) || (height <=? blockHeight rs) = true).
    { destruct (blockHeight rs =? INT_MAX) eqn:E1; [reflexivity|].
      destruct (height <=? blockHeight rs) eqn:E2; [reflexivity|]. lia. }
    rewrite Hsel. split; [reflexivity|].
    intros Hfit. by rewrite to_int64_small.
  - intros Hnone. rewrite <- (app_nil_r (rewardStructures fp)).
    by rewrite scan_skips.
Qed.

Lemma getFortunePaymentAmount_first_applicable_witness :
  getFortunePaymentAmount
    (mkFortune DEFAULT_FORTUNE_ADDRESS 10 [mkReward 100 7; mkReward INT_MAX 5; mkReward 500 9])
    200 1000 = (1000 * 5) ÷ 100.
Proof.
  apply (proj1 (getFortunePaymentAmount_first_applicable
                  (mkFortune DEFAULT_FORTUNE_ADDRESS 10
                     [mkReward 100 7; mkReward INT_MAX 5; mkReward 500 9])
                  200 1000 ltac:(simpl; lia))
           [mkReward 100 7] (mkReward INT_MAX 5) [mkReward 500 9] eq_refl).
  - intros p [<-|[]]. unfold rewardApplies, INT_MAX. simpl. lia.
  - left. reflexivity.
  - simpl. lia.
Defined.

Lemma getFortunePaymentAmount_bounds_witness :
  0 <= getFortunePaymentAmount mainnetFortune 7 1000 <= 1000
  /\ getFortunePaymentAmount mainnetFortune 7 1000
     <= getFortunePaymentAmount mainnetFortune 7 2000.
Proof.
  apply (getFortunePaymentAmount_bounds mainnetFortune 7 1000 2000); [lia | lia |].
  intros rs [<-|[]]. simpl. lia.
Defined.

(** The product of the code wraps where the reward is too large: a reward
    of 2^62 at five percent pays 2^62 / 100, not 5 * 2^62 / 100. *)
Example getFortunePaymentAmount_large_reward :
  getFortunePaymentAmount mainnetFortune 5 (2 ^ 62) = 46116860184273879.
Proof. vm_compute. reflexivity. Qed.

(** ** FillFortunePayment and IsBlockPayeeValid together *)

Section FortuneComposition.
Context `{keyio : KeyIO} `{blockdb : BlockDatabase}.

(** X3: with the schedule every network of chainparams.cpp installs (five
    percent up to the sentinel, start block 0), the output FillFortunePayment
    appends for a block at height [nBlockHeight] carries nothing up to
    height 1 and five percent of the reward, rounded towards zero, from
    height 2 on, and output 0 is reduced by as much; for rewards whose
    fivefold fits an [int64_t]. *)
Theorem chainparams_schedule_payment (chain : CChain) (vout vout' : list CTxOut)
    (nBlockHeight blockReward : Z) (out : CTxOut) :
  - 2 ^ 63 <= blockReward * 5 < 2 ^ 63 ->
  FillFortunePayment chain mainnetFortune vout nBlockHeight blockReward = Ok (vout', out) ->
  nValue out = (if nBlockHeight <=? 1 then 0 else (blockReward * 5) ÷ 100)
  /\ exists out0 rest,
       vout = out0 :: rest
       /\ vout' = mkTxOut (nValue out0 - nValue out) (scriptPubKey out0) :: rest ++ [out].
Proof.
  intros Hfit Hfill.
  destruct (FillFortunePayment_Ok _ _ _ _ _ _ _ Hfill)
    as (address & out0 & rest & _ & _ & Hv & Hout & Hv').
  split; [|by exists out0, rest].
  rewrite Hout. cbn [nValue]. unfold getFortunePaymentAmount, mainnetFortune.
  cbn [startBlock rewardStructures scanRewardStructures blockHeight rewardPercentage].
  rewrite Z.eqb_refl. cbn [orb]. rewrite to_int64_small by lia.
  destruct (nBlockHeight - 1 <=? 0) eqn:E1; destruct (nBlockHeight <=? 1) eqn:E2;
    try lia; reflexivity.
Qed.

(** X4: where FillFortunePayment succeeds it moves value from output 0 to
    one new last output: the number of outputs grows by one, the sum of the
    values and every script stay, and only the value of output 0 changes. *)
Theorem FillFortunePayment_moves_value (chain : CChain) (fp : FortunePayment)
    (vout vout' : list CTxOut) (nBlockHeight blockReward : Z) (out : CTxOut) :
  FillFortunePayment chain fp vout nBlockHeight blockReward = Ok (vout', out) ->
  sum_values vout' = sum_values vout
  /\ length vout' = S (length vout)
  /\ vout' !! length vout = Some out
  /\ nValue out = getFortunePaymentAmount fp (nBlockHeight - 1) blockReward
  /\ (forall i o, vout !! i = Some o ->
        exists o', vout' !! i = Some o'
          /\ scriptPubKey o' = scriptPubKey o
          /\ nValue o' = if decide (i = 0%nat) then nValue o - nValue out else nValue o).
Proof.
  intros Hfill.
  destruct (FillFortunePayment_Ok _ _ _ _ _ _ _ Hfill)
    as (address & out0 & rest & _ & _ & -> & Hout & ->).
  split; [|split; [|split; [|split]]].
  - simpl. rewrite sum_values_app. simpl. lia.
  - simpl. rewrite length_app. simpl. lia.
  - simpl. rewrite lookup_app_r by lia. by rewrite Nat.sub_diag.
  - by rewrite Hout.
  - intros i o Hi. destruct i as [|i]; simpl in *.
    + injection Hi as <-. eexists. split; [reflexivity|]. done.
    + exists o. split; [|done]. rewrite lookup_app_l; [done|].
      by eapply lookup_lt_Some.
Qed.

(** X5: the outputs FillFortunePayment produces for a block at height [H]
    are accepted by IsBlockPayeeValid at height [H - 1], the height the
    payment and the payee were computed for. *)
Theorem filled_payment_is_valid (chain : CChain) (fp : FortunePayment)
    (vout vout' : list CTxOut) (nBlockHeight blockReward : Z) (out : CTxOut) :
  FillFortunePayment chain fp vout nBlockHeight blockReward = Ok (vout', out) ->
  IsBlockPayeeValid chain fp vout' (nBlockHeight - 1) blockReward = Ok true.
Proof.
  intros Hfill.
  destruct (FillFortunePayment_Ok _ _ _ _ _ _ _ Hfill)
    as (address & out0 & rest & Ha & _ & -> & Hout & ->).
  unfold IsBlockPayeeValid. rewrite Ha. cbn [obind]. f_equal.
  apply existsb_exists. exists out. split.
  - right. apply in_or_app. right. by left.
  - rewrite Hout. cbn [nValue scriptPubKey].
    rewrite bool_decide_eq_true_2 by reflexivity.
    rewrite Z.leb_refl. reflexivity.
Qed.

(** X6: outputs can only help: when IsBlockPayeeValid accepts a list of
    outputs it accepts every list that contains them all, in any order. *)
Theorem IsBlockPayeeValid_more_outputs (chain : CChain) (fp : FortunePayment)
    (vout vout2 : list CTxOut) (height blockReward : Z) :
  IsBlockPayeeValid chain fp vout height blockReward = Ok true ->
  (forall o, In o vout -> In o vout2) ->
  IsBlockPayeeValid chain fp vout2 height blockReward = Ok true.
Proof.
  unfold IsBlockPayeeValid.
  destruct (GetFortuneAddressByHeight chain height) as [address| | |]; simpl;
    try discriminate.
  intros [= Hex] Hsub. f_equal.
  apply existsb_exists in Hex as (o & Hin & Ho).
  apply existsb_exists. exists o. split; [by apply Hsub | done].
Qed.

Lemma lucky_lookup (chain : CChain) (h : Z) :
  chain_heights_stored chain ->
  1 <= h <= Height chain -> h < 2 ^ 31 ->
  exists luckyHeight idx,
    GetFortuneAddressByHeight chain h = Ok (GetBlockCoinbaseMinerAddress luckyHeight)
    /\ 0 <= luckyHeight < h
    /\ chain_at chain luckyHeight = Some idx
    /\ nHeight idx = luckyHeight.
Proof.
  intros Hstored Hh H31.
  destruct (chain_at_in_range chain h) as [idx Hidx]; [lia|].
  assert (Hheight : nHeight idx = h).
  { unfold chain_at in Hidx.
    destruct ((h <? 0) || (Z.of_nat (length chain) <=? h)); [discriminate|].
    rewrite (Hstored _ _ Hidx). lia. }
  destruct (luckyHeightOf_valid idx) as [Hl Hrange]; [lia|].
  rewrite Hheight in Hl, Hrange.
  destruct (chain_at_in_range chain (hashWordsXor (blockHash idx) mod h)) as [idx' Hidx'];
    [lia|].
  exists (hashWordsXor (blockHash idx) mod h), idx'.
  split; [|split; [done|split; [done|]]].
  - unfold GetFortuneAddressByHeight.
    destruct (h <=? 0) eqn:E1; [lia|]. destruct (Height chain <? h) eqn:E2; [lia|].
    simpl. rewrite Hidx, Hl. reflexivity.
  - unfold chain_at in Hidx'.
    destruct ((hashWordsXor (blockHash idx) mod h <? 0)
              || (Z.of_nat (length chain) <=? hashWordsXor (blockHash idx) mod h));
      [discriminate|].
    rewrite (Hstored _ _ Hidx'). lia.
Qed.

(** X7: on a chain whose indexes store their own heights, the payee for a
    height [h] in [1, chain height] is the miner of a block of the active
    chain strictly below [h]; the lookup is never undefined there. *)
Theorem lucky_block_is_earlier (chain : CChain) (h : Z) :
  chain_heights_stored chain ->
  1 <= h <= Height chain -> h < 2 ^ 31 ->
  exists luckyHeight idx,
    GetFortuneAddressByHeight chain h = Ok (GetBlockCoinbaseMinerAddress luckyHeight)
    /\ 0 <= luckyHeight < h
    /\ chain_at chain luckyHeight = Some idx
    /\ nHeight idx = luckyHeight.
Proof. intros Hstored Hh H31. by apply lucky_lookup. Qed.

(** X8: on such a chain FillFortunePayment for a block at a height in
    [2, chain height + 1], given at least one output, either succeeds or
    throws for an invalid payee address: it throws exactly when the address
    of the lucky miner does not decode to a valid destination. *)
Theorem FillFortunePayment_outcome (chain : CChain) (fp : FortunePayment)
    (out0 : CTxOut) (rest : list CTxOut) (nBlockHeight blockReward : Z) :
  chain_heights_stored chain ->
  2 <= nBlockHeight <= Height chain + 1 -> nBlockHeight <= 2 ^ 31 ->
  exists address,
    GetFortuneAddressByHeight chain (nBlockHeight - 1) = Ok address
    /\ (IsValidDestination (DecodeDestination address) = false ->
        FillFortunePayment chain fp (out0 :: rest) nBlockHeight blockReward
        = Thrown ("Invalid Fortune Address: " ++ address))
    /\ (IsValidDestination (DecodeDestination address) = true ->
        exists vout' out,
          FillFortunePayment chain fp (out0 :: rest) nBlockHeight blockReward
          = Ok (vout', out)).
Proof.
  intros Hstored Hh H31.
  destruct (lucky_lookup chain (nBlockHeight - 1) Hstored)
    as (l & idx & Ha & _); [lia | lia|].
  exists (GetBlockCoinbaseMinerAddress l). split; [done|].
  unfold FillFortunePayment. rewrite Ha. simpl. split.
  - intros ->. reflexivity.
  - intros ->. simpl. eexists _, _. reflexivity.
Qed.

End FortuneComposition.

Lemma sampleChain_heights_stored : chain_heights_stored sampleChain.
Proof.
  intros i idx Hi. do 4 (destruct i as [|i]; [injection Hi as <-; reflexivity|]).
  discriminate Hi.
Qed.

Lemma sampleFill :
  @FillFortunePayment sampleKeyIO sampleBlockDatabase sampleChain mainnetFortune
    [@mkTxOut sampleKeyIO 1000 "Fpool"%string] 4 1000
  = Ok ([@mkTxOut sampleKeyIO 950 "Fpool"%string; @mkTxOut sampleKeyIO 50 "Fminer2"%string],
        @mkTxOut sampleKeyIO 50 "Fminer2"%string).
Proof. vm_compute. reflexivity. Qed.

Lemma chainparams_schedule_payment_witness :
  @nValue sampleKeyIO (@mkTxOut sampleKeyIO 50 "Fminer2"%string)
  = (if 4 <=? 1 then 0 else (1000 * 5) ÷ 100).
Proof.
  apply (proj1 (@chainparams_schedule_payment sampleKeyIO sampleBlockDatabase sampleChain
                  _ _ 4 1000 _ ltac:(lia) sampleFill)).
Defined.

Lemma FillFortunePayment_moves_value_witness :
  @sum_values sampleKeyIO
    [@mkTxOut sampleKeyIO 950 "Fpool"%string; @mkTxOut sampleKeyIO 50 "Fminer2"%string]
  = @sum_values sampleKeyIO [@mkTxOut sampleKeyIO 1000 "Fpool"%string].
Proof.
  exact (proj1 (@FillFortunePayment_moves_value sampleKeyIO sampleBlockDatabase sampleChain
                  mainnetFortune _ _ 4 1000 _ sampleFill)).
Defined.

Lemma filled_payment_is_valid_witness :
  @IsBlockPayeeValid sampleKeyIO sampleBlockDatabase sampleChain mainnetFortune
    [@mkTxOut sampleKeyIO 950 "Fpool"%string; @mkTxOut sampleKeyIO 50 "Fminer2"%string]
    (4 - 1) 1000 = Ok true.
Proof.
  exact (@filled_payment_is_valid sampleKeyIO sampleBlockDatabase sampleChain
           mainnetFortune _ _ 4 1000 _ sampleFill).
Defined.

Lemma IsBlockPayeeValid_more_outputs_witness :
  @IsBlockPayeeValid sampleKeyIO sampleBlockDatabase sampleChain mainnetFortune
    [@mkTxOut sampleKeyIO 50 "Fminer2"%string; @mkTxOut sampleKeyIO 1 "Fother"%string;
     @mkTxOut sampleKeyIO 949 "Fpool"%string]
    3 1000 = Ok true.
Proof.
  apply (@IsBlockPayeeValid_more_outputs sampleKeyIO sampleBlockDatabase sampleChain
           mainnetFortune [@mkTxOut sampleKeyIO 50 "Fminer2"%string]).
  - vm_compute. reflexivity.
  - intros o [<-|[]]. left. reflexivity.
Defined.

Lemma lucky_block_is_earlier_witness :
  exists luckyHeight idx,
    @GetFortuneAddressByHeight sampleBlockDatabase sampleChain 3
    = Ok (@GetBlockCoinbaseMinerAddress sampleBlockDatabase luckyHeight)
    /\ 0 <= luckyHeight < 3
    /\ chain_at sampleChain luckyHeight = Some idx
    /\ nHeight idx = luckyHeight.
Proof.
  apply (@lucky_block_is_earlier sampleBlockDatabase sampleChain 3
           sampleChain_heights_stored).
  - vm_compute. split; congruence.
  - lia.
Defined.

Lemma FillFortunePayment_outcome_witness :
  exists address,
    @GetFortuneAddressByHeight sampleBlockDatabase sampleChain (4 - 1) = Ok address
    /\ (@IsValidDestination sampleKeyIO (@DecodeDestination sampleKeyIO address) = false ->
        @FillFortunePayment sampleKeyIO sampleBlockDatabase sampleChain mainnetFortune
          [@mkTxOut sampleKeyIO 1000 "Fpool"%string] 4 1000
        = Thrown ("Invalid Fortune Address: " ++ address))
    /\ (@IsValidDestination sampleKeyIO (@DecodeDestination sampleKeyIO address) = true ->
        exists vout' out,
          @FillFortunePayment sampleKeyIO sampleBlockDatabase sampleChain mainnetFortune
            [@mkTxOut sampleKeyIO 1000 "Fpool"%string] 4 1000
          = Ok (vout', out)).
Proof.
  apply (@FillFortunePayment_outcome sampleKeyIO sampleBlockDatabase sampleChain
           mainnetFortune (@mkTxOut sampleKeyIO 1000 "Fpool"%string) [] 4 1000
           sampleChain_heights_stored).
  - vm_compute. split; congruence.
  - lia.
Defined.

(** ** The header time *)

Lemma UpdateTime_fields (GetNextWorkRequired : CBlockHeader -> Z)
    (fPowAllowMinDifficultyBlocks : bool) (medianTimePast adjustedTime : Z)
    (pblock : CBlockHeader) :
  0 <= nTime pblock ->
  medianTimePast + 1 < 2 ^ 32 -> adjustedTime < 2 ^ 32 ->
  nTime (UpdateTime GetNextWorkRequired fPowAllowMinDifficultyBlocks
           medianTimePast adjustedTime pblock).1
  = Z.max (nTime pblock) (Z.max (medianTimePast + 1) adjustedTime).
Proof.
  intros Hold Hmtp Hadj. unfold UpdateTime. cbn [fst].
  destruct (nTime pblock <? Z.max (medianTimePast + 1) adjustedTime) eqn:E.
  - destruct fPowAllowMinDifficultyBlocks; cbn [nTime];
      rewrite wrap32_small by lia; lia.
  - destruct fPowAllowMinDifficultyBlocks; cbn [nTime]; lia.
Qed.

(** X9: for times that fit the 32-bit field, UpdateTime leaves the header
    with exactly the later of its old time and [max(median time past + 1,
    adjusted time)]: the time never goes back, ends above the median time
    past and not below the adjusted time.  The value returned is the new time less
    the old one, the previous block hash and the nonce are never touched,
    and the bits only when minimum-difficulty blocks are allowed. *)
Theorem UpdateTime_time_bounds (GetNextWorkRequired : CBlockHeader -> Z)
    (fPowAllowMinDifficultyBlocks : bool) (medianTimePast adjustedTime : Z)
    (pblock : CBlockHeader) :
  0 <= nTime pblock ->
  medianTimePast + 1 < 2 ^ 32 -> adjustedTime < 2 ^ 32 ->
  nTime (UpdateTime GetNextWorkRequired fPowAllowMinDifficultyBlocks
           medianTimePast adjustedTime pblock).1
  = Z.max (nTime pblock) (Z.max (medianTimePast + 1) adjustedTime)
  /\ nTime pblock
     <= nTime (UpdateTime GetNextWorkRequired fPowAllowMinDifficultyBlocks
                 medianTimePast adjustedTime pblock).1
  /\ medianTimePast
     < nTime (UpdateTime GetNextWorkRequired fPowAllowMinDifficultyBlocks
                medianTimePast adjustedTime pblock).1
  /\ adjustedTime
     <= nTime (UpdateTime GetNextWorkRequired fPowAllowMinDifficultyBlocks
                 medianTimePast adjustedTime pblock).1
  /\ (UpdateTime GetNextWorkRequired fPowAllowMinDifficultyBlocks
        medianTimePast adjustedTime pblock).2
     = Z.max (medianTimePast + 1) adjustedTime - nTime pblock
  /\ hashPrevBlock (UpdateTime GetNextWorkRequired fPowAllowMinDifficultyBlocks
                      medianTimePast adjustedTime pblock).1 = hashPrevBlock pblock
  /\ nNonce (UpdateTime GetNextWorkRequired fPowAllowMinDifficultyBlocks
               medianTimePast adjustedTime pblock).1 = nNonce pblock
  /\ (fPowAllowMinDifficultyBlocks = false ->
      nBits (UpdateTime GetNextWorkRequired fPowAllowMinDifficultyBlocks
               medianTimePast adjustedTime pblock).1 = nBits pblock).
Proof.
  intros Hold Hmtp Hadj.
  pose proof (UpdateTime_fields GetNextWorkRequired fPowAllowMinDifficultyBlocks
                medianTimePast adjustedTime pblock Hold Hmtp Hadj) as Ht.
  rewrite Ht. split; [reflexivity|]. repeat split; try lia.
  - unfold UpdateTime. cbn [fst].
    destruct (nTime pblock <? Z.max (medianTimePast + 1) adjustedTime),
      fPowAllowMinDifficultyBlocks; reflexivity.
  - unfold UpdateTime. cbn [fst].
    destruct (nTime pblock <? Z.max (medianTimePast + 1) adjustedTime),
      fPowAllowMinDifficultyBlocks; reflexivity.
  - intros ->. unfold UpdateTime. cbn [fst].
    destruct (nTime pblock <? Z.max (medianTimePast + 1) adjustedTime); reflexivity.
Qed.

Lemma UpdateTime_time_bounds_witness :
  nTime (UpdateTime (fun _ => 486604799) false 1500 1400 (mkHeader 7 1000 486604799 0)).1
  = Z.max 1000 (Z.max (1500 + 1) 1400)
  /\ nTime (mkHeader 7 1000 486604799 0)
     <= nTime (UpdateTime (fun _ => 486604799) false 1500 1400
                 (mkHeader 7 1000 486604799 0)).1
  /\ 1500 < nTime (UpdateTime (fun _ => 486604799) false 1500 1400
                     (mkHeader 7 1000 486604799 0)).1
  /\ (UpdateTime (fun _ => 486604799) false 1500 1400 (mkHeader 7 1000 486604799 0)).2
     = 501.
Proof.
  destruct (UpdateTime_time_bounds (fun _ => 486604799) false 1500 1400
              (mkHeader 7 1000 486604799 0)) as (H0 & H1 & H2 & _ & H4 & _);
    [simpl; lia | lia | lia |].
  split; [exact H0|]. split; [exact H1|]. split; [exact H2 | exact H4].
Defined.

(** X10: once UpdateTime has run, a further call with clocks that have not
    advanced (or have run backwards) returns a value that is not positive
    and leaves the header time where it is; the miner rebuilds the block
    only on a negative value, that is when the clocks are strictly behind
    the header. *)
Theorem UpdateTime_settles (GetNextWorkRequired : CBlockHeader -> Z)
    (fPowAllowMinDifficultyBlocks : bool)
    (medianTimePast adjustedTime medianTimePast' adjustedTime' : Z)
    (pblock : CBlockHeader) :
  0 <= nTime pblock ->
  medianTimePast + 1 < 2 ^ 32 -> adjustedTime < 2 ^ 32 ->
  Z.max (medianTimePast' + 1) adjustedTime' <= Z.max (medianTimePast + 1) adjustedTime ->
  (UpdateTime GetNextWorkRequired fPowAllowMinDifficultyBlocks medianTimePast' adjustedTime'
     (UpdateTime GetNextWorkRequired fPowAllowMinDifficultyBlocks
        medianTimePast adjustedTime pblock).1).2 <= 0
  /\ nTime (UpdateTime GetNextWorkRequired fPowAllowMinDifficultyBlocks
              medianTimePast' adjustedTime'
              (UpdateTime GetNextWorkRequired fPowAllowMinDifficultyBlocks
                 medianTimePast adjustedTime pblock).1).1
     = nTime (UpdateTime GetNextWorkRequired fPowAllowMinDifficultyBlocks
                medianTimePast adjustedTime pblock).1
  /\ ((UpdateTime GetNextWorkRequired fPowAllowMinDifficultyBlocks
         medianTimePast' adjustedTime'
         (UpdateTime GetNextWorkRequired fPowAllowMinDifficultyBlocks
            medianTimePast adjustedTime pblock).1).2 < 0
      <-> Z.max (medianTimePast' + 1) adjustedTime'
          < Z.max (nTime pblock) (Z.max (medianTimePast + 1) adjustedTime)).
Proof.
  intros Hold Hmtp Hadj Hclock.
  pose proof (UpdateTime_fields GetNextWorkRequired fPowAllowMinDifficultyBlocks
                medianTimePast adjustedTime pblock Hold Hmtp Hadj) as Ht.
  set (p1 := (UpdateTime GetNextWorkRequired fPowAllowMinDifficultyBlocks
                medianTimePast adjustedTime pblock).1) in *.
  assert (Hret : (UpdateTime GetNextWorkRequired fPowAllowMinDifficultyBlocks
                    medianTimePast' adjustedTime' p1).2
                 = Z.max (medianTimePast' + 1) adjustedTime' - nTime p1) by reflexivity.
  rewrite Hret. split; [lia|]. split; [|lia].
  unfold UpdateTime at 1. cbn [fst].
  destruct (nTime p1 <? Z.max (medianTimePast' + 1) adjustedTime') eqn:E; [lia|].
  destruct fPowAllowMinDifficultyBlocks; reflexivity.
Qed.

Lemma UpdateTime_settles_witness :
  (UpdateTime (fun _ => 486604799) true 1500 1400
     (UpdateTime (fun _ => 486604799) true 1500 1400 (mkHeader 7 1000 486604799 0)).1).2 <= 0
  /\ nTime (UpdateTime (fun _ => 486604799) true 1500 1400
              (UpdateTime (fun _ => 486604799) true 1500 1400
                 (mkHeader 7 1000 486604799 0)).1).1
     = nTime (UpdateTime (fun _ => 486604799) true 1500 1400
                (mkHeader 7 1000 486604799 0)).1.
Proof.
  destruct (UpdateTime_settles (fun _ => 486604799) true 1500 1400 1500 1400
              (mkHeader 7 1000 486604799 0)) as (H1 & H2 & _);
    [simpl; lia | lia | lia | lia |].
  split; [exact H1 | exact H2].
Defined.

(** ** The extra nonce *)

(** X11: as long as the coinbase script stays within 100 bytes and the
    height below [INT_MAX], any number of calls of IncrementExtraNonce for
    one block succeed; the counter restarts at 1 when the previous-block
    hash differs from the one remembered, goes on from its value otherwise,
    and grows by one per call (modulo 2^32); the hash remembered afterwards
    is the block's. *)
Theorem IncrementExtraNonce_counts (scriptSigSize : Z -> Z -> Z) (pblock : CBlockHeader)
    (prevHeight : Z) (calls : nat) (st : ExtraNonceState) :
  (forall h n, scriptSigSize h n <= 100) ->
  prevHeight < INT_MAX ->
  exists st',
    IncrementExtraNonceTimes scriptSigSize pblock prevHeight (S calls) st = Ok st'
    /\ staticHashPrevBlock st' = hashPrevBlock pblock
    /\ nExtraNonce st'
       = wrap32 ((if staticHashPrevBlock st =? hashPrevBlock pblock
                  then nExtraNonce st else 0) + Z.of_nat (S calls)).
Proof.
  intros Hsize Hheight.
  assert (Hone : forall st0,
    IncrementExtraNonce scriptSigSize pblock prevHeight st0
    = Ok {| staticHashPrevBlock := hashPrevBlock pblock;
            nExtraNonce := wrap32 ((if staticHashPrevBlock st0 =? hashPrevBlock pblock
                                    then nExtraNonce st0 else 0) + 1) |}).
  { intros st0. unfold IncrementExtraNonce.
    destruct (INT_MAX <=? prevHeight) eqn:Eh; [lia|].
    destruct (staticHashPrevBlock st0 =? hashPrevBlock pblock) eqn:E; cbn [negb].
    - apply Z.eqb_eq in E.
      match goal with |- (if ?b then _ else _) = _ => destruct b eqn:Es end.
      + pose proof (Hsize (wrap32 (prevHeight + 1)) (wrap32 (nExtraNonce st0 + 1))).
        simpl in Es. lia.
      + simpl. by rewrite E.
    - match goal with |- (if ?b then _ else _) = _ => destruct b eqn:Es end.
      + pose proof (Hsize (wrap32 (prevHeight + 1)) (wrap32 (0 + 1))). simpl in Es. lia.
      + reflexivity. }
  revert st. induction calls as [|calls IH]; intros st.
  - cbn [IncrementExtraNonceTimes]. rewrite Hone. cbn [obind].
    eexists. split; [reflexivity|]. split; reflexivity.
  - cbn [IncrementExtraNonceTimes]. rewrite Hone. cbn [obind].
    destruct (IH {| staticHashPrevBlock := hashPrevBlock pblock;
                    nExtraNonce := wrap32 ((if staticHashPrevBlock st =? hashPrevBlock pblock
                                            then nExtraNonce st else 0) + 1) |})
      as (st' & Hrun & Hhash & Hn).
    exists st'. split; [exact Hrun|]. split; [exact Hhash|].
    rewrite Hn. cbn [staticHashPrevBlock nExtraNonce]. rewrite Z.eqb_refl.
    rewrite wrap32_succ. f_equal. lia.
Qed.

Lemma IncrementExtraNonce_counts_witness :
  exists st',
    IncrementExtraNonceTimes (fun _ _ => 10) (mkHeader 7 1000 486604799 0) 41 3
      (mkExtraNonce 6 900) = Ok st'
    /\ staticHashPrevBlock st' = 7
    /\ nExtraNonce st' = 3.
Proof.
  destruct (IncrementExtraNonce_counts (fun _ _ => 10) (mkHeader 7 1000 486604799 0) 41 2
              (mkExtraNonce 6 900)) as (st' & H1 & H2 & H3).
  - intros _ _. lia.
  - unfold INT_MAX. lia.
  - exists st'. split; [exact H1|]. split; [exact H2 | exact H3].
Defined.

(** ** One round of the nonce search *)

Lemma land_255 (n : Z) : Z.land n 255 = n mod 256.
Proof. change 255 with (Z.ones 8). rewrite Z.land_ones by lia. reflexivity. Qed.

Lemma roundEnd_above (n : Z) : n < roundEnd n <= n + 256.
Proof. unfold roundEnd. Z.to_euclidean_division_equations. lia. Qed.

Lemma searchRound_result (powHash : Z -> Z) (hashTarget : Z) (fuel : nat) :
  forall nNonce0 nHashesDone0,
    0 <= nNonce0 < 2 ^ 32 -> 0 <= nHashesDone0 < 2 ^ 64 ->
    roundEnd nNonce0 - nNonce0 <= Z.of_nat fuel ->
    match searchRound fuel powHash hashTarget nNonce0 nHashesDone0 with
    | SolutionFound n h =>
        nNonce0 <= n < roundEnd nNonce0
        /\ powHash n <= hashTarget
        /\ (forall m, nNonce0 <= m < n -> hashTarget < powHash m)
        /\ h = wrap64 (nHashesDone0 + (n - nNonce0))
    | RoundOver n h =>
        n = wrap32 (roundEnd nNonce0)
        /\ (forall m, nNonce0 <= m < roundEnd nNonce0 -> hashTarget < powHash m)
        /\ h = wrap64 (nHashesDone0 + (roundEnd nNonce0 - nNonce0))
    | RoundUnfinished => False
    end.
Proof.
  induction fuel as [|fuel IH]; intros n h Hn Hh Hfuel.
  { pose proof (roundEnd_above n). lia. }
  pose proof (roundEnd_above n) as Hend.
  cbn [searchRound]. destruct (powHash n <=? hashTarget) eqn:Epow.
  { split; [lia|]. split; [lia|]. split; [intros m Hm; lia|].
    rewrite Z.sub_diag, Z.add_0_r. by rewrite wrap64_small. }
  rewrite land_255.
  destruct (decide (n + 1 = 2 ^ 32)) as [Hlast|Hlast].
  - assert (Hn' : n = 2 ^ 32 - 1) by lia. subst n.
    replace (wrap32 (2 ^ 32 - 1 + 1)) with 0 by (vm_compute; reflexivity).
    replace (roundEnd (2 ^ 32 - 1)) with (2 ^ 32) in * by (vm_compute; reflexivity).
    cbn [Z.eqb Z.modulo]. change (0 mod 256 =? 0) with true. cbn iota.
    split; [vm_compute; reflexivity|]. split.
    + intros m Hm. assert (m = 2 ^ 32 - 1) as -> by lia. lia.
    + f_equal; lia.
  - rewrite (wrap32_small (n + 1)) by lia.
    destruct ((n + 1) mod 256 =? 0) eqn:Emod.
    + assert (Hre : roundEnd n = n + 1).
      { unfold roundEnd. apply Z.eqb_eq in Emod. revert Emod.
        Z.to_euclidean_division_equations. lia. }
      rewrite Hre. split; [by rewrite wrap32_small by lia|]. split.
      * intros m Hm. assert (m = n) as -> by lia. lia.
      * f_equal; lia.
    + assert (Hre : roundEnd (n + 1) = roundEnd n).
      { unfold roundEnd. apply Z.eqb_neq in Emod. revert Emod.
        Z.to_euclidean_division_equations. lia. }
      pose proof (wrap64_range (h + 1)) as Hh'.
      specialize (IH (n + 1) (wrap64 (h + 1)) ltac:(lia) Hh' ltac:(lia)).
      destruct (searchRound fuel powHash hashTarget (n + 1) (wrap64 (h + 1)))
        as [n' h'|n' h'|]; [| |done].
      * destruct IH as (H1 & H2 & H3 & H4). rewrite Hre in H1.
        split; [lia|]. split; [done|]. split.
        -- intros m Hm. destruct (decide (m = n)) as [->|Hne]; [lia|]. apply H3. lia.
        -- rewrite H4, wrap64_succ. f_equal; lia.
      * destruct IH as (H1 & H3 & H4). rewrite Hre in H1, H3, H4.
        split; [done|]. split.
        -- intros m Hm. destruct (decide (m = n)) as [->|Hne]; [lia|]. apply H3. lia.
        -- rewrite H4, wrap64_succ. f_equal; lia.
Qed.

(** X12: a round of the miner's inner loop started at a 32-bit nonce ends
    within 256 hashes.  When it ends with a solution, the nonce is the
    first one from the start whose hash is not above the target; when it
    ends without, every nonce from the start up to the next multiple of 256
    has a hash above the target and the nonce stands at that multiple
    (modulo 2^32); [nHashesDone] has grown by the number of nonces left
    behind. *)
Theorem searchRound_first_solution (powHash : Z -> Z) (hashTarget : Z) (fuel : nat)
    (nNonce0 nHashesDone0 : Z) :
  0 <= nNonce0 < 2 ^ 32 -> 0 <= nHashesDone0 < 2 ^ 64 ->
  (256 <= fuel)%nat ->
  match searchRound fuel powHash hashTarget nNonce0 nHashesDone0 with
  | SolutionFound n h =>
      nNonce0 <= n < roundEnd nNonce0
      /\ powHash n <= hashTarget
      /\ (forall m, nNonce0 <= m < n -> hashTarget < powHash m)
      /\ h = wrap64 (nHashesDone0 + (n - nNonce0))
  | RoundOver n h =>
      n = wrap32 (roundEnd nNonce0)
      /\ (forall m, nNonce0 <= m < roundEnd nNonce0 -> hashTarget < powHash m)
      /\ h = wrap64 (nHashesDone0 + (roundEnd nNonce0 - nNonce0))
  | RoundUnfinished => False
  end.
Proof.
  intros Hn Hh Hfuel. apply searchRound_result; [done | done |].
  pose proof (roundEnd_above nNonce0). lia.
Qed.

Lemma searchRound_first_solution_witness :
  match searchRound 256 (fun n => 1000 - n) 490 500 0 with
  | SolutionFound n h =>
      500 <= n < roundEnd 500
      /\ 1000 - n <= 490
      /\ (forall m, 500 <= m < n -> 490 < 1000 - m)
      /\ h = wrap64 (0 + (n - 500))
  | RoundOver n h =>
      n = wrap32 (roundEnd 500)
      /\ (forall m, 500 <= m < roundEnd 500 -> 490 < 1000 - m)
      /\ h = wrap64 (0 + (roundEnd 500 - 500))
  | RoundUnfinished => False
  end.
Proof.
  apply (searchRound_first_solution (fun n => 1000 - n) 490 256 500 0); lia.
Defined.

Example searchRound_sample :
  searchRound 256 (fun n => 1000 - n) 490 500 0 = SolutionFound 510 10
  /\ searchRound 256 (fun n => 1000) 490 500 0 = RoundOver 512 12.
Proof. split; vm_compute; reflexivity. Qed.

(** ** The template vectors *)

Lemma commitments_counters (qcSizes : list Z) :
  nFees (blockAtEntry qcSizes) = 0
  /\ nSpecialTxFees (blockAtEntry qcSizes) = 0
  /\ nBlockTx (blockAtEntry qcSizes) = wrap64 (Z.of_nat (length qcSizes)).
Proof.
  unfold blockAtEntry.
  assert (Hgen : forall a,
    0 <= nBlockTx a < 2 ^ 64 ->
    nFees (foldl addCommitment a qcSizes) = nFees a
    /\ nSpecialTxFees (foldl addCommitment a qcSizes) = nSpecialTxFees a
    /\ nBlockTx (foldl addCommitment a qcSizes)
       = wrap64 (nBlockTx a + Z.of_nat (length qcSizes))).
  { induction qcSizes as [|q l IH]; intros a Ha; cbn [foldl].
    - cbn [length]. rewrite Z.add_0_r, wrap64_small by done. done.
    - destruct (IH (addCommitment a q)) as (H1 & H2 & H3).
      { cbn [addCommitment nBlockTx]. apply wrap64_range. }
      rewrite H1, H2, H3. cbn [addCommitment nFees nSpecialTxFees nBlockTx].
      split; [done|]. split; [done|]. rewrite wrap64_succ. f_equal.
      cbn [length]. lia. }
  destruct (Hgen resetBlock) as (H1 & H2 & H3); [simpl; lia|].
  rewrite H1, H2, H3. simpl. done.
Qed.

Lemma zsum_app (a b : list Z) : zsum (a ++ b) = zsum a + zsum b.
Proof. unfold zsum. induction a as [|x a IH]; simpl; lia. Qed.

Lemma zsum_zeros {A : Type} (l : list A) : zsum (map (fun _ => 0) l) = 0.
Proof. unfold zsum. induction l as [|x l IH]; simpl; lia. Qed.

Lemma zsum_map (f : txiter -> Z) (l : list txiter) : zsum (map f l) = listSum f l.
Proof. unfold zsum, listSum. induction l as [|x l IH]; simpl; lia. Qed.

Lemma AddToBlock_with_template_fold (pool : CTxMemPool) (added : list txiter) :
  forall a t,
    vtx (foldl (AddToBlock_with_template pool) (a, t) added).1 = vtx a ++ added
    /\ nFees (foldl (AddToBlock_with_template pool) (a, t) added).1
       = nFees a + listSum (fun x => GetFee (entry pool x)) added
    /\ nSpecialTxFees (foldl (AddToBlock_with_template pool) (a, t) added).1
       = nSpecialTxFees a + listSum (fun x => GetSpecialTxFee (entry pool x)) added
    /\ vTxFees (foldl (AddToBlock_with_template pool) (a, t) added).2
       = vTxFees t ++ map (fun x => GetFee (entry pool x)) added
    /\ vSpecialTxFees (foldl (AddToBlock_with_template pool) (a, t) added).2
       = vSpecialTxFees t ++ map (fun x => GetSpecialTxFee (entry pool x)) added
    /\ vTxSigOps (foldl (AddToBlock_with_template pool) (a, t) added).2
       = vTxSigOps t ++ map (fun x => GetSigOpCount (entry pool x)) added.
Proof.
  induction added as [|x l IH]; intros a t; cbn [foldl].
  - simpl. rewrite !app_nil_r. repeat split; lia.
  - destruct (IH (AddToBlock pool a x) (AddToBlock_template pool t x))
      as (H1 & H2 & H3 & H4 & H5 & H6).
    unfold AddToBlock_with_template at 2 4 6 8 10 12. cbn [fst snd].
    rewrite H1, H2, H3, H4, H5, H6. simpl. rewrite <- !app_assoc. simpl.
    repeat split; lia.
Qed.

(** X13: whatever transactions AddToBlock is called for after the dummy
    coinbase and the quorum commitments, the three vectors of the finished
    template have one slot per block transaction (coinbase, commitments,
    then the added transactions in order, each with its fee, special fee
    and sigop count), and the fee vectors sum to zero: slot 0 holds minus
    the total of the others. *)
Theorem template_vectors_aligned (pool : CTxMemPool) (qcSizes : list Z)
    (added : list txiter) (coinbaseSigOps : Z) :
  vtx (foldl (AddToBlock_with_template pool)
         (blockAtEntry qcSizes, templateAtEntry qcSizes) added).1 = added
  /\ (forall t,
        t = finishTemplate
              (foldl (AddToBlock_with_template pool)
                 (blockAtEntry qcSizes, templateAtEntry qcSizes) added).1
              coinbaseSigOps
              (foldl (AddToBlock_with_template pool)
                 (blockAtEntry qcSizes, templateAtEntry qcSizes) added).2 ->
        length (vTxFees t) = S (length qcSizes + length added)
        /\ length (vSpecialTxFees t) = S (length qcSizes + length added)
        /\ length (vTxSigOps t) = S (length qcSizes + length added)
        /\ zsum (vTxFees t) = 0
        /\ zsum (vSpecialTxFees t) = 0
        /\ vTxSigOps t !! 0%nat = Some coinbaseSigOps
        /\ forall i x, added !! i = Some x ->
             vTxFees t !! S (length qcSizes + i) = Some (GetFee (entry pool x))
             /\ vSpecialTxFees t !! S (length qcSizes + i)
                = Some (GetSpecialTxFee (entry pool x))
             /\ vTxSigOps t !! S (length qcSizes + i)
                = Some (GetSigOpCount (entry pool x))).
Proof.
  destruct (AddToBlock_with_template_fold pool added (blockAtEntry qcSizes)
              (templateAtEntry qcSizes)) as (H1 & H2 & H3 & H4 & H5 & H6).
  destruct (commitments_start qcSizes) as (_ & Hv & _). fold (blockAtEntry qcSizes) in Hv.
  destruct (commitments_counters qcSizes) as (Hf & Hsf & _).
  rewrite Hv in H1. rewrite Hf in H2. rewrite Hsf in H3.
  split; [exact H1|]. intros t ->. unfold finishTemplate.
  cbn [vTxFees vSpecialTxFees vTxSigOps]. rewrite H2, H3, H4, H5, H6.
  cbn [templateAtEntry vTxFees vSpecialTxFees vTxSigOps app].
  cbn [list_insert insert]. simpl.
  rewrite !length_app, !length_map.
  assert (Hlook : forall (f : txiter -> Z) i x, added !! i = Some x ->
            (map (fun _ : Z => 0) qcSizes ++ map f added) !! (length qcSizes + i)%nat
            = Some (f x)).
  { intros f i x Hi. rewrite lookup_app_r by (rewrite length_map; lia).
    rewrite length_map. replace (length qcSizes + i - length qcSizes)%nat with i by lia.
    by rewrite list_lookup_fmap, Hi. }
  split; [done|]. split; [done|]. split; [done|].
  split; [unfold zsum; simpl; fold (zsum (map (fun _ : Z => 0) qcSizes
                       ++ map (fun x => GetFee (entry pool x)) added));
          rewrite zsum_app, zsum_zeros, zsum_map; lia|].
  split; [unfold zsum; simpl; fold (zsum (map (fun _ : Z => 0) qcSizes
                       ++ map (fun x => GetSpecialTxFee (entry pool x)) added));
          rewrite zsum_app, zsum_zeros, zsum_map; lia|].
  split; [done|].
  intros i x Hi. split; [|split].
  - exact (Hlook (fun x => GetFee (entry pool x)) i x Hi).
  - exact (Hlook (fun x => GetSpecialTxFee (entry pool x)) i x Hi).
  - exact (Hlook (fun x => GetSigOpCount (entry pool x)) i x Hi).
Qed.

(** ** What one iteration does *)

Lemma forallb_false {A : Type} (f : A -> bool) (l : list A) :
  forallb f l = false -> exists x, In x l /\ f x = false.
Proof.
  induction l as [|x l IH]; simpl; [discriminate|].
  destruct (f x) eqn:E; simpl.
  - intros H. destruct (IH H) as (y & Hy & Hf). exists y. split; [by right | done].
  - intros _. exists x. split; [by left | done].
Qed.

Section IterationProperties.
Variable pool : CTxMemPool.
Variable params : AssemblerParams.

Lemma commit_fold (l : list txiter) :
  forall (a : BlockAssembler) (m : gmap txiter CTxMemPoolModifiedEntry),
    (foldl (commitEntry pool) (a, m) l).1 = foldl (AddToBlock pool) a l.
Proof.
  induction l as [|x l IH]; intros a m; cbn [foldl]; [done|].
  unfold commitEntry at 2. cbn [fst snd]. apply IH.
Qed.

Lemma evaluateCandidate_iteration (c : Candidate) (s s' : LoopState) :
  selectCandidate pool s = Some c ->
  (forall it rest, mi s = it :: rest ->
     SkipMapTxEntry (assembler s) it (mapModifiedTx s) (failedTx s) = false) ->
  evaluateCandidate pool params c s = Continue s'
  \/ (exists why, evaluateCandidate pool params c s = Leave why s') ->
  iteration pool params s s'.
Proof.
  intros Hsel Hskip. unfold evaluateCandidate.
  destruct (bool_decide (iter c ∈ inBlock (assembler s))) eqn:Ein.
  { intros [H|[why H]]; discriminate. }
  apply bool_decide_eq_false in Ein.
  destruct (belowMinFeeRate params c).
  { intros [H|[why H]]; [discriminate|]. injection H as _ <-. by apply iteration_idle. }
  destruct (TestPackage params (assembler s) (packageSize c) (packageSigOps c)) eqn:Et;
    cbn [negb].
  - destruct (TestPackageTransactions params (packageOf pool (assembler s) (iter c)))
      eqn:Ett; cbn [negb].
    + intros [H|[why H]]; [|discriminate]. injection H as <-.
      by apply (iteration_commit pool params s _ c).
    + intros [H|[why H]]; [|discriminate]. injection H as <-.
      apply (iteration_reject pool params s _ c); try done. by right.
  - match goal with |- context [if ?b then _ else _] => destruct b end.
    + intros [H|[why H]]; [discriminate|]. injection H as _ <-.
      apply (iteration_reject pool params s _ c); try done. by left.
    + intros [H|[why H]]; [|discriminate]. injection H as <-.
      apply (iteration_reject pool params s _ c); try done. by left.
Qed.

Lemma step_iteration (s s' : LoopState) :
  step pool params s = Continue s' \/ (exists why, step pool params s = Leave why s') ->
  iteration pool params s s'.
Proof.
  unfold step. destruct (mi s) as [|it rest] eqn:Emi.
  - destruct (bool_decide (mapModifiedTx s = ∅)).
    { intros [H|[why H]]; [discriminate|]. injection H as _ <-. by apply iteration_idle. }
    destruct (selectCandidate pool s) as [c|] eqn:Esel.
    + apply evaluateCandidate_iteration; [done|]. intros it rest Hmi. congruence.
    + intros [H|[why H]]; discriminate.
  - destruct (SkipMapTxEntry (assembler s) it (mapModifiedTx s) (failedTx s)) eqn:Eskip.
    { intros [H|[why H]]; [|discriminate]. injection H as <-. by apply iteration_idle. }
    destruct (selectCandidate pool s) as [c|] eqn:Esel.
    + apply evaluateCandidate_iteration; [done|]. intros it' rest' Hmi. congruence.
    + intros [H|[why H]]; discriminate.
Qed.

Lemma visits_iterations (Inv : LoopState -> Prop) (s0 : LoopState) :
  Inv s0 ->
  (forall s s', visits pool params s0 s -> Inv s -> iteration pool params s s' -> Inv s') ->
  forall s, visits pool params s0 s -> Inv s.
Proof.
  intros H0 Hstep s Hv.
  induction Hv as [|s s' Hv IH Hs|s why s' Hv IH Hs]; [done| |].
  - apply (Hstep s s' Hv IH). apply step_iteration. by left.
  - apply (Hstep s s' Hv IH). apply step_iteration. right. by exists why.
Qed.

Lemma AddToBlock_fold (l : list txiter) :
  forall a,
    0 <= nBlockTx a < 2 ^ 64 ->
    vtx (foldl (AddToBlock pool) a l) = vtx a ++ l
    /\ nFees (foldl (AddToBlock pool) a l)
       = nFees a + listSum (fun x => GetFee (entry pool x)) l
    /\ nSpecialTxFees (foldl (AddToBlock pool) a l)
       = nSpecialTxFees a + listSum (fun x => GetSpecialTxFee (entry pool x)) l
    /\ nBlockTx (foldl (AddToBlock pool) a l)
       = wrap64 (nBlockTx a + Z.of_nat (length l)).
Proof.
  induction l as [|x l IH]; intros a Ha; cbn [foldl].
  - cbn [listSum foldr length Z.of_nat]. rewrite app_nil_r, !Z.add_0_r.
    split; [done|]. split; [done|]. split; [done|]. by rewrite wrap64_small.
  - destruct (IH (AddToBlock pool a x)) as (H1 & H2 & H3 & H4).
    { cbn [AddToBlock nBlockTx]. apply wrap64_range. }
    rewrite H1, H2, H3, H4. cbn [AddToBlock vtx nFees nSpecialTxFees nBlockTx].
    rewrite <- app_assoc.
    change (listSum (fun x => GetFee (entry pool x)) (x :: l))
      with (GetFee (entry pool x) + listSum (fun x => GetFee (entry pool x)) l).
    change (listSum (fun x => GetSpecialTxFee (entry pool x)) (x :: l))
      with (GetSpecialTxFee (entry pool x)
            + listSum (fun x => GetSpecialTxFee (entry pool x)) l).
    split; [done|]. split; [lia|]. split; [lia|].
    rewrite wrap64_succ. f_equal. cbn [length]. lia.
Qed.

Lemma visits_shape (qcSizes : list Z) (s : LoopState) :
  visits pool params (loopEntry pool (blockAtEntry qcSizes)) s ->
  assembler s = foldl (AddToBlock pool) (blockAtEntry qcSizes) (vtx (assembler s))
  /\ forall x, x ∈ vtx (assembler s) -> finalAndSafe params x = true.
Proof.
  apply (visits_iterations
           (fun s => assembler s
                     = foldl (AddToBlock pool) (blockAtEntry qcSizes) (vtx (assembler s))
                     /\ forall x, x ∈ vtx (assembler s) -> finalAndSafe params x = true)).
  - destruct (commitments_start qcSizes) as (_ & Hv & _). fold (blockAtEntry qcSizes) in Hv.
    unfold loopEntry. cbn [assembler]. rewrite Hv. split; [reflexivity|].
    intros x Hx. by apply not_elem_of_nil in Hx.
  - intros s1 s' _ [IH1 IH2] [Ha _ _|c _ _ _ _ Ha _ _|c _ _ _ _ Htx ->].
    + by rewrite Ha.
    + by rewrite Ha.
    + set (P := packageOf pool (assembler s1) (iter c)) in *.
      destruct (commit_structure pool (SortForBlock pool P) (assembler s1)
                  (mapModifiedTx s1)) as (Hv & _ & _).
      unfold commitPackage. cbn [assembler]. fold P. split.
      * rewrite Hv, foldl_app, <- IH1. apply commit_fold.
      * intros x Hx. rewrite Hv in Hx. apply elem_of_app in Hx as [Hx|Hx]; [by apply IH2|].
        apply SortForBlock_elem in Hx. unfold TestPackageTransactions in Htx.
        rewrite forallb_forall in Htx. apply Htx.
        apply list_elem_of_In. by apply elem_of_elements.
Qed.

(** X14: at every point of the selection loop and in the block it ends
    with, [nFees] is the sum of the fees of the mempool transactions in the
    block (the base fees of [GetFee], not the modified fees the selection
    compares), [nSpecialTxFees] the sum of their special fees, and [nBlockTx]
    counts the quorum commitments and those transactions (modulo 2^64). *)
Theorem fees_are_those_of_the_block (qcSizes : list Z) (s : LoopState) :
  visits pool params (loopEntry pool (blockAtEntry qcSizes)) s ->
  nFees (assembler s) = listSum (fun x => GetFee (entry pool x)) (vtx (assembler s))
  /\ nSpecialTxFees (assembler s)
     = listSum (fun x => GetSpecialTxFee (entry pool x)) (vtx (assembler s))
  /\ nBlockTx (assembler s)
     = wrap64 (Z.of_nat (length qcSizes) + Z.of_nat (length (vtx (assembler s)))).
Proof.
  intros Hv. destruct (visits_shape qcSizes s Hv) as [Hs _].
  destruct (commitments_counters qcSizes) as (Hf & Hsf & Htx).
  destruct (AddToBlock_fold (vtx (assembler s)) (blockAtEntry qcSizes))
    as (_ & H2 & H3 & H4).
  { rewrite Htx. apply wrap64_range. }
  rewrite <- Hs in H2, H3, H4. rewrite H2, H3, H4, Hf, Hsf, Htx.
  split; [lia|]. split; [lia|]. apply wrap64_succ.
Qed.

(** X15: every transaction the selection loop has put into the block
    passed both tests of TestPackageTransactions: it is final at the
    block's height and lock-time cutoff and safe for mining. *)
Theorem only_final_and_safe_committed (qcSizes : list Z) (s : LoopState) (x : txiter) :
  visits pool params (loopEntry pool (blockAtEntry qcSizes)) s ->
  x ∈ vtx (assembler s) ->
  IsFinalTx params x = true /\ IsTxSafeForMining params x = true.
Proof.
  intros Hv Hx. destruct (visits_shape qcSizes s Hv) as [_ Hok].
  apply andb_true_iff. apply (Hok x Hx).
Qed.

End IterationProperties.

(** ** The tracker and the failed set *)

Section TrackerProperties.
Variable pool : CTxMemPool.
Variable params : AssemblerParams.
Hypothesis Hpool : mempool_consistent pool.

Lemma tracker_same (s s' : LoopState) :
  assembler s' = assembler s -> mapModifiedTx s' = mapModifiedTx s ->
  failedTx s' = failedTx s ->
  tracker_invariant pool s -> tracker_invariant pool s'.
Proof.
  intros Ha Hm Hf [H1 H2]. constructor; rewrite ?Ha, ?Hm, ?Hf; done.
Qed.

Lemma tracker_reject (s : LoopState) (c : Candidate) :
  tracker_invariant pool s -> tracker_invariant pool (dropFailed c s).
Proof.
  intros [H1 H2]. constructor; cbn [dropFailed assembler mapModifiedTx failedTx].
  - intros d e He Hd. destruct (fUsingModified c); [|by apply H1].
    apply lookup_delete_Some in He as [_ He]. apply H1; [done|].
    intros Hf. apply Hd, elem_of_union. by right.
  - intros d Hd Hnone Hfail. destruct (fUsingModified c); [|by apply H2].
    apply H2; [done| |].
    + apply lookup_delete_None in Hnone as [Heq|Hnone]; [|done].
      exfalso. apply Hfail, elem_of_union. left. by apply elem_of_singleton.
    + intros Hf. apply Hfail, elem_of_union. by right.
Qed.

Lemma untouched_package (f : txiter -> Z) (a : BlockAssembler) (d : txiter) :
  CalculateMemPoolAncestors pool d ## inBlock a ->
  sumOver f (packageOf pool a d) = f d + sumOver f (CalculateMemPoolAncestors pool d).
Proof.
  intros Hdisj. rewrite (sumOver_packageOf pool Hpool). f_equal. f_equal.
  apply set_eq. intros x. rewrite elem_of_difference. split; [tauto|].
  intros Hx. split; [done|]. intros Hb. by apply (Hdisj x).
Qed.

Lemma tracker_commit (s : LoopState) (c : Candidate) :
  selection_invariant pool params s ->
  candidate_fits pool s c ->
  tracker_invariant pool s ->
  tracker_invariant pool (commitPackage pool c (packageOf pool (assembler s) (iter c)) s).
Proof.
  intros Hinv Hfit [Hex Hun].
  set (P := packageOf pool (assembler s) (iter c)).
  set (a := assembler s) in *.
  destruct (commit_structure pool (SortForBlock pool P) a (mapModifiedTx s))
    as (Hv & Hb & Hm).
  rewrite SortForBlock_set in Hb.
  assert (Hdisj : P ## inBlock a) by (apply packageOf_disjoint, (fits_fresh pool s c Hfit)).
  assert (Hkeep : forall k, k ∉ P ->
            (foldl (commitEntry pool) (a, mapModifiedTx s) (SortForBlock pool P)).2 !! k
            = mapModifiedTx s !! k).
  { intros k Hk. rewrite Hm. apply decide_False. by rewrite SortForBlock_elem. }
  assert (Hgone : forall k, k ∈ P ->
            (foldl (commitEntry pool) (a, mapModifiedTx s) (SortForBlock pool P)).2 !! k
            = None).
  { intros k Hk. rewrite Hm. apply decide_True. by rewrite SortForBlock_elem. }
  assert (Hparents : forall d, d ∉ P -> d ∈ inBlock a -> addedAncestors pool P d = []).
  { intros d HdP Hd. destruct (addedAncestors pool P d) as [|p ps] eqn:Ep; [done|].
    exfalso. assert (Hp : p ∈ addedAncestors pool P d) by (rewrite Ep; by left).
    rewrite (addedAncestors_perm pool Hpool P d HdP) in Hp.
    apply elem_of_elements, elem_of_intersection in Hp as [Hp1 Hp2].
    apply (Hdisj p Hp2). by apply (inv_closed pool params s Hinv d Hd). }
  constructor; unfold commitPackage; cbn [assembler mapModifiedTx failedTx]; fold P a.
  - intros d e' He' Hfail. rewrite UpdatePackagesForAdded_lookup in He'.
    unfold adjustedEntry in He'.
    destruct (decide (d ∈ P)) as [HdP|HdP]; [rewrite Hgone in He' by done; discriminate|].
    cbn zeta in He'. rewrite Hkeep in He' by done.
    pose proof (remaining_split pool Hpool (txSize pool) a _ P d Hb Hdisj) as Hs1.
    pose proof (remaining_split pool Hpool (txSigOps pool) a _ P d Hb Hdisj) as Hs2.
    pose proof (remaining_split pool Hpool (txModFee pool) a _ P d Hb Hdisj) as Hs3.
    pose proof (sumOver_perm (txSize pool) _ _ (addedAncestors_perm pool Hpool P d HdP)) as Hp1.
    pose proof (sumOver_perm (txSigOps pool) _ _ (addedAncestors_perm pool Hpool P d HdP)) as Hp2.
    pose proof (sumOver_perm (txModFee pool) _ _ (addedAncestors_perm pool Hpool P d HdP)) as Hp3.
    destruct (decide (addedAncestors pool P d = [])) as [Hnil|Hne].
    + rewrite Hnil in Hp1, Hp2, Hp3. cbn [listSum foldr] in Hp1, Hp2, Hp3.
      destruct (Hex d e' He' Hfail) as (E1 & E2 & E3).
      split; [lia|]. split; [lia|]. intros Hfees. specialize (E3 Hfees). lia.
    + injection He' as <-.
      assert (Hout : d ∉ inBlock a).
      { intros Hd. by apply Hne, Hparents. }
      destruct (subtractAll_figures pool (addedAncestors pool P d)
                  (default (ModifiedEntryOf pool d) (mapModifiedTx s !! d)) Hne)
        as (Hf1 & Hf2 & Hf3).
      fold (txModFee pool) in Hf2.
      destruct (packageOf_bounds pool Hpool
                  (foldl (commitEntry pool) (a, mapModifiedTx s) (SortForBlock pool P)).1 d)
        as (Hq1 & Hq2 & Hq3 & Hq4).
      pose proof (size_bounded pool Hpool d) as Hb1.
      pose proof (sigops_bounded pool Hpool d) as Hb2.
      rewrite Hf1, Hf2, Hf3.
      destruct (mapModifiedTx s !! d) as [e|] eqn:Ed; cbn [default from_option id].
      * destruct (Hex d e Ed Hfail) as (E1 & E2 & E3).
        rewrite wrap64_small, wrap32_small by lia.
        split; [lia|]. split; [lia|]. intros Hfees. specialize (E3 Hfees). lia.
      * pose proof (Hun d Hout Ed Hfail) as Hfresh.
        pose proof (untouched_package (txSize pool) a d Hfresh) as U1.
        pose proof (untouched_package (txSigOps pool) a d Hfresh) as U2.
        pose proof (untouched_package (txModFee pool) a d Hfresh) as U3.
        cbn [ModifiedEntryOf nSizeWithAncestors nSigOpCountWithAncestors
             nModFeesWithAncestors].
        pose proof (size_with_ancestors pool Hpool d) as Sz.
        pose proof (sigops_with_ancestors pool Hpool d) as Sg.
        rewrite wrap64_small, wrap32_small by lia.
        split; [lia|]. split; [lia|]. intros Hfees. rewrite (Hfees d). lia.
  - intros d Hd Hnone Hfail. rewrite Hb in Hd.
    assert (HdP : d ∉ P) by (intros H; apply Hd, elem_of_union; by left).
    assert (Hda : d ∉ inBlock a) by (intros H; apply Hd, elem_of_union; by right).
    rewrite UpdatePackagesForAdded_lookup in Hnone. unfold adjustedEntry in Hnone.
    rewrite decide_False in Hnone by done. cbn zeta in Hnone.
    destruct (decide (addedAncestors pool P d = [])) as [Hnil|Hne]; [|discriminate].
    rewrite Hkeep in Hnone by done.
    pose proof (Hun d Hda Hnone Hfail) as Hfresh.
    pose proof (addedAncestors_perm pool Hpool P d HdP) as Hperm.
    rewrite Hnil in Hperm.
    intros x Hx1 Hx2. rewrite Hb in Hx2. apply elem_of_union in Hx2 as [Hx2|Hx2].
    + assert (Hin : x ∈ elements (CalculateMemPoolAncestors pool d ∩ P)).
      { apply elem_of_elements, elem_of_intersection. done. }
      rewrite <- Hperm in Hin. by apply not_elem_of_nil in Hin.
    + by apply (Hfresh x).
Qed.

Lemma commitPackage_counters (s : LoopState) (c : Candidate) :
  params_in_range params ->
  candidate_fits pool s c ->
  within_capacity params (assembler s) ->
  TestPackage params (assembler s) (packageSize c) (packageSigOps c) = true ->
  nBlockSize (assembler (commitPackage pool c (packageOf pool (assembler s) (iter c)) s))
  = nBlockSize (assembler s)
    + sumOver (txSize pool) (packageOf pool (assembler s) (iter c))
  /\ nBlockSigOps (assembler (commitPackage pool c (packageOf pool (assembler s) (iter c)) s))
     = nBlockSigOps (assembler s)
       + sumOver (txSigOps pool) (packageOf pool (assembler s) (iter c))
  /\ nBlockSize (assembler s)
     + sumOver (txSize pool) (packageOf pool (assembler s) (iter c))
     < nBlockMaxSize params
  /\ nBlockSigOps (assembler s)
     + sumOver (txSigOps pool) (packageOf pool (assembler s) (iter c))
     < nMaxBlockSigOps params.
Proof.
  intros Hrange Hfit Hcap Htest.
  destruct Hrange as [[_ Hmax1] [_ Hmax2]].
  destruct Hcap as [[Hs0 Hs1] [Hg0 Hg1]].
  destruct (fits_size pool s c Hfit) as [Hp1 Hp2].
  destruct (fits_sigops pool s c Hfit) as [Hq1 Hq2].
  pose proof (size_bounded pool Hpool (iter c)) as Hb1.
  pose proof (sigops_bounded pool Hpool (iter c)) as Hb2.
  destruct (packageOf_bounds pool Hpool (assembler s) (iter c)) as (Hpos & _ & Hnn & _).
  set (P := packageOf pool (assembler s) (iter c)) in *.
  unfold TestPackage in Htest.
  destruct (nBlockMaxSize params <=? wrap64 (nBlockSize (assembler s) + packageSize c))
    eqn:E1; [discriminate|].
  destruct (nMaxBlockSigOps params <=? wrap32 (nBlockSigOps (assembler s) + packageSigOps c))
    eqn:E2; [discriminate|].
  rewrite wrap64_small in E1 by lia. rewrite wrap32_small in E2 by lia.
  assert (Hs : forall x, 0 <= txSize pool x).
  { intros x. pose proof (tx_size_positive pool Hpool x). lia. }
  pose proof (sumOver_perm (txSize pool) P _ (SortForBlock_perm pool P)) as Hl1.
  pose proof (sumOver_perm (txSigOps pool) P _ (SortForBlock_perm pool P)) as Hl2.
  destruct (commit_counters pool (SortForBlock pool P) Hs (tx_sigops_nonneg pool Hpool)
              (assembler s) (mapModifiedTx s)) as [Hc1 Hc2]; try lia.
  unfold commitPackage. cbn [assembler]. fold P.
  rewrite Hc1, Hc2. lia.
Qed.

Lemma failed_same (s s' : LoopState) :
  assembler s' = assembler s -> failedTx s' = failedTx s ->
  failed_blocked pool params s -> failed_blocked pool params s'.
Proof. intros Ha Hf H f. rewrite Ha, Hf. apply H. Qed.

Lemma failed_reject (s : LoopState) (c : Candidate) :
  params_in_range params ->
  within_capacity params (assembler s) ->
  tracker_invariant pool s ->
  selectCandidate pool s = Some c ->
  candidate_fits pool s c ->
  TestPackage params (assembler s) (packageSize c) (packageSigOps c) = false
  \/ TestPackageTransactions params (packageOf pool (assembler s) (iter c)) = false ->
  failed_blocked pool params s ->
  failed_blocked pool params (dropFailed c s).
Proof.
  intros Hrange Hcap Htr Hsel Hfit Htest Hfb f.
  cbn [dropFailed assembler failedTx].
  destruct (selectCandidate_cases pool s c Hsel)
    as [(it & rest & _ & -> & _)|(k & e & Hbest & -> & _)].
  { cbn [candidateFromMapTx fUsingModified]. apply Hfb. }
  cbn [candidateFromModified fUsingModified iter packageSize packageSigOps fst snd] in *.
  intros Hf. apply elem_of_union in Hf as [Hf|Hf]; [|by apply Hfb].
  apply elem_of_singleton in Hf as ->.
  destruct (decide (k ∈ failedTx s)) as [Hold|Hnew]; [by apply Hfb|].
  split; [apply (fits_fresh pool s _ Hfit)|].
  apply bestModified_Some in Hbest as [Hlook _]. cbn [fst snd] in Hlook.
  destruct (trk_exact pool s Htr k e Hlook Hnew) as (E1 & E2 & _).
  destruct Htest as [Htest|Htest].
  - destruct Hrange as [[_ Hmax1] [_ Hmax2]].
    destruct Hcap as [[Hs0 Hs1] [Hg0 Hg1]].
    destruct (packageOf_bounds pool Hpool (assembler s) k) as (Hpos & Hle & Hnn & Hle2).
    pose proof (size_bounded pool Hpool k) as Hb1.
    pose proof (sigops_bounded pool Hpool k) as Hb2.
    unfold TestPackage in Htest. rewrite E1, E2 in Htest.
    rewrite wrap64_small, wrap32_small in Htest by lia.
    destruct (nBlockMaxSize params
              <=? nBlockSize (assembler s)
                  + sumOver (txSize pool) (packageOf pool (assembler s) k)) eqn:Es.
    + right. left. lia.
    + destruct (nMaxBlockSigOps params
                <=? nBlockSigOps (assembler s)
                    + sumOver (txSigOps pool) (packageOf pool (assembler s) k)) eqn:Eg;
        [|discriminate].
      right. right. lia.
  - left. unfold TestPackageTransactions in Htest.
    apply forallb_false in Htest as (x & Hx & Hbad). exists x. split; [|exact Hbad].
    apply list_elem_of_In in Hx. by apply elem_of_elements in Hx.
Qed.

Lemma failed_commit (s : LoopState) (c : Candidate) :
  params_in_range params ->
  within_capacity params (assembler s) ->
  candidate_fits pool s c ->
  TestPackage params (assembler s) (packageSize c) (packageSigOps c) = true ->
  TestPackageTransactions params (packageOf pool (assembler s) (iter c)) = true ->
  failed_blocked pool params s ->
  failed_blocked pool params
    (commitPackage pool c (packageOf pool (assembler s) (iter c)) s).
Proof.
  intros Hrange Hcap Hfit Htest Htx Hfb.
  destruct (commitPackage_counters s c Hrange Hfit Hcap Htest) as (Hc1 & Hc2 & Hlt1 & Hlt2).
  set (P := packageOf pool (assembler s) (iter c)) in *.
  set (a := assembler s) in *.
  destruct (commit_structure pool (SortForBlock pool P) a (mapModifiedTx s))
    as (_ & Hb & _).
  rewrite SortForBlock_set in Hb.
  assert (Hdisj : P ## inBlock a) by (apply packageOf_disjoint, (fits_fresh pool s c Hfit)).
  assert (Hsz : forall x, 0 <= txSize pool x).
  { intros x. pose proof (tx_size_positive pool Hpool x). lia. }
  pose proof (tx_sigops_nonneg pool Hpool) as Hsg.
  assert (Hgood : forall x, x ∈ P -> finalAndSafe params x = true).
  { intros x Hx. unfold TestPackageTransactions in Htx. rewrite forallb_forall in Htx.
    apply Htx. apply list_elem_of_In. by apply elem_of_elements. }
  intros f Hf. unfold commitPackage in Hf, Hc1, Hc2 |- *. cbn [failedTx] in Hf.
  cbn [assembler] in *. fold P a in Hc1, Hc2 |- *.
  destruct (Hfb f Hf) as [Hout Hbl]. fold a in Hout, Hbl.
  assert (HfP : f ∉ P).
  { intros HfP.
    assert (Hsub : packageOf pool a f ⊆ P).
    { intros x Hx. unfold packageOf, onlyUnconfirmed in Hx.
      apply elem_of_union in Hx as [Hx|Hx].
      - by apply elem_of_singleton in Hx as ->.
      - apply elem_of_difference in Hx as [Hx Hxb].
        pose proof (packageOf_ancestors pool Hpool a (iter c) f HfP x Hx) as Hin.
        apply elem_of_union in Hin as [Hin|Hin]; done. }
    pose proof (sumOver_subseteq (txSize pool) _ _ Hsz Hsub).
    pose proof (sumOver_subseteq (txSigOps pool) _ _ Hsg Hsub).
    destruct Hbl as [(x & Hx & Hbad)|[Hbl|Hbl]]; [|lia|lia].
    rewrite (Hgood x (Hsub x Hx)) in Hbad. discriminate. }
  split.
  { rewrite Hb. intros Hc. apply elem_of_union in Hc as [Hc|Hc]; done. }
  pose proof (remaining_split pool Hpool (txSize pool) a _ P f Hb Hdisj) as Hs1.
  pose proof (remaining_split pool Hpool (txSigOps pool) a _ P f Hb Hdisj) as Hs2.
  assert (Hpart : CalculateMemPoolAncestors pool f ∩ P ⊆ P).
  { intros x Hx. by apply elem_of_intersection in Hx as [_ Hx]. }
  pose proof (sumOver_subseteq (txSize pool) _ _ Hsz Hpart).
  pose proof (sumOver_subseteq (txSigOps pool) _ _ Hsg Hpart).
  destruct Hbl as [(x & Hx & Hbad)|[Hbl|Hbl]].
  - left. exists x. split; [|exact Hbad].
    unfold packageOf, onlyUnconfirmed in Hx |- *.
    apply elem_of_union in Hx as [Hx|Hx]; apply elem_of_union; [by left|]. right.
    apply elem_of_difference in Hx as [Hx Hxb]. apply elem_of_difference.
    split; [done|]. rewrite Hb. intros Hc. apply elem_of_union in Hc as [Hc|Hc]; [|done].
    rewrite (Hgood x Hc) in Hbad. discriminate.
  - right. left. rewrite Hc1. lia.
  - right. right. rewrite Hc2. lia.
Qed.

Lemma entry_tracker_empty (qcSizes : list Z) (k : txiter) :
  mapModifiedTx (loopEntry pool (blockAtEntry qcSizes)) !! k = None.
Proof.
  unfold loopEntry. cbn [mapModifiedTx].
  destruct (commitments_start qcSizes) as (Hb & _). fold (blockAtEntry qcSizes) in Hb.
  rewrite UpdatePackagesForAdded_lookup. unfold adjustedEntry, addedAncestors.
  rewrite Hb, elements_empty. rewrite decide_False by apply not_elem_of_empty.
  cbn zeta. rewrite decide_True by reflexivity. apply lookup_empty.
Qed.

Lemma visits_tracker (qcSizes : list Z) (s : LoopState) :
  visits pool params (loopEntry pool (blockAtEntry qcSizes)) s ->
  tracker_invariant pool s.
Proof.
  apply (visits_iterations pool params (tracker_invariant pool)).
  - constructor.
    + intros d e He. rewrite entry_tracker_empty in He. discriminate.
    + intros d _ _ _ x _ Hx. unfold loopEntry in Hx. cbn [assembler] in Hx.
      destruct (commitments_start qcSizes) as (Hb & _). fold (blockAtEntry qcSizes) in Hb.
      rewrite Hb in Hx. by apply not_elem_of_empty in Hx.
  - intros s1 s' Hv1 IH Hit.
    pose proof (visits_invariant pool params Hpool _ s1
                  (entry_state_invariant pool params qcSizes) Hv1) as Hinv.
    destruct Hit as [Ha Hm Hf|c Hsel Hfresh Hskip Ht Ha Hm Hf|c Hsel Hfresh Hskip Ht Htx ->].
    + by apply (tracker_same s1).
    + apply (tracker_same (dropFailed c s1)); [exact Ha | exact Hm | exact Hf |].
      by apply tracker_reject.
    + apply tracker_commit; [done | | done].
      apply (select_fits pool params Hpool s1 c Hinv Hsel Hskip).
Qed.

Lemma visits_failed_blocked (qcSizes : list Z) (s : LoopState) :
  params_in_range params ->
  within_capacity params (blockAtEntry qcSizes) ->
  visits pool params (loopEntry pool (blockAtEntry qcSizes)) s ->
  failed_blocked pool params s.
Proof.
  intros Hrange Hcap0.
  apply (visits_iterations pool params (failed_blocked pool params)).
  - intros f Hf. unfold loopEntry in Hf. cbn [failedTx] in Hf.
    by apply not_elem_of_empty in Hf.
  - intros s1 s' Hv1 IH Hit.
    pose proof (visits_invariant pool params Hpool _ s1
                  (entry_state_invariant pool params qcSizes) Hv1) as Hinv.
    pose proof (visits_capacity pool params Hpool _ s1 Hrange
                  (entry_state_invariant pool params qcSizes) Hcap0 Hv1) as Hcap.
    destruct Hit as [Ha Hm Hf|c Hsel Hfresh Hskip Ht Ha Hm Hf|c Hsel Hfresh Hskip Ht Htx ->].
    + by apply (failed_same s1).
    + pose proof (select_fits pool params Hpool s1 c Hinv Hsel Hskip) as Hfit.
      apply (failed_same (dropFailed c s1)); [exact Ha | exact Hf |].
      apply failed_reject; try done. by apply (visits_tracker qcSizes).
    + pose proof (select_fits pool params Hpool s1 c Hinv Hsel Hskip) as Hfit.
      by apply failed_commit.
Qed.

Lemma visits_counters (qcSizes : list Z) (s : LoopState) :
  params_in_range params ->
  within_capacity params (blockAtEntry qcSizes) ->
  visits pool params (loopEntry pool (blockAtEntry qcSizes)) s ->
  counters_exact pool (blockAtEntry qcSizes) s.
Proof.
  intros Hrange Hcap0.
  apply (visits_iterations pool params (counters_exact pool (blockAtEntry qcSizes))).
  - unfold counters_exact, loopEntry. cbn [assembler].
    destruct (commitments_start qcSizes) as (_ & Hv & _). fold (blockAtEntry qcSizes) in Hv.
    rewrite Hv. cbn [listSum foldr]. lia.
  - intros s1 s' Hv1 IH Hit.
    pose proof (visits_invariant pool params Hpool _ s1
                  (entry_state_invariant pool params qcSizes) Hv1) as Hinv.
    pose proof (visits_capacity pool params Hpool _ s1 Hrange
                  (entry_state_invariant pool params qcSizes) Hcap0 Hv1) as Hcap.
    unfold counters_exact in *.
    destruct Hit as [Ha Hm Hf|c Hsel Hfresh Hskip Ht Ha Hm Hf|c Hsel Hfresh Hskip Ht Htx ->].
    + by rewrite Ha.
    + by rewrite Ha.
    + pose proof (select_fits pool params Hpool s1 c Hinv Hsel Hskip) as Hfit.
      destruct (commitPackage_counters s1 c Hrange Hfit Hcap Ht) as (Hc1 & Hc2 & _).
      rewrite Hc1, Hc2.
      set (P := packageOf pool (assembler s1) (iter c)) in *.
      destruct (commit_structure pool (SortForBlock pool P) (assembler s1)
                  (mapModifiedTx s1)) as (Hv & _ & _).
      unfold commitPackage. cbn [assembler]. fold P. rewrite Hv, !listSum_app.
      rewrite (sumOver_perm (txSize pool) P _ (SortForBlock_perm pool P)).
      rewrite (sumOver_perm (txSigOps pool) P _ (SortForBlock_perm pool P)).
      lia.
Qed.

Lemma iteration_failedTx (s s' : LoopState) :
  iteration pool params s s' -> failedTx s ⊆ failedTx s'.
Proof.
  intros [Ha Hm Hf|c Hsel Hfresh Hskip Ht Ha Hm Hf|c Hsel Hfresh Hskip Ht Htx ->].
  - by rewrite Hf.
  - rewrite Hf. cbn [dropFailed failedTx]. destruct (fUsingModified c); [|done].
    intros x Hx. apply elem_of_union. by right.
  - done.
Qed.

Lemma visits_failedTx (s s' : LoopState) :
  visits pool params s s' -> failedTx s ⊆ failedTx s'.
Proof.
  induction 1 as [|s1 s2 Hv IH Hs|s1 why s2 Hv IH Hs]; [done| |].
  - etrans; [exact IH|]. apply iteration_failedTx, step_iteration. by left.
  - etrans; [exact IH|]. apply iteration_failedTx, step_iteration. right. by exists why.
Qed.

Lemma visits_trans (s0 s s' : LoopState) :
  visits pool params s0 s -> visits pool params s s' -> visits pool params s0 s'.
Proof.
  intros H0. induction 1 as [|s1 s2 Hv IH Hs|s1 why s2 Hv IH Hs]; [done| |].
  - by eapply visits_continue.
  - by eapply visits_leave.
Qed.

(** X16: when the counters are below the maxima on entry to the selection
    loop, [nBlockSize] and [nBlockSigOps] are at every point of the loop
    exactly their values on entry (the reservation and the commitments; 100
    sigops) plus the sizes and sigop counts of the transactions in the
    block: the additions never wrap. *)
Theorem size_counters_exact (qcSizes : list Z) (s : LoopState) :
  params_in_range params ->
  within_capacity params (blockAtEntry qcSizes) ->
  visits pool params (loopEntry pool (blockAtEntry qcSizes)) s ->
  nBlockSize (assembler s)
  = nBlockSize (blockAtEntry qcSizes) + listSum (txSize pool) (vtx (assembler s))
  /\ nBlockSigOps (assembler s) = 100 + listSum (txSigOps pool) (vtx (assembler s)).
Proof.
  intros Hrange Hcap0 Hv.
  destruct (visits_counters qcSizes s Hrange Hcap0 Hv) as [H1 H2].
  destruct (commitments_start qcSizes) as (_ & _ & Hg). fold (blockAtEntry qcSizes) in Hg.
  rewrite Hg in H2. done.
Qed.

(** X17: a transaction that has been put into [failedTx] is there for the
    rest of the loop and never enters the block, neither as a candidate of
    its own (it can come back into mapModifiedTx) nor as an ancestor in the
    package of a descendant. *)
Theorem failed_transactions_stay_out (qcSizes : list Z) (s s' : LoopState) (f : txiter) :
  params_in_range params ->
  within_capacity params (blockAtEntry qcSizes) ->
  visits pool params (loopEntry pool (blockAtEntry qcSizes)) s ->
  visits pool params s s' ->
  f ∈ failedTx s ->
  f ∈ failedTx s' /\ (f ∉ inBlock (assembler s')) /\ (f ∉ vtx (assembler s')).
Proof.
  intros Hrange Hcap0 Hv Hv' Hf.
  pose proof (visits_trans _ _ _ Hv Hv') as Hv2.
  pose proof (visits_failedTx s s' Hv' f Hf) as Hf'.
  destruct (visits_failed_blocked qcSizes s' Hrange Hcap0 Hv2 f Hf') as [Hout _].
  pose proof (visits_invariant pool params Hpool _ s'
                (entry_state_invariant pool params qcSizes) Hv2) as Hinv.
  split; [done|]. split; [done|].
  intros Hx. by apply Hout, (inv_vtx_inBlock pool params s' Hinv).
Qed.

(** X18: at every point of the selection loop the entry mapModifiedTx
    holds for a transaction that has not failed is exact: its size and
    sigop count (and its fees, when the mempool's fee aggregates are sums
    over the ancestors as well) are those of the transaction together with
    its ancestors that are not yet in the block. *)
Theorem tracker_holds_remaining_package (qcSizes : list Z) (s : LoopState)
    (d : txiter) (e : CTxMemPoolModifiedEntry) :
  visits pool params (loopEntry pool (blockAtEntry qcSizes)) s ->
  mapModifiedTx s !! d = Some e ->
  d ∉ failedTx s ->
  nSizeWithAncestors e = sumOver (txSize pool) (packageOf pool (assembler s) d)
  /\ nSigOpCountWithAncestors e = sumOver (txSigOps pool) (packageOf pool (assembler s) d)
  /\ (fees_with_ancestors pool ->
      nModFeesWithAncestors e = sumOver (txModFee pool) (packageOf pool (assembler s) d)).
Proof.
  intros Hv He Hd. apply (trk_exact pool s (visits_tracker qcSizes s Hv) d e He Hd).
Qed.

Lemma size_poolHandles :
  (size (poolHandles pool) <= length (mapTx_ancestor_score pool))%nat.
Proof.
  unfold poolHandles. induction (mapTx_ancestor_score pool) as [|x l IH].
  - cbn [list_to_set length]. rewrite size_empty. lia.
  - cbn [list_to_set length]. rewrite size_union_alt, size_singleton.
    assert (Hsub : list_to_set l ∖ {[ x ]} ⊆ (list_to_set l : gset txiter)).
    { intros y Hy. by apply elem_of_difference in Hy as [Hy _]. }
    apply subseteq_size in Hsub. lia.
Qed.

(** X19: for a mempool whose relatives are pool entries, the selection
    loop of CreateNewBlock ends within (n + 1) * 2n iterations, n the
    number of mempool entries, and ends by one of its three exits: the
    assertion on the candidate does not fail and [mapModifiedTx.end()] is
    not dereferenced. *)
Theorem selection_loop_terminates (qcSizes : list Z) (fuel : nat) :
  mempool_closed pool ->
  (S (length (mapTx_ancestor_score pool)) * (2 * length (mapTx_ancestor_score pool))
   < fuel)%nat ->
  exists why s, assembleBody pool params fuel qcSizes = Finished why s.
Proof.
  intros Hclosed Hfuel. apply (addPackageTxs_terminates pool params Hpool Hclosed).
  unfold iterationsLeft.
  assert (Hmap : mapModifiedTx (loopEntry pool (blockAtEntry qcSizes)) = ∅).
  { apply map_eq. intros k. rewrite entry_tracker_empty. by rewrite lookup_empty. }
  rewrite Hmap, map_size_empty.
  assert (Hmi : mi (loopEntry pool (blockAtEntry qcSizes)) = mapTx_ancestor_score pool)
    by reflexivity.
  rewrite Hmi.
  assert (Hsub : poolHandles pool ∖ inBlock (assembler (loopEntry pool (blockAtEntry qcSizes)))
                 ⊆ poolHandles pool).
  { intros y Hy. by apply elem_of_difference in Hy as [Hy _]. }
  apply subseteq_size in Hsub. pose proof size_poolHandles as Hn. nia.
Qed.

End TrackerProperties.

(** ** The further properties on the sample pools *)

Lemma sampleRun_visits :
  visits samplePool sampleParams (loopEntry samplePool (blockAtEntry [])) sampleRunEnd.
Proof.
  pose proof (assembleBody_result samplePool sampleParams samplePool_consistent 10 [])
    as Hr.
  rewrite sampleRun_end in Hr. destruct Hr as (before & _ & _ & _ & Hv). exact Hv.
Qed.

Lemma sampleAfterFirst_visits :
  visits samplePool sampleParams (loopEntry samplePool (blockAtEntry [])) sampleAfterFirst.
Proof.
  apply (visits_continue _ _ _ (loopEntry samplePool (blockAtEntry []))); [constructor|].
  vm_compute. reflexivity.
Qed.

Lemma sampleEntry_capacity : within_capacity sampleParams (blockAtEntry []).
Proof. constructor; vm_compute; split; congruence. Qed.

Lemma fees_are_those_of_the_block_witness :
  nFees (assembler sampleRunEnd)
  = listSum (fun x => GetFee (entry samplePool x)) (vtx (assembler sampleRunEnd))
  /\ nSpecialTxFees (assembler sampleRunEnd)
     = listSum (fun x => GetSpecialTxFee (entry samplePool x)) (vtx (assembler sampleRunEnd))
  /\ nBlockTx (assembler sampleRunEnd)
     = wrap64 (Z.of_nat (length (@nil Z)) + Z.of_nat (length (vtx (assembler sampleRunEnd)))).
Proof.
  exact (fees_are_those_of_the_block samplePool sampleParams [] sampleRunEnd
           sampleRun_visits).
Defined.

Lemma only_final_and_safe_committed_witness :
  IsFinalTx sampleParams 1%nat = true /\ IsTxSafeForMining sampleParams 1%nat = true.
Proof.
  apply (only_final_and_safe_committed samplePool sampleParams [] sampleRunEnd 1%nat
           sampleRun_visits).
  apply (bool_decide_unpack _). vm_compute. exact I.
Defined.

Lemma size_counters_exact_witness :
  nBlockSize (assembler sampleRunEnd)
  = nBlockSize (blockAtEntry []) + listSum (txSize samplePool) (vtx (assembler sampleRunEnd))
  /\ nBlockSigOps (assembler sampleRunEnd)
     = 100 + listSum (txSigOps samplePool) (vtx (assembler sampleRunEnd)).
Proof.
  exact (size_counters_exact samplePool sampleParams samplePool_consistent [] sampleRunEnd
           sampleParams_in_range sampleEntry_capacity sampleRun_visits).
Defined.

Lemma tracker_holds_remaining_package_witness :
  nSizeWithAncestors (mkModified 100 900 1)
  = sumOver (txSize samplePool) (packageOf samplePool (assembler sampleAfterFirst) 2%nat)
  /\ nSigOpCountWithAncestors (mkModified 100 900 1)
     = sumOver (txSigOps samplePool) (packageOf samplePool (assembler sampleAfterFirst) 2%nat)
  /\ (fees_with_ancestors samplePool ->
      nModFeesWithAncestors (mkModified 100 900 1)
      = sumOver (txModFee samplePool)
          (packageOf samplePool (assembler sampleAfterFirst) 2%nat)).
Proof.
  apply (tracker_holds_remaining_package samplePool sampleParams samplePool_consistent []
           sampleAfterFirst 2%nat (mkModified 100 900 1) sampleAfterFirst_visits).
  - vm_compute. reflexivity.
  - apply (bool_decide_unpack _). vm_compute. exact I.
Defined.

Lemma selection_loop_terminates_witness :
  exists why s, assembleBody samplePool sampleParams 41 [] = Finished why s.
Proof.
  apply (selection_loop_terminates samplePool sampleParams samplePool_consistent [] 41
           samplePool_closed).
  vm_compute. lia.
Defined.

Lemma lockedChildPool_consistent : mempool_consistent lockedChildPool.
Proof.
  constructor.
  - intros x. handle_cases x;
      cbn [CalculateMemPoolAncestors lockedChildPool]; set_unfold; try lia; try tauto.
  - intros a b Hab. handle_cases b; revert Hab;
      cbn [CalculateMemPoolAncestors lockedChildPool]; set_unfold; try lia; try tauto;
      intros ->; cbn; intros y Hy; by apply not_elem_of_empty in Hy.
  - intros c d Hne. handle_cases c; handle_cases d;
      cbn [CalculateMemPoolAncestors CalculateDescendants lockedChildPool];
      set_unfold; try lia; try tauto.
  - intros x. handle_cases x;
      cbn [CalculateMemPoolAncestors lockedChildPool entry GetCountWithAncestors];
      rewrite ?size_singleton, ?size_empty; reflexivity.
  - intros x. unfold txSize. handle_cases x;
      cbn [CalculateMemPoolAncestors lockedChildPool entry GetSizeWithAncestors GetTxSize];
      rewrite ?sumOver_singleton, ?sumOver_empty; reflexivity.
  - intros x. unfold txSigOps. handle_cases x;
      cbn [CalculateMemPoolAncestors lockedChildPool entry GetSigOpCountWithAncestors
           GetSigOpCount];
      rewrite ?sumOver_singleton, ?sumOver_empty; reflexivity.
  - intros x. unfold txSize. handle_cases x; simpl; lia.
  - intros x. unfold txSigOps. handle_cases x; simpl; lia.
  - intros x. handle_cases x; simpl; lia.
  - intros x. handle_cases x; simpl; lia.
Qed.

Lemma lockedChildParams_in_range : params_in_range lockedChildParams.
Proof. constructor; simpl; lia. Qed.

Lemma lockedChildRun_end :
  assembleBody lockedChildPool lockedChildParams 10 [] = Finished LoopConditionFalse lockedChildEnd.
Proof. vm_compute. reflexivity. Qed.

Lemma lockedChildRun_visits :
  visits lockedChildPool lockedChildParams (loopEntry lockedChildPool (blockAtEntry []))
    lockedChildEnd.
Proof.
  pose proof (assembleBody_result lockedChildPool lockedChildParams
                lockedChildPool_consistent 10 []) as Hr.
  rewrite lockedChildRun_end in Hr. destruct Hr as (before & _ & _ & _ & Hv). exact Hv.
Qed.

Lemma failed_transactions_stay_out_witness :
  1%nat ∈ failedTx lockedChildEnd
  /\ (1%nat ∉ inBlock (assembler lockedChildEnd))
  /\ (1%nat ∉ vtx (assembler lockedChildEnd)).
Proof.
  apply (failed_transactions_stay_out lockedChildPool lockedChildParams
           lockedChildPool_consistent [] lockedChildEnd lockedChildEnd 1%nat
           lockedChildParams_in_range).
  - constructor; vm_compute; split; congruence.
  - exact lockedChildRun_visits.
  - constructor.
  - apply (bool_decide_unpack _). vm_compute. exact I.
Defined.

(** ** A block that is full on entry *)

Lemma blockAtEntry_size_nonneg (qcSizes : list Z) : 0 <= nBlockSize (blockAtEntry qcSizes).
Proof.
  unfold blockAtEntry.
  assert (Hgen : forall a, 0 <= nBlockSize a -> 0 <= nBlockSize (foldl addCommitment a qcSizes)).
  { induction qcSizes as [|q l IH]; intros a Ha; cbn [foldl]; [done|].
    apply IH. cbn [addCommitment nBlockSize]. apply wrap64_range. }
  apply Hgen. simpl. lia.
Qed.

Section FullBlock.
Variable pool : CTxMemPool.
Variable params : AssemblerParams.
Hypothesis Hpool : mempool_consistent pool.

(** X20: when the size counter has already reached [nBlockMaxSize] on entry
    to the selection loop (the 1000 bytes reserved for the coinbase with the
    smallest [nBlockMaxSize] the constructor's clamp allows, or large quorum
    commitments), the loop commits nothing: at every point the block is the
    one it was entered with and holds no mempool transaction. *)
Theorem full_block_takes_nothing (qcSizes : list Z) (s : LoopState) :
  nBlockMaxSize params <= nBlockSize (blockAtEntry qcSizes) < 2 ^ 63 ->
  visits pool params (loopEntry pool (blockAtEntry qcSizes)) s ->
  assembler s = blockAtEntry qcSizes /\ vtx (assembler s) = [].
Proof.
  intros Hfull Hv.
  assert (Hsame : assembler s = blockAtEntry qcSizes).
  { revert s Hv.
    apply (visits_iterations pool params (fun s => assembler s = blockAtEntry qcSizes));
      [reflexivity|].
    intros s1 s' Hv1 IH Hit.
    pose proof (visits_invariant pool params Hpool _ s1
                  (entry_state_invariant pool params qcSizes) Hv1) as Hinv.
    destruct Hit as [Ha Hm Hf|c Hsel Hfresh Hskip Ht Ha Hm Hf|c Hsel Hfresh Hskip Ht Htx ->].
    - by rewrite Ha.
    - by rewrite Ha.
    - exfalso.
      pose proof (select_fits pool params Hpool s1 c Hinv Hsel Hskip) as Hfit.
      destruct (fits_size pool s1 c Hfit) as [Hlo Hhi].
      destruct (packageOf_bounds pool Hpool (assembler s1) (iter c)) as (Hpos & _).
      pose proof (size_bounded pool Hpool (iter c)) as Hb.
      pose proof (blockAtEntry_size_nonneg qcSizes) as Hnn.
      unfold TestPackage in Ht. rewrite IH in Ht.
      rewrite wrap64_small in Ht by lia.
      destruct (nBlockMaxSize params <=? nBlockSize (blockAtEntry qcSizes) + packageSize c)
        eqn:E; [discriminate|]. lia. }
  split; [exact Hsame|]. rewrite Hsame.
  destruct (commitments_start qcSizes) as (_ & Hvtx & _). exact Hvtx.
Qed.

End FullBlock.

Lemma tinyRun_end :
  exists why, assembleBody samplePool tinyBlockParams 20 [] = Finished why tinyRunEnd.
Proof. eexists. vm_compute. reflexivity. Qed.

Lemma full_block_takes_nothing_witness :
  nBlockMaxSize tinyBlockParams = 1000
  /\ assembler tinyRunEnd = blockAtEntry []
  /\ vtx (assembler tinyRunEnd) = [].
Proof.
  split; [vm_compute; reflexivity|].
  apply (full_block_takes_nothing samplePool tinyBlockParams samplePool_consistent []
           tinyRunEnd).
  - vm_compute. split; [congruence | reflexivity].
  - pose proof (assembleBody_result samplePool tinyBlockParams samplePool_consistent 20 [])
      as Hr.
    destruct tinyRun_end as [why Hrun]. rewrite Hrun in Hr.
    destruct Hr as (before & _ & _ & _ & Hv). exact Hv.
Defined.

Lemma template_vectors_aligned_witness :
  zsum (vTxFees
          (finishTemplate
             (foldl (AddToBlock_with_template samplePool)
                (blockAtEntry [300], templateAtEntry [300]) [0%nat; 1%nat]).1 3
             (foldl (AddToBlock_with_template samplePool)
                (blockAtEntry [300], templateAtEntry [300]) [0%nat; 1%nat]).2)) = 0
  /\ vTxFees
       (finishTemplate
          (foldl (AddToBlock_with_template samplePool)
             (blockAtEntry [300], templateAtEntry [300]) [0%nat; 1%nat]).1 3
          (foldl (AddToBlock_with_template samplePool)
             (blockAtEntry [300], templateAtEntry [300]) [0%nat; 1%nat]).2)
     = [-1001; 0; 1; 1000].
Proof.
  destruct (proj2 (template_vectors_aligned samplePool [300] [0%nat; 1%nat] 3) _ eq_refl)
    as (_ & _ & _ & Hsum & _).
  split; [exact Hsum | vm_compute; reflexivity].
Defined.

(** ** chainparams.cpp *)

Lemma findNonce_result (hashOf : Z -> Z) (bnTarget : Z) (fuel : nat) :
  forall nNonce0,
    0 <= nNonce0 < 2 ^ 32 ->
    (Z.to_nat (2 ^ 32 - nNonce0) <= fuel)%nat ->
    (forall m, 0 <= m < nNonce0 -> bnTarget < hashOf m) ->
    match findNonce fuel hashOf bnTarget nNonce0 with
    | Some (Ok n) =>
        nNonce0 <= n < UINT32_MAX /\ hashOf n <= bnTarget
        /\ forall m, 0 <= m < n -> bnTarget < hashOf m
    | Some Aborted => forall m, 0 <= m < UINT32_MAX -> bnTarget < hashOf m
    | _ => False
    end.
Proof.
  unfold UINT32_MAX.
  induction fuel as [|fuel IH]; intros n Hn Hfuel Hbelow; [lia|].
  cbn [findNonce]. unfold UINT32_MAX.
  destruct (n <? 2 ^ 32 - 1) eqn:Elast.
  - destruct (hashOf n <=? bnTarget) eqn:Ehash.
    + split; [lia|]. split; [lia | exact Hbelow].
    + rewrite wrap32_small by lia.
      specialize (IH (n + 1) ltac:(lia) ltac:(lia)).
      assert (Hbelow' : forall m, 0 <= m < n + 1 -> bnTarget < hashOf m).
      { intros m Hm. destruct (decide (m = n)) as [->|Hne]; [lia | apply Hbelow; lia]. }
      specialize (IH Hbelow').
      destruct (findNonce fuel hashOf bnTarget (n + 1)) as [[r| | |]|]; try done.
      destruct IH as (H1 & H2 & H3). split; [lia | done].
  - intros m Hm. apply Hbelow. lia.
Qed.

(** X21: FindDevNetGenesisBlock, for a devnet name that is not empty,
    returns the block with the least nonce whose hash is not above the
    target, when there is one below [UINT32_MAX]; otherwise (no nonce from 0
    to [UINT32_MAX - 1] gives such a hash; [UINT32_MAX] itself is not
    tried) it stops at the [assert(false)].  It needs at most 2^32
    iterations. *)
Theorem FindDevNetGenesisBlock_least_nonce (fuel : nat) (devNetName : string)
    (hashOf : Z -> Z) (bnTarget : Z) :
  devNetName <> EmptyString ->
  (Z.to_nat (2 ^ 32) <= fuel)%nat ->
  match FindDevNetGenesisBlock fuel devNetName hashOf bnTarget with
  | Some (Ok n) =>
      0 <= n < UINT32_MAX /\ hashOf n <= bnTarget
      /\ forall m, 0 <= m < n -> bnTarget < hashOf m
  | Some Aborted => forall m, 0 <= m < UINT32_MAX -> bnTarget < hashOf m
  | _ => False
  end.
Proof.
  intros Hname Hfuel. unfold FindDevNetGenesisBlock. rewrite decide_False by done.
  apply findNonce_result; [lia | exact Hfuel | intros m Hm; lia].
Qed.

Lemma FindDevNetGenesisBlock_least_nonce_witness :
  match FindDevNetGenesisBlock (Z.to_nat (2 ^ 32)) "devnet-one" (fun n => 1000 - n) 997 with
  | Some (Ok n) =>
      0 <= n < UINT32_MAX /\ 1000 - n <= 997
      /\ forall m, 0 <= m < n -> 997 < 1000 - m
  | Some Aborted => forall m, 0 <= m < UINT32_MAX -> 997 < 1000 - m
  | _ => False
  end.
Proof.
  apply (FindDevNetGenesisBlock_least_nonce (Z.to_nat (2 ^ 32)) "devnet-one"
           (fun n => 1000 - n) 997).
  - discriminate.
  - apply Nat.le_refl.
Defined.

Lemma verifyNonce_later (powHash : Z -> Z) (bnTarget genesisNonce : Z) (fuel : nat) :
  0 <= genesisNonce ->
  forall nNonce0,
    genesisNonce < nNonce0 < 2 ^ 32 ->
    (Z.to_nat (2 ^ 32 - nNonce0) <= fuel)%nat ->
    verifyNonce fuel powHash bnTarget genesisNonce nNonce0 = Some Aborted.
Proof.
  intros Hg. induction fuel as [|fuel IH]; intros n Hn Hfuel; [lia|].
  cbn [verifyNonce]. destruct (powHash n <=? bnTarget).
  - destruct (genesisNonce =? n) eqn:E; [lia | reflexivity].
  - destruct (decide (n + 1 = 2 ^ 32)) as [Hlast|Hlast].
    + rewrite Hlast. reflexivity.
    + rewrite wrap32_small by lia.
      destruct (n + 1 =? 0) eqn:E0; [lia|]. cbn [negb].
      apply IH; lia.
Qed.

(** X22: VerifyGenesisPOW returns exactly when the nonce of the genesis
    block it is given has a proof-of-work hash that is not above the
    target.  With any other nonce it never returns: it stops at an assert,
    either at the first later nonce with such a hash or, when there is none
    up to 2^32 - 1, after the loop; nonces below the given one are not
    tried. *)
Theorem VerifyGenesisPOW_returns_iff_valid (fuel : nat) (powHash : Z -> Z)
    (bnTarget genesisNonce : Z) :
  0 <= genesisNonce < 2 ^ 32 ->
  (Z.to_nat (2 ^ 32 - genesisNonce) <= fuel)%nat ->
  VerifyGenesisPOW fuel powHash bnTarget genesisNonce
  = Some (if powHash genesisNonce <=? bnTarget then Ok tt else Aborted).
Proof.
  intros Hg Hfuel. unfold VerifyGenesisPOW.
  destruct fuel as [|fuel]; [lia|]. cbn [verifyNonce].
  destruct (powHash genesisNonce <=? bnTarget).
  - rewrite Z.eqb_refl. reflexivity.
  - destruct (decide (genesisNonce + 1 = 2 ^ 32)) as [Hlast|Hlast].
    + rewrite Hlast. reflexivity.
    + rewrite wrap32_small by lia.
      destruct (genesisNonce + 1 =? 0) eqn:E0; [lia|]. cbn [negb].
      apply verifyNonce_later; lia.
Qed.

Lemma VerifyGenesisPOW_returns_iff_valid_witness :
  VerifyGenesisPOW 3 (fun n => 2 ^ 32 - n) 2 (2 ^ 32 - 3)
  = Some (if 2 ^ 32 - (2 ^ 32 - 3) <=? 2 then Ok tt else Aborted).
Proof.
  apply (VerifyGenesisPOW_returns_iff_valid 3 (fun n => 2 ^ 32 - n) 2 (2 ^ 32 - 3)).
  - lia.
  - vm_compute. lia.
Defined.

(** ** The mining phase of the quorums *)

Lemma IsMiningPhase_value (p : LLMQParams) (nHeight : Z) :
  0 < dkgInterval p -> 0 <= nHeight ->
  IsMiningPhase p nHeight
  = Ok (bool_decide (dkgMiningWindowStart p <= nHeight mod dkgInterval p
                     <= dkgMiningWindowEnd p)).
Proof.
  intros Hi Hh. unfold IsMiningPhase.
  destruct (dkgInterval p =? 0) eqn:E0; [lia|].
  destruct (dkgInterval p =? -1) eqn:E1; [lia|].
  rewrite andb_false_r. cbn [orb].
  rewrite Z.rem_mod_nonneg by lia.
  destruct (dkgMiningWindowStart p <=? nHeight mod dkgInterval p) eqn:Ea;
    destruct (nHeight mod dkgInterval p <=? dkgMiningWindowEnd p) eqn:Eb; cbn [andb].
  - by rewrite bool_decide_eq_true_2 by lia.
  - by rewrite bool_decide_eq_false_2 by lia.
  - by rewrite bool_decide_eq_false_2 by lia.
  - by rewrite bool_decide_eq_false_2 by lia.
Qed.

(** X23: for a positive [dkgInterval] and a height that is not negative,
    IsMiningPhase holds exactly when the height modulo the interval lies in
    the window from [dkgMiningWindowStart] to [dkgMiningWindowEnd], both
    ends included; so the answer repeats with period [dkgInterval], and it
    is never true for an empty window (end below start). *)
Theorem IsMiningPhase_window (p : LLMQParams) (nHeight : Z) :
  0 < dkgInterval p -> 0 <= nHeight ->
  (IsMiningPhase p nHeight = Ok true
   <-> dkgMiningWindowStart p <= nHeight mod dkgInterval p <= dkgMiningWindowEnd p)
  /\ (IsMiningPhase p nHeight = Ok false
      <-> ~ dkgMiningWindowStart p <= nHeight mod dkgInterval p <= dkgMiningWindowEnd p)
  /\ (forall k, 0 <= k ->
        IsMiningPhase p (nHeight + k * dkgInterval p) = IsMiningPhase p nHeight)
  /\ (dkgMiningWindowEnd p < dkgMiningWindowStart p -> IsMiningPhase p nHeight = Ok false).
Proof.
  intros Hi Hh. rewrite (IsMiningPhase_value p nHeight Hi Hh).
  split; [|split; [|split]].
  - split.
    + intros [= Hb]. by apply bool_decide_eq_true in Hb.
    + intros Hw. by rewrite bool_decide_eq_true_2.
  - split.
    + intros [= Hb]. by apply bool_decide_eq_false in Hb.
    + intros Hw. by rewrite bool_decide_eq_false_2.
  - intros k Hk. rewrite IsMiningPhase_value by nia.
    by rewrite Z_mod_plus_full.
  - intros Hempty. rewrite bool_decide_eq_false_2 by lia. reflexivity.
Qed.

Lemma IsMiningPhase_window_witness :
  IsMiningPhase (mkLLMQ 24 10 18) (100 + 3 * 24) = IsMiningPhase (mkLLMQ 24 10 18) 100.
Proof.
  apply (proj1 (proj2 (proj2 (IsMiningPhase_window (mkLLMQ 24 10 18) 100
                                ltac:(simpl; lia) ltac:(lia)))) 3).
  lia.
Defined.

(** X24: when every quorum type has a positive [dkgInterval] and the height
    is not negative, IsLLMQsMiningPhase is defined and is true exactly when
    one of the quorum types is in its mining phase at that height. *)
Theorem IsLLMQsMiningPhase_some (llmqs : list (Z * LLMQParams)) (nHeight : Z) :
  (forall it, In it llmqs -> 0 < dkgInterval it.2) -> 0 <= nHeight ->
  exists phase,
    IsLLMQsMiningPhase llmqs nHeight = Ok phase
    /\ (phase = true <-> exists it, In it llmqs /\ IsMiningPhase it.2 nHeight = Ok true).
Proof.
  intros Hi Hh. induction llmqs as [|it rest IH]; cbn [IsLLMQsMiningPhase].
  - exists false. split; [reflexivity|]. split; [discriminate | intros (it & [] & _)].
  - pose proof (IsMiningPhase_value it.2 nHeight (Hi it (or_introl eq_refl)) Hh) as Hv.
    destruct (bool_decide (dkgMiningWindowStart it.2 <= nHeight mod dkgInterval it.2
                           <= dkgMiningWindowEnd it.2)) eqn:Eb;
      rewrite Hv; cbn [obind].
    + exists true. split; [reflexivity|]. split; [|done].
      intros _. exists it. split; [by left | exact Hv].
    + destruct IH as (phase & Hrun & Hphase).
      { intros it' Hin. apply Hi. by right. }
      exists phase. split; [exact Hrun|]. rewrite Hphase. split.
      * intros (it' & Hin & Hit'). exists it'. split; [by right | done].
      * intros (it' & [<-|Hin] & Hit'); [congruence|]. by exists it'.
Qed.

Lemma IsLLMQsMiningPhase_some_witness :
  exists phase,
    IsLLMQsMiningPhase [(1, mkLLMQ 24 10 18); (2, mkLLMQ 288 20 28)] 308 = Ok phase
    /\ (phase = true
        <-> exists it, In it [(1, mkLLMQ 24 10 18); (2, mkLLMQ 288 20 28)]
                       /\ IsMiningPhase it.2 308 = Ok true).
Proof.
  apply (IsLLMQsMiningPhase_some [(1, mkLLMQ 24 10 18); (2, mkLLMQ 288 20 28)] 308).
  - intros it [<-|[<-|[]]]; simpl; lia.
  - lia.
Defined.
